(** * The tutorial engine of [useTutorial.ts], embedded in Rocq

    The composable [useTutorial()] keeps a handful of reactive cells (the
    active configuration, the step index, the activity and waiting flags, the
    target rectangle), a module-wide event bus, and talks to the browser
    (localStorage, console, DOM lookups, scrolling and timers).  The embedding
    threads one [World] record, for one instance of the composable, through
    every function, in a small state-and-exception monad: a JavaScript
    function that may throw becomes a function [World -> World * Result A],
    and the world reached when an exception escapes is kept, as the
    assignments done so far are.

    What the host supplies as functions is defunctionalised:
    - a step or configuration callback is a [Callback], observed by its name
      in the trace, which may throw;
    - a subscriber of the bus is either a host function ([HostHandler], a
      spy which may throw) or the closure that [setupActionListener]
      allocates ([ActionHandler]);
    - a timer callback is one of the two arrow functions passed to
      [setTimeout] in the source.
    Host functions do not call back into the engine.  The page is a map
    from selectors to the bounding box of the element they select; numbers
    of pixels are rationals, times are whole milliseconds.

    The [async] functions of the engine are embedded twice.  [start],
    [goToStep], [next], [previous] and [skipTo] are the calls as a host
    that awaits them sees them: begun and carried to their end with
    nothing in between, so that [await] is sequencing; [run] chains such
    calls.  [goToStep_begin], [resume] and [play] cut the same code at its
    three [await]s: a call stops there, and other calls, timers and changes
    of the page come in between before it goes on.  The states that the
    engine can be in are those of [play]; the first embedding is the
    special case in which every call is awaited ([play_call]).

    The [trace] of a world is not part of the program: it records, in order,
    the calls of [emit], of subscribers and callbacks, and the scroll
    requests, so that statements can speak about them.

    Of the components, the file embeds what computes: the click handler of
    the overlay in [Tutorial.vue], and the placement, the scrolling and the
    labels of the popover in [TutorialPopover.vue]. *)

From Stdlib Require Import ZArith QArith Qabs Lqa Ascii String List.
From stdpp Require Import base option list gmap strings.

Local Open Scope Z_scope.
Local Open Scope string_scope.
Local Open Scope list_scope.

(** ** Data model ([types.ts]) *)

Inductive Placement := Top | Bottom | Left | Right | Center.

(** A host function [() => void | Promise<void>]. *)
Record Callback := {
  cb_name : string;
  cb_throws : option string
}.

Record WaitForAction := {
  event : string;
  wait_target : option string;
  timeout : option Z
}.

Record TutorialStep := {
  step_id : string;
  target : option string;
  title : string;
  description : string;
  placement : option Placement;
  blockInteractions : option bool;
  waitForAction : option WaitForAction;
  allowSkipTo : option (list string);
  onEnter : option Callback;
  onExit : option Callback;
  popoverClass : option string
}.

Record Theme := {
  primary : option string;
  background : option string;
  text : option string
}.

Record TutorialConfig := {
  steps : list TutorialStep;
  config_id : string;
  showProgress : option bool;
  allowClose : option bool;
  onComplete : option Callback;
  onClose : option Callback;
  theme : option Theme
}.

(** Viewport-relative bounding box, in pixels. *)
Record DOMRect := {
  rect_top : Q;
  rect_bottom : Q;
  rect_left : Q;
  rect_right : Q;
  rect_width : Q;
  rect_height : Q
}.

(** ** Functions as data *)

Inductive Error :=
| HostError (message : string)
| RangeError.

Inductive Result (A : Type) :=
| Ok (a : A)
| Throw (e : Error).
Arguments Ok {A} a.
Arguments Throw {A} e.

(** Subscribers of the event bus.  [hid] is the identity of the function
    object: the bus stores handlers in a [Set], which compares by identity. *)
Inductive Handler :=
| HostHandler (hid : nat) (throws : option string)
| ActionHandler (hid : nat) (eventName : string).

#[global] Instance Handler_eq_dec : EqDecision Handler.
Proof. solve_decision. Defined.

Inductive Payload :=
| NoData
| StepChange (step : TutorialStep) (index : Z)
| ActionCompleted (eventName : string)
| HostData (d : string).

Inductive CallbackRole := OnEnter | OnExit | OnComplete | OnClose.

(** What an observer of the engine sees, in order. *)
Inductive TraceEvent :=
| Emitted (event : string) (data : Payload)
| HandlerInvoked (h : Handler) (data : Payload)
| CallbackInvoked (role : CallbackRole) (cb : Callback)
| ScrollTo (y : Q).

Inductive TimerCallback :=
| UpdateRectTimer
| ActionTimeout (eventName : string) (h : Handler).

(** ** The world *)

Record World := {
  (* cells of the useTutorial() closure *)
  config : option TutorialConfig;
  currentStepIndex : Z;
  isActive : bool;
  isWaitingForAction : bool;
  targetRect : option DOMRect;
  currentActionHandler : option (string * Handler);
  (* module scope *)
  eventBus : gmap string (list Handler);
  (* browser *)
  localStorage : gmap string string;
  console : list string;
  document : gmap string DOMRect;
  innerHeight : Q;
  scrollY : Q;
  now : Z;
  timers : list (Z * TimerCallback);
  (* bookkeeping: how many handler closures were allocated, what happened *)
  closures : nat;
  trace : list TraceEvent
}.

Definition set_config (v : option TutorialConfig) (w : World) : World :=
  Build_World v (currentStepIndex w) (isActive w) (isWaitingForAction w)
    (targetRect w) (currentActionHandler w) (eventBus w) (localStorage w)
    (console w) (document w) (innerHeight w) (scrollY w) (now w) (timers w)
    (closures w) (trace w).

Definition set_currentStepIndex (v : Z) (w : World) : World :=
  Build_World (config w) v (isActive w) (isWaitingForAction w)
    (targetRect w) (currentActionHandler w) (eventBus w) (localStorage w)
    (console w) (document w) (innerHeight w) (scrollY w) (now w) (timers w)
    (closures w) (trace w).

Definition set_isActive (v : bool) (w : World) : World :=
  Build_World (config w) (currentStepIndex w) v (isWaitingForAction w)
    (targetRect w) (currentActionHandler w) (eventBus w) (localStorage w)
    (console w) (document w) (innerHeight w) (scrollY w) (now w) (timers w)
    (closures w) (trace w).

Definition set_isWaitingForAction (v : bool) (w : World) : World :=
  Build_World (config w) (currentStepIndex w) (isActive w) v
    (targetRect w) (currentActionHandler w) (eventBus w) (localStorage w)
    (console w) (document w) (innerHeight w) (scrollY w) (now w) (timers w)
    (closures w) (trace w).

Definition set_targetRect (v : option DOMRect) (w : World) : World :=
  Build_World (config w) (currentStepIndex w) (isActive w) (isWaitingForAction w)
    v (currentActionHandler w) (eventBus w) (localStorage w)
    (console w) (document w) (innerHeight w) (scrollY w) (now w) (timers w)
    (closures w) (trace w).

Definition set_currentActionHandler (v : option (string * Handler)) (w : World) : World :=
  Build_World (config w) (currentStepIndex w) (isActive w) (isWaitingForAction w)
    (targetRect w) v (eventBus w) (localStorage w)
    (console w) (document w) (innerHeight w) (scrollY w) (now w) (timers w)
    (closures w) (trace w).

Definition set_eventBus (v : gmap string (list Handler)) (w : World) : World :=
  Build_World (config w) (currentStepIndex w) (isActive w) (isWaitingForAction w)
    (targetRect w) (currentActionHandler w) v (localStorage w)
    (console w) (document w) (innerHeight w) (scrollY w) (now w) (timers w)
    (closures w) (trace w).

Definition set_localStorage (v : gmap string string) (w : World) : World :=
  Build_World (config w) (currentStepIndex w) (isActive w) (isWaitingForAction w)
    (targetRect w) (currentActionHandler w) (eventBus w) v
    (console w) (document w) (innerHeight w) (scrollY w) (now w) (timers w)
    (closures w) (trace w).

Definition set_console (v : list string) (w : World) : World :=
  Build_World (config w) (currentStepIndex w) (isActive w) (isWaitingForAction w)
    (targetRect w) (currentActionHandler w) (eventBus w) (localStorage w)
    v (document w) (innerHeight w) (scrollY w) (now w) (timers w)
    (closures w) (trace w).

Definition set_document (v : gmap string DOMRect) (w : World) : World :=
  Build_World (config w) (currentStepIndex w) (isActive w) (isWaitingForAction w)
    (targetRect w) (currentActionHandler w) (eventBus w) (localStorage w)
    (console w) v (innerHeight w) (scrollY w) (now w) (timers w)
    (closures w) (trace w).

Definition set_window (height y : Q) (w : World) : World :=
  Build_World (config w) (currentStepIndex w) (isActive w) (isWaitingForAction w)
    (targetRect w) (currentActionHandler w) (eventBus w) (localStorage w)
    (console w) (document w) height y (now w) (timers w)
    (closures w) (trace w).

Definition set_now (v : Z) (w : World) : World :=
  Build_World (config w) (currentStepIndex w) (isActive w) (isWaitingForAction w)
    (targetRect w) (currentActionHandler w) (eventBus w) (localStorage w)
    (console w) (document w) (innerHeight w) (scrollY w) v (timers w)
    (closures w) (trace w).

Definition set_timers (v : list (Z * TimerCallback)) (w : World) : World :=
  Build_World (config w) (currentStepIndex w) (isActive w) (isWaitingForAction w)
    (targetRect w) (currentActionHandler w) (eventBus w) (localStorage w)
    (console w) (document w) (innerHeight w) (scrollY w) (now w) v
    (closures w) (trace w).

Definition set_closures (v : nat) (w : World) : World :=
  Build_World (config w) (currentStepIndex w) (isActive w) (isWaitingForAction w)
    (targetRect w) (currentActionHandler w) (eventBus w) (localStorage w)
    (console w) (document w) (innerHeight w) (scrollY w) (now w) (timers w)
    v (trace w).

Definition set_trace (v : list TraceEvent) (w : World) : World :=
  Build_World (config w) (currentStepIndex w) (isActive w) (isWaitingForAction w)
    (targetRect w) (currentActionHandler w) (eventBus w) (localStorage w)
    (console w) (document w) (innerHeight w) (scrollY w) (now w) (timers w)
    (closures w) v.

Definition observe (ev : TraceEvent) (w : World) : World :=
  set_trace (trace w ++ [ev]) w.

(** ** The monad of functions that may throw *)

Definition M (A : Type) : Type := World -> World * Result A.

#[global] Instance M_ret : MRet M := fun A a w => (w, Ok a).

#[global] Instance M_bind : MBind M := fun A B k m w =>
  match m w with
  | (w', Ok a) => k a w'
  | (w', Throw e) => (w', Throw e)
  end.

Definition throw {A : Type} (e : Error) : M A := fun w => (w, Throw e).
Definition gets {A : Type} (f : World -> A) : M A := fun w => (w, Ok (f w)).
Definition modify (f : World -> World) : M unit := fun w => (f w, Ok tt).

(** [if (x)] on an optional string: [undefined] and [''] are falsy. *)
Definition truthy (s : option string) : option string :=
  match s with
  | Some "" => None
  | other => other
  end.

(** ** Derived state ([computed]) *)

(** [steps[index]]: [undefined] outside the array. *)
Definition stepAt (c : TutorialConfig) (index : Z) : option TutorialStep :=
  if decide (0 <= index) then steps c !! Z.to_nat index else None.

Definition currentStep (w : World) : option TutorialStep :=
  match config w with
  | None => None
  | Some c => if decide (currentStepIndex w < 0) then None else stepAt c (currentStepIndex w)
  end.

Definition totalSteps (w : World) : Z :=
  match config w with
  | None => 0
  | Some c => Z.of_nat (length (steps c))
  end.

Definition progress (w : World) : Q :=
  if decide (totalSteps w = 0) then 0%Q
  else (inject_Z (currentStepIndex w + 1) / inject_Z (totalSteps w) * 100)%Q.

Definition canGoNext (w : World) : bool :=
  if isWaitingForAction w then false
  else bool_decide (currentStepIndex w < totalSteps w - 1).

Definition canGoPrevious (w : World) : bool :=
  bool_decide (currentStepIndex w > 0).

(** ** Event bus *)

(** [Set.add]: insertion order, no duplicates. *)
Definition setAdd (h : Handler) (hs : list Handler) : list Handler :=
  if decide (h ∈ hs) then hs else hs ++ [h].

(** [Set.delete]. *)
Definition setDelete (h : Handler) (hs : list Handler) : list Handler :=
  filter (fun h' => h' <> h) hs.

Definition on (event : string) (handler : Handler) (w : World) : World :=
  let bus :=
    match eventBus w !! event with
    | None => <[event := []]> (eventBus w)
    | Some _ => eventBus w
    end in
  set_eventBus (alter (setAdd handler) event bus) w.

Definition off (event : string) (handler : Handler) (w : World) : World :=
  match eventBus w !! event with
  | Some handlers => set_eventBus (<[event := setDelete handler handlers]> (eventBus w)) w
  | None => w
  end.

(** [Set.prototype.forEach]: the entries present when the loop starts are
    visited in insertion order, one that was deleted before its turn is
    skipped; an exception ends the loop. *)
Fixpoint forEach (call : Handler -> M unit) (event : string)
    (handlers : list Handler) : M unit :=
  match handlers with
  | [] => mret tt
  | h :: rest => fun w =>
      let present :=
        match eventBus w !! event with
        | Some live => bool_decide (h ∈ live)
        | None => false
        end in
      if present then (call h ;; forEach call event rest) w
      else forEach call event rest w
  end.

(** Nested calls the JavaScript stack accepts before it overflows.  The
    engine nests deeper than two calls only when a step waits for
    [tutorial:action-completed] itself. *)
Definition callStackLimit : nat := 256.

(** What a subscriber does when the bus calls it: a host function is
    observed and may throw; the closure of [setupActionListener] clears the
    waiting flag, publishes [tutorial:action-completed], deregisters itself
    and drops the reference to itself.  [publish] is [emit], one call deeper. *)
Definition handlerBody (publish : string -> Payload -> M unit) (data : Payload)
    (h : Handler) : M unit :=
  modify (observe (HandlerInvoked h data)) ;;
  match h with
  | HostHandler _ None => mret tt
  | HostHandler _ (Some message) => throw (HostError message)
  | ActionHandler _ eventName =>
      modify (set_isWaitingForAction false) ;;
      publish "tutorial:action-completed" (ActionCompleted eventName) ;;
      modify (off eventName h) ;;
      modify (set_currentActionHandler None)
  end.

Fixpoint emit_depth (depth : nat) (event : string) (data : Payload) : M unit :=
  match depth with
  | O => throw RangeError
  | S d =>
      modify (observe (Emitted event data)) ;;
      handlers ← gets (fun w => eventBus w !! event) ;
      match handlers with
      | Some handlers => forEach (handlerBody (emit_depth d) data) event handlers
      | None => mret tt
      end
  end.

Definition emit (event : string) (data : Payload) : M unit :=
  emit_depth callStackLimit event data.

Definition triggerAction (actionName : string) (data : Payload) : M unit :=
  emit actionName data.

(** ** Timers *)

Fixpoint insertTimer (t : Z * TimerCallback) (ts : list (Z * TimerCallback))
    : list (Z * TimerCallback) :=
  match ts with
  | [] => [t]
  | u :: rest => if decide (u.1 <= t.1) then u :: insertTimer t rest else t :: ts
  end.

(** The runtime takes the delay of a timer as a signed 32-bit integer. *)
Definition maxDelay : Z := 2147483647.

(** The delay that [setTimeout] keeps: a negative one counts as zero, and
    so does one above [maxDelay], which does not fit: the timer is due at
    once. *)
Definition timerDelay (delay : Z) : Z :=
  if decide (0 <= delay <= maxDelay) then delay else 0.

(** [setTimeout(cb, delay)] *)
Definition setTimeout (cb : TimerCallback) (delay : Z) (w : World) : World :=
  set_timers (insertTimer (now w + timerDelay delay, cb) (timers w)) w.

(** ** Target tracking and scrolling *)

Definition updateTargetRect (w : World) : World :=
  match currentStep w with
  | None => set_targetRect None w
  | Some s =>
      match truthy (target s) with
      | None => set_targetRect None w
      | Some selector => set_targetRect (document w !! selector) w
      end
  end.

Definition margin : Q := 150.

Definition Qltb (a b : Q) : bool := negb (Qle_bool b a).

Definition scrollTarget (rect : DOMRect) (placement : Placement) (w : World) : option Q :=
  let viewportHeight := innerHeight w in
  match placement with
  | Top =>
      if Qltb (rect_top rect) margin
      then Some (scrollY w + rect_top rect - margin)%Q else None
  | Bottom =>
      if Qltb (viewportHeight - margin) (rect_bottom rect)
      then Some (scrollY w + (rect_bottom rect - viewportHeight + margin))%Q else None
  | Left | Right =>
      let elementCenter := (rect_top rect + rect_height rect / 2)%Q in
      let viewportCenter := (viewportHeight / 2)%Q in
      if Qltb 100 (Qabs (elementCenter - viewportCenter))
      then Some (scrollY w + (elementCenter - viewportCenter))%Q else None
  | Center => None
  end.

Definition scrollElementIntoView (rect : DOMRect) (placement : Placement) (w : World) : World :=
  match scrollTarget rect placement w with
  | Some targetScrollY =>
      setTimeout UpdateRectTimer 350 (observe (ScrollTo targetScrollY) w)
  | None => w
  end.

(** ** Waiting for an action *)

Definition setupActionListener (eventName : string) (timeout : option Z) (w : World) : World :=
  let handler := ActionHandler (closures w) eventName in
  let w := set_closures (S (closures w)) w in
  let w := on eventName handler w in
  let w := set_currentActionHandler (Some (eventName, handler)) w in
  match timeout with
  | Some t => if decide (t = 0) then w else setTimeout (ActionTimeout eventName handler) t w
  | None => w
  end.

(** The two arrow functions handed to [setTimeout]. *)
Definition runTimer (cb : TimerCallback) (w : World) : World :=
  match cb with
  | UpdateRectTimer => updateTargetRect w
  | ActionTimeout eventName handler =>
      if isWaitingForAction w
      then set_currentActionHandler None
             (off eventName handler (set_isWaitingForAction false w))
      else w
  end.

(** Time passes: the timers due within [dt] fire in order of their due time. *)
Definition advanceTimersByTime (dt : Z) (w : World) : World :=
  let limit := now w + Z.max 0 dt in
  let due := filter (fun t => t.1 <= limit) (timers w) in
  let later := filter (fun t => ~ t.1 <= limit) (timers w) in
  set_now limit
    (fold_left (fun w t => runTimer t.2 (set_now t.1 w)) due (set_timers later w)).

(** ** The engine *)

(** Calling an optional host callback: [if (f) f()]. *)
Definition invoke (role : CallbackRole) (f : option Callback) : M unit :=
  match f with
  | None => mret tt
  | Some cb =>
      modify (observe (CallbackInvoked role cb)) ;;
      match cb_throws cb with
      | None => mret tt
      | Some message => throw (HostError message)
      end
  end.

(** [if (currentActionHandler) { off(...); currentActionHandler = null }] *)
Definition cleanupActionListener (w : World) : World :=
  match currentActionHandler w with
  | Some (ev, handler) => set_currentActionHandler None (off ev handler w)
  | None => w
  end.

Definition scrollToStep (step : TutorialStep) (w : World) : World :=
  match truthy (target step) with
  | None => w
  | Some selector =>
      match document w !! selector with
      | Some element => scrollElementIntoView element (default Bottom (placement step)) w
      | None => w
      end
  end.

Definition waitIfNeeded (step : TutorialStep) (w : World) : World :=
  match waitForAction step with
  | Some wfa =>
      setupActionListener (event wfa) (timeout wfa) (set_isWaitingForAction true w)
  | None => w
  end.

(** Leaving the current step and arriving at [step]: the body of
    [goToStep] up to and including [onEnter]. *)
Definition transition (index : Z) (step : TutorialStep) : M unit :=
  modify cleanupActionListener ;;
  current ← gets currentStep ;
  invoke OnExit (current ≫= onExit) ;;
  modify (set_currentStepIndex index) ;;
  modify (set_isWaitingForAction false) ;;
  modify updateTargetRect ;;
  modify (scrollToStep step) ;;
  invoke OnEnter (onEnter step).

Definition goToStep (index : Z) : M unit :=
  c ← gets config ;
  match c with
  | None => mret tt
  | Some c =>
      match stepAt c index with
      | None => mret tt
      | Some step =>
          transition index step ;;
          modify (waitIfNeeded step) ;;
          emit "tutorial:step-change" (StepChange step index)
      end
  end.

Definition next : M unit := fun w =>
  if canGoNext w then goToStep (currentStepIndex w + 1) w else (w, Ok tt).

Definition previous : M unit := fun w =>
  if canGoPrevious w then goToStep (currentStepIndex w - 1) w else (w, Ok tt).

(** [Array.prototype.findIndex] *)
Fixpoint findIndexFrom (p : TutorialStep -> bool) (l : list TutorialStep) (k : Z) : Z :=
  match l with
  | [] => -1
  | s :: rest => if p s then k else findIndexFrom p rest (k + 1)
  end.

Definition findIndex (p : TutorialStep -> bool) (l : list TutorialStep) : Z :=
  findIndexFrom p l 0.

Definition skipTo (stepId : string) : M unit :=
  c ← gets config ;
  match c with
  | None => mret tt
  | Some c =>
      let index := findIndex (fun s => bool_decide (step_id s = stepId)) (steps c) in
      if decide (index >= 0) then goToStep index else mret tt
  end.

(** The five assignments that end [close]. *)
Definition resetState (w : World) : World :=
  set_isWaitingForAction false
    (set_targetRect None
      (set_config None
        (set_currentStepIndex (-1)
          (set_isActive false w)))).

Definition close : M unit :=
  c ← gets config ;
  match c with
  | None => mret tt
  | Some c =>
      modify cleanupActionListener ;;
      emit "tutorial:close" NoData ;;
      invoke OnClose (onClose c) ;;
      modify resetState
  end.

Definition completedKey (tutorialId : string) : string :=
  "tutorial:" +:+ tutorialId +:+ ":completed".

Definition complete : M unit :=
  c ← gets config ;
  match c with
  | None => mret tt
  | Some c =>
      modify (fun w => set_localStorage (<[completedKey (config_id c) := "true"]> (localStorage w)) w) ;;
      emit "tutorial:complete" NoData ;;
      invoke OnComplete (onComplete c) ;;
      close
  end.

Definition quote : string := String "034"%char "".

Definition consoleLog (line : string) (w : World) : World :=
  set_console (console w ++ [line]) w.

Definition start (tutorialConfig : TutorialConfig) : M unit :=
  modify (set_config (Some tutorialConfig)) ;;
  modify (set_currentStepIndex 0) ;;
  modify (set_isActive true) ;;
  completed ← gets (fun w => localStorage w !! completedKey (config_id tutorialConfig)) ;
  (if decide (completed = Some "true")
   then modify (consoleLog ("[Tutorial] " +:+ quote +:+ config_id tutorialConfig
                              +:+ quote +:+ " already completed"))
   else mret tt) ;;
  emit "tutorial:start" NoData ;;
  goToStep 0.

Definition isCompleted (tutorialId : string) (w : World) : bool :=
  bool_decide (localStorage w !! completedKey tutorialId = Some "true").

Definition resetCompletion (tutorialId : string) (w : World) : World :=
  set_localStorage (delete (completedKey tutorialId) (localStorage w)) w.

(** ** Runs of the engine *)

(** What the host and the browser can do to one engine: the operations
    [useTutorial()] returns (the host subscribes functions of its own), the
    passage of time, and changes of the page. *)
Inductive Op :=
| Start (c : TutorialConfig)
| Next
| Previous
| GoToStep (index : Z)
| SkipTo (stepId : string)
| Complete
| Close
| UpdateTargetRect
| TriggerAction (actionName : string) (data : Payload)
| Emit (event : string) (data : Payload)
| Subscribe (event : string) (hid : nat) (throws : option string)
| Unsubscribe (event : string) (hid : nat) (throws : option string)
| ResetCompletion (tutorialId : string)
| AdvanceTime (dt : Z)
| Render (page : gmap string DOMRect) (height y : Q).

Definition perform (op : Op) : M unit :=
  match op with
  | Start c => start c
  | Next => next
  | Previous => previous
  | GoToStep index => goToStep index
  | SkipTo stepId => skipTo stepId
  | Complete => complete
  | Close => close
  | UpdateTargetRect => modify updateTargetRect
  | TriggerAction actionName data => triggerAction actionName data
  | Emit ev data => emit ev data
  | Subscribe ev hid throws => modify (on ev (HostHandler hid throws))
  | Unsubscribe ev hid throws => modify (off ev (HostHandler hid throws))
  | ResetCompletion tutorialId => modify (resetCompletion tutorialId)
  | AdvanceTime dt => modify (advanceTimersByTime dt)
  | Render page height y => modify (fun w => set_window height y (set_document page w))
  end.

(** The world an operation leaves behind, whether it returned or threw. *)
Definition after (op : Op) (w : World) : World := (perform op w).1.

(** Operations each of which is awaited before the next. *)
Definition run (ops : list Op) (w : World) : World :=
  fold_left (fun w op => after op w) ops w.

(** A freshly loaded page: [useTutorial()] has just been called, nobody has
    subscribed, no timer is pending. *)
Definition freshWorld (storage : gmap string string) (page : gmap string DOMRect)
    (height y : Q) : World :=
  {| config := None; currentStepIndex := -1; isActive := false;
     isWaitingForAction := false; targetRect := None; currentActionHandler := None;
     eventBus := ∅; localStorage := storage; console := []; document := page;
     innerHeight := height; scrollY := y; now := 0; timers := [];
     closures := 0; trace := [] |}.

Definition blankWorld : World := freshWorld ∅ ∅ 768 0.

(** ** Calls that overlap *)

(** [goToStep] is an [async] function: a call runs up to its first [await]
    and hands a promise back; it goes on when what it awaits has settled,
    and what the host, a timer or another call does meanwhile happens in
    between.  What is left to run of a call stopped at an [await] is a
    [Continuation]; it holds the [index] and the [step] of the call, which
    are local constants of the function.  [start], [next], [previous] and
    [skipTo] do nothing after the [goToStep] they await, so that a call of
    theirs is left with the continuation of its [goToStep]. *)
Inductive Continuation :=
| AfterExit (index : Z) (step : TutorialStep)
| AfterTick (index : Z) (step : TutorialStep)
| AfterEnter (index : Z) (step : TutorialStep).

Definition continuationIndex (k : Continuation) : Z :=
  match k with
  | AfterExit index _ | AfterTick index _ | AfterEnter index _ => index
  end.

(** From the end of [await step.onEnter()] to the end of [goToStep]. *)
Definition goToStep_afterEnter (index : Z) (step : TutorialStep) : M (option Continuation) :=
  modify (waitIfNeeded step) ;;
  emit "tutorial:step-change" (StepChange step index) ;;
  mret None.

(** From the end of [await nextTick()] to [await step.onEnter()], or to the
    end when the step has no [onEnter]. *)
Definition goToStep_afterTick (index : Z) (step : TutorialStep) : M (option Continuation) :=
  modify updateTargetRect ;;
  modify (scrollToStep step) ;;
  match onEnter step with
  | Some cb => invoke OnEnter (Some cb) ;; mret (Some (AfterEnter index step))
  | None => goToStep_afterEnter index step
  end.

(** The two assignments before [await nextTick()]. *)
Definition goToStep_afterExit (index : Z) (step : TutorialStep) : M (option Continuation) :=
  modify (set_currentStepIndex index) ;;
  modify (set_isWaitingForAction false) ;;
  mret (Some (AfterTick index step)).

(** A call of [goToStep], up to its first [await]: [await onExit()] when the
    current step has an [onExit], else [await nextTick()]. *)
Definition goToStep_begin (index : Z) : M (option Continuation) :=
  c ← gets config ;
  match c with
  | None => mret None
  | Some c =>
      match stepAt c index with
      | None => mret None
      | Some step =>
          modify cleanupActionListener ;;
          current ← gets currentStep ;
          match current ≫= onExit with
          | Some cb => invoke OnExit (Some cb) ;; mret (Some (AfterExit index step))
          | None => goToStep_afterExit index step
          end
      end
  end.

(** A stopped call goes on, up to its next [await] or to its end. *)
Definition resume (k : Continuation) : M (option Continuation) :=
  match k with
  | AfterExit index step => goToStep_afterExit index step
  | AfterTick index step => goToStep_afterTick index step
  | AfterEnter index step => goToStep_afterEnter index step
  end.

Definition start_begin (tutorialConfig : TutorialConfig) : M (option Continuation) :=
  modify (set_config (Some tutorialConfig)) ;;
  modify (set_currentStepIndex 0) ;;
  modify (set_isActive true) ;;
  completed ← gets (fun w => localStorage w !! completedKey (config_id tutorialConfig)) ;
  (if decide (completed = Some "true")
   then modify (consoleLog ("[Tutorial] " +:+ quote +:+ config_id tutorialConfig
                              +:+ quote +:+ " already completed"))
   else mret tt) ;;
  emit "tutorial:start" NoData ;;
  goToStep_begin 0.

Definition next_begin : M (option Continuation) := fun w =>
  if canGoNext w then goToStep_begin (currentStepIndex w + 1) w else (w, Ok None).

Definition previous_begin : M (option Continuation) := fun w =>
  if canGoPrevious w then goToStep_begin (currentStepIndex w - 1) w else (w, Ok None).

Definition skipTo_begin (stepId : string) : M (option Continuation) :=
  c ← gets config ;
  match c with
  | None => mret None
  | Some c =>
      let index := findIndex (fun s => bool_decide (step_id s = stepId)) (steps c) in
      if decide (index >= 0) then goToStep_begin index else mret None
  end.

(** The call of an operation, up to its first [await]; the operations that
    are not [async] run to their end. *)
Definition begin (op : Op) : M (option Continuation) :=
  match op with
  | Start c => start_begin c
  | Next => next_begin
  | Previous => previous_begin
  | GoToStep index => goToStep_begin index
  | SkipTo stepId => skipTo_begin stepId
  | _ => perform op ;; mret None
  end.

(** One engine and the calls of it that are stopped at an [await]. *)
Definition Engine : Type := World * list Continuation.

(** What can happen next: the host or the browser calls an operation; a
    stopped call goes on; the promise of the callback that a stopped call
    awaits is rejected, which ends the call. *)
Inductive Move :=
| Call (op : Op)
| Resume (n : nat)
| Reject (n : nat).

(** The call has stopped at an [await], has returned or has thrown. *)
Definition suspend (r : World * Result (option Continuation))
    (pending : list Continuation) : Engine :=
  match r.2 with
  | Ok (Some k) => (r.1, pending ++ [k])
  | _ => (r.1, pending)
  end.

Definition move (m : Move) (s : Engine) : Engine :=
  match m with
  | Call op => suspend (begin op s.1) s.2
  | Resume n =>
      match s.2 !! n with
      | Some k => suspend (resume k s.1) (delete n s.2)
      | None => s
      end
  | Reject n =>
      match s.2 !! n with
      | Some (AfterExit _ _) | Some (AfterEnter _ _) => (s.1, delete n s.2)
      | _ => s
      end
  end.

Definition play (moves : list Move) (s : Engine) : Engine :=
  fold_left (fun s m => move m s) moves s.

(** The moves of a host that awaits each call before the next one. *)
Definition inTurn (ops : list Op) : list Move :=
  flat_map (fun op => [Call op; Resume 0; Resume 0; Resume 0]%nat) ops.

(** The states of one engine at any moment after the page has loaded:
    calls may overlap, and a stopped call may go on at any later moment. *)
Definition reachable (w : World) : Prop :=
  exists storage page height y moves,
    w = (play moves (freshWorld storage page height y, [])).1.

(** The calls that install or drop a configuration. *)
Definition reconfigures (op : Op) : bool :=
  match op with
  | Start _ | Complete | Close => true
  | _ => false
  end.

(** A move that does not install or drop a configuration under a call that
    is still stopped. *)
Definition unhurried (m : Move) (pending : list Continuation) : bool :=
  match m, pending with
  | Call op, _ :: _ => negb (reconfigures op)
  | _, _ => true
  end.

Fixpoint awaited (moves : list Move) (s : Engine) : bool :=
  match moves with
  | [] => true
  | m :: rest => unhurried m s.2 && awaited rest (move m s)
  end.

(** The states of an engine whose host calls [start], [complete] and
    [close] only when every earlier call of [start], [goToStep], [next],
    [previous] and [skipTo] has settled. *)
Definition orderly (w : World) : Prop :=
  exists storage page height y moves,
    awaited moves (freshWorld storage page height y, []) = true /\
    w = (play moves (freshWorld storage page height y, [])).1.

(** The operations that neither start a tour, nor move through it, nor
    end it. *)
Definition bystander (op : Op) : bool :=
  match op with
  | Start _ | Next | Previous | GoToStep _ | SkipTo _ | Complete | Close => false
  | _ => true
  end.


(** ** Reading a trace *)

Definition emitted (ev : string) (tr : list TraceEvent) : bool :=
  existsb (fun e => match e with
                    | Emitted ev' _ => bool_decide (ev' = ev)
                    | _ => false
                    end) tr.

Definition called (role : CallbackRole) (tr : list TraceEvent) : bool :=
  existsb (fun e => match e, role with
                    | CallbackInvoked OnEnter _, OnEnter
                    | CallbackInvoked OnExit _, OnExit
                    | CallbackInvoked OnComplete _, OnComplete
                    | CallbackInvoked OnClose _, OnClose => true
                    | _, _ => false
                    end) tr.

Definition invoked (h : Handler) (tr : list TraceEvent) : bool :=
  existsb (fun e => match e with
                    | HandlerInvoked h' _ => bool_decide (h' = h)
                    | _ => false
                    end) tr.

(** Events that are no part of the teardown of [close]. *)
Definition teardownFree (e : TraceEvent) : Prop :=
  match e with
  | Emitted ev _ => ev <> "tutorial:close"
  | CallbackInvoked OnClose _ => False
  | _ => True
  end.

(** ** Subscribers, timers and states of interest *)

Definition isHost (h : Handler) : Prop :=
  match h with
  | HostHandler _ _ => True
  | ActionHandler _ _ => False
  end.

(** Host functions that return. *)
Definition quiet (h : Handler) : Prop :=
  match h with
  | HostHandler _ None => True
  | _ => False
  end.

(** Every subscriber of [ev] satisfies [P]. *)
Definition subscribers (P : Handler -> Prop) (ev : string) (w : World) : Prop :=
  forall hs, eventBus w !! ev = Some hs -> Forall P hs.

(** Only host functions listen to [ev]. *)
Definition hostsOnly (ev : string) (w : World) : Prop := subscribers isHost ev w.

(** Only host functions that return listen to [ev]. *)
Definition quietOn (ev : string) (w : World) : Prop := subscribers quiet ev w.

Definition isActionTimeout (t : Z * TimerCallback) : bool :=
  match t.2 with
  | ActionTimeout _ _ => true
  | UpdateRectTimer => false
  end.

(** No fallback of a waiting step is pending. *)
Definition noFallbackPending (w : World) : Prop :=
  Forall (fun t => isActionTimeout t = false) (timers w).

(** The values the cells have when no tour is active. *)
Definition idle (w : World) : Prop :=
  isActive w = false /\ currentStepIndex w = -1 /\ currentStep w = None /\
  targetRect w = None /\ isWaitingForAction w = false.

(** With no configuration, the other cells have their initial values. *)
Definition restful (w : World) : Prop :=
  config w = None ->
  isActive w = false /\ currentStepIndex w = -1 /\ targetRect w = None /\
  isWaitingForAction w = false.

(** Operations that neither publish nor move to a step nor end the tour
    ([next] is refused while the gate is up). *)
Definition passive (op : Op) : Prop :=
  match op with
  | Next | UpdateTargetRect | Subscribe _ _ _ | Unsubscribe _ _ _
  | ResetCompletion _ | AdvanceTime _ | Render _ _ _ => True
  | _ => False
  end.

(** ** Relations between the world before and after

    [preserves R m]: whatever [m] does, and whether it returns or throws,
    the world it leaves is related by [R] to the one it started from. *)

Definition preserves {A : Type} (R : relation World) (m : M A) : Prop :=
  forall w, R w (m w).1.

Definition sameOn {A : Type} (f : World -> A) : relation World :=
  fun w w' => f w' = f w.

(** The trace only grows, by events that satisfy [P]. *)
Definition extends (P : TraceEvent -> Prop) : relation World :=
  fun w w' => exists new, trace w' = (trace w ++ new)%list /\ Forall P new.

(** Once the waiting flag is down it stays down. *)
Definition lowered : relation World :=
  fun w w' => isWaitingForAction w = false -> isWaitingForAction w' = false.

(** What publishing cannot disturb. *)
Definition calm : relation World :=
  fun w w' =>
    config w' = config w /\ isActive w' = isActive w /\
    currentStepIndex w' = currentStepIndex w /\ targetRect w' = targetRect w /\
    lowered w w'.

(** A completion record, once written, is still there. *)
Definition stored (k : string) : relation World :=
  fun w w' =>
    localStorage w !! completedKey k = Some "true" ->
    localStorage w' !! completedKey k = Some "true".

(** Two worlds are alike when they differ at most in what localStorage
    holds and in what was printed on the console. *)
Definition forget (w : World) : World :=
  set_console [] (set_localStorage ∅ w).

Definition alike (w1 w2 : World) : Prop := forget w1 = forget w2.

(** Two computations that cannot tell alike worlds apart: they end in the
    same way, in worlds that are alike again. *)
Definition agree {A : Type} (m1 m2 : M A) : Prop :=
  forall w1 w2, alike w1 w2 -> alike (m1 w1).1 (m2 w2).1 /\ (m1 w1).2 = (m2 w2).2.

(** ** Sample tours *)

Definition plainStep (name : string) : TutorialStep :=
  {| step_id := name; target := None; title := name; description := "d";
     placement := None; blockInteractions := None; waitForAction := None;
     allowSkipTo := None; onEnter := None; onExit := None; popoverClass := None |}.

Definition waitingStep (name ev : string) (t : option Z) : TutorialStep :=
  {| step_id := name; target := None; title := name; description := "d";
     placement := None; blockInteractions := None;
     waitForAction := Some {| event := ev; wait_target := None; timeout := t |};
     allowSkipTo := None; onEnter := None; onExit := None; popoverClass := None |}.

Definition tour (name : string) (ss : list TutorialStep) : TutorialConfig :=
  {| steps := ss; config_id := name; showProgress := None; allowClose := None;
     onComplete := None; onClose := None; theme := None |}.

Definition hook (name : string) : Callback :=
  {| cb_name := name; cb_throws := None |}.

(** A tour with an [onClose] callback. *)
Definition tourA : TutorialConfig :=
  {| steps := [plainStep "a1"; plainStep "a2"]; config_id := "A"; showProgress := None;
     allowClose := None; onComplete := None; onClose := Some (hook "A.onClose");
     theme := None |}.

Definition tourB : TutorialConfig := tour "B" [plainStep "b1"].

(** A step with both callbacks. *)
Definition hookedStep : TutorialStep :=
  {| step_id := "first"; target := None; title := "First"; description := "d";
     placement := None; blockInteractions := None; waitForAction := None;
     allowSkipTo := None; onEnter := Some (hook "first.onEnter");
     onExit := Some (hook "first.onExit"); popoverClass := None |}.

(** A timed gate followed by an untimed one. *)
Definition twoGates : TutorialConfig :=
  tour "gates" [waitingStep "a" "x" (Some 1000); waitingStep "b" "e" None].

(** A timed gate followed by a gate with [timeout: 0]. *)
Definition timedThenZero : TutorialConfig :=
  tour "gates0" [waitingStep "a" "x" (Some 1000); waitingStep "b" "e" (Some 0)].

(** A tour whose second step waits, with a timeout. *)
Definition timedTour : TutorialConfig :=
  tour "timed" [plainStep "intro"; waitingStep "act" "clicked" (Some 1000)].

(** A tour whose second step waits with [timeout: 0]. *)
Definition zeroTour : TutorialConfig :=
  tour "zero" [plainStep "intro"; waitingStep "act" "clicked" (Some 0)].


(** ** The components

    [Tutorial.vue] mounts the overlay and the popover on the engine that
    [getTutorial()] returns, and [TutorialPopover.vue] places the popover
    next to the target.  What the components read from the window and from
    their own element is an argument of the function here. *)

(** [handleOverlayClick] of [Tutorial.vue]; [props_config] is the [config]
    prop of the component. *)
Definition handleOverlayClick (props_config : option TutorialConfig) : M unit := fun w =>
  if isWaitingForAction w then (w, Ok tt)
  else
    if negb (default false (currentStep w ≫= blockInteractions))
       && negb (bool_decide (props_config ≫= allowClose = Some false))
    then close w
    else (w, Ok tt).

Inductive Length :=
| Percent (q : Q)
| Px (q : Q).

(** ['translate(-50%, -50%)'], ['translateX(-50%)'], ['translateY(-50%)']. *)
Inductive Transform := TranslateBoth | TranslateX | TranslateY.

Record Style := {
  style_top : Length;
  style_left : Length;
  style_transform : Transform
}.

(** What [popoverStyle] reads from the popover element. *)
Record PopoverElement := {
  offsetWidth : Z;
  offsetHeight : Z
}.

(** [x || d] on a number that may be missing. *)
Definition orElse (x : option Z) (d : Z) : Q :=
  match x with
  | None | Some 0 => inject_Z d
  | Some v => inject_Z v
  end.

Definition centred : Style :=
  {| style_top := Percent 50; style_left := Percent 50; style_transform := TranslateBoth |}.

Definition popoverStyle (targetRect : option DOMRect) (placement : Placement)
    (popover : option PopoverElement) (viewportWidth viewportHeight : Q) : Style :=
  match targetRect with
  | None => centred
  | Some target =>
      let spacing := 16%Q in
      let margin := 16%Q in
      let popoverHeight := orElse (offsetHeight <$> popover) 200 in
      let popoverWidth := orElse (offsetWidth <$> popover) 400 in
      let placed :=
        match placement with
        | Top =>
            let left_ := (rect_left target + rect_width target / 2)%Q in
            let top_ := (rect_top target - popoverHeight - spacing)%Q in
            Some (if Qltb top_ margin then (rect_bottom target + spacing)%Q else top_,
                  left_, TranslateX)
        | Bottom =>
            let left_ := (rect_left target + rect_width target / 2)%Q in
            let top_ := (rect_bottom target + spacing)%Q in
            Some (if Qltb (viewportHeight - margin) (top_ + popoverHeight)
                  then (rect_top target - popoverHeight - spacing)%Q else top_,
                  left_, TranslateX)
        | Left =>
            let left_ := (rect_left target - popoverWidth - spacing)%Q in
            let top_ := (rect_top target + rect_height target / 2)%Q in
            Some (top_,
                  if Qltb left_ margin then (rect_right target + spacing)%Q else left_,
                  TranslateY)
        | Right =>
            let left_ := (rect_right target + spacing)%Q in
            let top_ := (rect_top target + rect_height target / 2)%Q in
            Some (top_,
                  if Qltb (viewportWidth - margin) (left_ + popoverWidth)
                  then (rect_left target - popoverWidth - spacing)%Q else left_,
                  TranslateY)
        | Center => None
        end in
      match placed with
      | None => centred
      | Some (top_, left_, transform) =>
          let left_ :=
            match transform with
            | TranslateX =>
                let halfWidth := (popoverWidth / 2)%Q in
                if Qltb (left_ - halfWidth) margin then (margin + halfWidth)%Q
                else if Qltb (viewportWidth - margin) (left_ + halfWidth)
                     then (viewportWidth - margin - halfWidth)%Q
                     else left_
            | _ => left_
            end in
          let top_ :=
            match transform with
            | TranslateY =>
                let halfHeight := (popoverHeight / 2)%Q in
                if Qltb (top_ - halfHeight) margin then (margin + halfHeight)%Q
                else if Qltb (viewportHeight - margin) (top_ + halfHeight)
                     then (viewportHeight - margin - halfHeight)%Q
                     else top_
            | _ => top_
            end in
          {| style_top := Px top_; style_left := Px left_; style_transform := transform |}
      end
  end.

(** [scrollToPopoverIfNeeded]: where the page is asked to scroll to, given
    the bounding box of the popover. *)
Definition popoverScrollTarget (popoverRect : DOMRect) (w : World) : option Q :=
  let viewportHeight := innerHeight w in
  let margin := 20%Q in
  if Qltb (rect_top popoverRect) margin
  then Some (scrollY w + rect_top popoverRect - margin)%Q
  else if Qltb (viewportHeight - margin) (rect_bottom popoverRect)
       then Some (scrollY w + (rect_bottom popoverRect - viewportHeight + margin))%Q
       else None.

Definition scrollToPopoverIfNeeded (popoverRef : option DOMRect) (w : World) : World :=
  match popoverRef with
  | None => w
  | Some popoverRect =>
      match popoverScrollTarget popoverRect w with
      | Some targetScrollY => observe (ScrollTo targetScrollY) w
      | None => w
      end
  end.

(** [String.prototype.split] on a separator of one character. *)
Fixpoint split (sep : ascii) (s : string) : list string :=
  match s with
  | "" => [""]
  | String c rest =>
      if decide (c = sep) then "" :: split sep rest
      else match split sep rest with
           | word :: words => String c word :: words
           | [] => [String c ""]
           end
  end.

(** [toUpperCase] on one character of an ASCII identifier. *)
Definition toUpperCase (c : ascii) : ascii :=
  let n := nat_of_ascii c in
  if ((97 <=? n) && (n <=? 122))%nat then ascii_of_nat (n - 32) else c.

(** [word.charAt(0).toUpperCase() + word.slice(1)] *)
Definition capitalize (word : string) : string :=
  match word with
  | "" => ""
  | String c rest => String (toUpperCase c) rest
  end.

(** [Array.prototype.join] *)
Fixpoint join (sep : string) (words : list string) : string :=
  match words with
  | [] => ""
  | word :: rest =>
      match rest with
      | [] => word
      | _ => word +:+ sep +:+ join sep rest
      end
  end.

Definition getSkipLabel (stepId : string) : string :=
  join " " (map capitalize (split "-"%char stepId)).

(** ** The page under a scroll

    Bounding boxes are relative to the viewport: when the page has scrolled
    down by [d] pixels, a box that stays where it is in the page sits [d]
    pixels higher in the viewport. *)
Definition scrolledBy (d : Q) (rect : DOMRect) : DOMRect :=
  {| rect_top := rect_top rect - d; rect_bottom := rect_bottom rect - d;
     rect_left := rect_left rect; rect_right := rect_right rect;
     rect_width := rect_width rect; rect_height := rect_height rect |}.

(** ** The box of the popover

    [.tutorial-popover] is [position: fixed] and carries the style that
    [popoverStyle] computes: [top] and [left] are measured from the
    viewport, whatever the page has scrolled by, and the transform shifts
    the box by half its size.  This is the box that
    [getBoundingClientRect] returns on a viewport wider than 640 pixels;
    on a narrower one the style sheet overrides [left] and the transform. *)
Definition lengthIn (whole : Q) (l : Length) : Q :=
  match l with
  | Px q => q
  | Percent p => (p / 100 * whole)%Q
  end.

Definition popoverBox (style : Style) (popover : PopoverElement)
    (viewportWidth viewportHeight : Q) : DOMRect :=
  let width := inject_Z (offsetWidth popover) in
  let height := inject_Z (offsetHeight popover) in
  let top_ :=
    match style_transform style with
    | TranslateX => lengthIn viewportHeight (style_top style)
    | TranslateY | TranslateBoth =>
        (lengthIn viewportHeight (style_top style) - height / 2)%Q
    end in
  let left_ :=
    match style_transform style with
    | TranslateY => lengthIn viewportWidth (style_left style)
    | TranslateX | TranslateBoth =>
        (lengthIn viewportWidth (style_left style) - width / 2)%Q
    end in
  {| rect_top := top_; rect_bottom := (top_ + height)%Q;
     rect_left := left_; rect_right := (left_ + width)%Q;
     rect_width := width; rect_height := height |}.

(** ** More states of interest *)

(** [h] is in the set of subscribers of [ev]. *)
Definition subscribed (ev : string) (h : Handler) (w : World) : Prop :=
  h ∈ default [] (eventBus w !! ev).

(** The index points into the steps of the configuration; it is [0] on a
    configuration without steps and [-1] without a configuration. *)
Definition inRange (w : World) : Prop :=
  match config w with
  | None => currentStepIndex w = -1 /\ isActive w = false
  | Some c =>
      isActive w = true /\
      (currentStepIndex w = 0 \/
       0 <= currentStepIndex w < Z.of_nat (length (steps c)))
  end.

(** The configuration and the activity flag are kept, and the index is
    kept or becomes [i]. *)
Definition toward (i : Z) : relation World :=
  fun w w' =>
    config w' = config w /\ isActive w' = isActive w /\
    (currentStepIndex w' = currentStepIndex w \/ currentStepIndex w' = i).

(** The call stopped at [k] is on its way to a step of the configuration. *)
Definition withinTour (w : World) (k : Continuation) : Prop :=
  exists c, config w = Some c /\
            0 <= continuationIndex k < Z.of_nat (length (steps c)).

(** The cells that tell where the engine is in which tour. *)
Definition position (w : World) : option TutorialConfig * bool * Z :=
  (config w, isActive w, currentStepIndex w).

(** The state of an engine together with its stopped calls: the index is
    within the tour, and so is the step that each stopped call is on its way
    to. *)
Definition sound (s : Engine) : Prop := inRange s.1 /\ Forall (withinTour s.1) s.2.


(** Nobody has been subscribed and the reference to the action handler,
    once dropped, is still dropped. *)
Definition quieter : relation World :=
  fun w w' =>
    (forall ev h, subscribed ev h w' -> subscribed ev h w) /\
    (currentActionHandler w = None -> currentActionHandler w' = None).

(** The calls that move through a tour or end it. *)
Definition navigation (op : Op) : Prop :=
  match op with
  | Next | Previous | GoToStep _ | SkipTo _ | Complete | Close => True
  | _ => False
  end.

(** Characters of an identifier in ASCII. *)
Definition isAscii (s : string) : Prop :=
  Forall (fun c => (nat_of_ascii c < 128)%nat) (list_ascii_of_string s).

Definition hyphenFree (s : string) : Prop :=
  Forall (fun c => c <> "-"%char) (list_ascii_of_string s).

(** ** More sample tours *)

(** A tour with an [onComplete] callback that throws. *)
Definition stubbornComplete : TutorialConfig :=
  {| steps := [plainStep "s"]; config_id := "stubborn"; showProgress := None;
     allowClose := None;
     onComplete := Some {| cb_name := "onComplete"; cb_throws := Some "no" |};
     onClose := None; theme := None |}.

(** An element near the bottom of a page taller than the window. *)
Definition lowBox : DOMRect :=
  {| rect_top := 900; rect_bottom := 1000; rect_left := 100; rect_right := 300;
     rect_width := 200; rect_height := 100 |}.

(** A step that waits and has an [onExit] that throws, and a tour that
    passes through it. *)
Definition exitThorn : TutorialStep :=
  {| step_id := "a"; target := None; title := "a"; description := "d";
     placement := None; blockInteractions := None;
     waitForAction := Some {| event := "x"; wait_target := None; timeout := None |};
     allowSkipTo := None; onEnter := None;
     onExit := Some {| cb_name := "a.onExit"; cb_throws := Some "no" |};
     popoverClass := None |}.

Definition thornyExit : TutorialConfig :=
  tour "thorny" [plainStep "intro"; exitThorn; plainStep "b"].

(** A tour whose only step waits for an action, and a tour of three steps
    the first of which has callbacks. *)
Definition gatedTour : TutorialConfig := tour "gated" [waitingStep "g" "go" None].

Definition hookedTour : TutorialConfig :=
  tour "hooked" [hookedStep; plainStep "b"; plainStep "c"].

(** A target near the top of the window, and a popover of the default size. *)
Definition highBox : DOMRect :=
  {| rect_top := 20; rect_bottom := 60; rect_left := 600; rect_right := 800;
     rect_width := 200; rect_height := 40 |}.

Definition defaultPopover : PopoverElement := {| offsetWidth := 400; offsetHeight := 200 |}.

(** * Reasoning about the engine *)

#[global] Instance sameOn_preorder {A : Type} (f : World -> A) : PreOrder (sameOn f).
Proof.
  split.
  - intros w. reflexivity.
  - intros a b c Hab Hbc. unfold sameOn in *. congruence.
Qed.

Section Preserves.
Context (R : relation World) `{!PreOrder R}.

Lemma preserves_ret {A : Type} (a : A) : preserves R (mret a).
Proof. intros w. reflexivity. Qed.

Lemma preserves_throw {A : Type} (e : Error) : preserves R (throw (A := A) e).
Proof. intros w. reflexivity. Qed.

Lemma preserves_gets {A : Type} (f : World -> A) : preserves R (gets f).
Proof. intros w. reflexivity. Qed.

Lemma preserves_modify (f : World -> World) :
  (forall w, R w (f w)) -> preserves R (modify f).
Proof. intros H w. apply H. Qed.

Lemma preserves_bind {A B : Type} (m : M A) (k : A -> M B) :
  preserves R m -> (forall a, preserves R (k a)) -> preserves R (m ≫= k).
Proof.
  intros Hm Hk w. unfold mbind, M_bind.
  specialize (Hm w). destruct (m w) as [w' [a|e]]; simpl in *.
  - etransitivity; [exact Hm | apply Hk].
  - exact Hm.
Qed.

Lemma preserves_forEach (call : Handler -> M unit) (ev : string) (hs : list Handler) :
  (forall h, preserves R (call h)) -> preserves R (forEach call ev hs).
Proof.
  intros Hcall. induction hs as [|h rest IH]; simpl.
  - apply preserves_ret.
  - intros w. destruct (eventBus w !! ev) as [live|]; [destruct (bool_decide (h ∈ live))|].
    + apply (preserves_bind (call h) (fun _ => forEach call ev rest)); auto.
    + apply IH.
    + apply IH.
Qed.

Lemma preserves_invoke (role : CallbackRole) (f : option Callback) :
  (forall cb w, R w (observe (CallbackInvoked role cb) w)) ->
  preserves R (invoke role f).
Proof.
  intros H. destruct f as [cb|]; simpl; [|apply preserves_ret].
  apply preserves_bind; [apply preserves_modify, H|intros _].
  destruct (cb_throws cb); [apply preserves_throw | apply preserves_ret].
Qed.

(** What publishing can touch: the trace, the waiting flag, the bus and
    the reference to the current action handler. *)
Hypothesis R_invoked : forall h d w, R w (observe (HandlerInvoked h d) w).
Hypothesis R_completed :
  forall e w, R w (observe (Emitted "tutorial:action-completed" (ActionCompleted e)) w).
Hypothesis R_lower : forall w, R w (set_isWaitingForAction false w).
Hypothesis R_off : forall e h w, R w (off e h w).
Hypothesis R_forget : forall w, R w (set_currentActionHandler None w).

Lemma preserves_emit_depth (d : nat) : forall (ev : string) (data : Payload),
  (forall w, R w (observe (Emitted ev data) w)) ->
  preserves R (emit_depth d ev data).
Proof.
  induction d as [|d IH]; intros ev data Hev; simpl.
  - apply preserves_throw.
  - apply preserves_bind; [apply preserves_modify, Hev|intros _].
    apply preserves_bind; [apply preserves_gets|intros [hs|]]; [|apply preserves_ret].
    apply preserves_forEach. intros h. unfold handlerBody.
    apply preserves_bind; [apply preserves_modify, R_invoked|intros _].
    destruct h as [hid [msg|]|hid name].
    + apply preserves_throw.
    + apply preserves_ret.
    + apply preserves_bind; [apply preserves_modify, R_lower|intros _].
      apply preserves_bind; [apply IH, R_completed|intros _].
      apply preserves_bind; [apply preserves_modify, R_off|intros _].
      apply preserves_modify, R_forget.
Qed.

Lemma preserves_emit (ev : string) (data : Payload) :
  (forall w, R w (observe (Emitted ev data) w)) -> preserves R (emit ev data).
Proof. apply preserves_emit_depth. Qed.
End Preserves.

Ltac preserves_step :=
  lazymatch goal with
  | |- PreOrder _ => first [assumption | apply _]
  | |- forall _, _ => intro
  | |- preserves _ (emit _ _) => apply preserves_emit
  | |- preserves _ (invoke _ _) => apply preserves_invoke
  | |- preserves _ (mret _) => apply preserves_ret
  | |- preserves _ (throw _) => apply preserves_throw
  | |- preserves _ (gets _) => apply preserves_gets
  | |- preserves _ (modify _) => apply preserves_modify
  | |- preserves _ (mbind _ _) => apply preserves_bind
  | |- preserves _ (match ?x with _ => _ end) => destruct x
  end.

Ltac preserves_tac := repeat preserves_step; auto.

Ltac differ := solve [discriminate | congruence].


(** The same discipline for the whole engine: [R] is assumed of each
    elementary update, and follows for every operation built from them.
    Each lemma depends only on the assumptions about the updates that the
    operation performs. *)
Section Footprint.
Context (R : relation World) `{!PreOrder R}.

Hypothesis R_invoked : forall h d w, R w (observe (HandlerInvoked h d) w).
Hypothesis R_emitted : forall ev d w,
  ev <> "tutorial:close" -> R w (observe (Emitted ev d) w).
Hypothesis R_closing : forall d w, R w (observe (Emitted "tutorial:close" d) w).
Hypothesis R_called : forall role cb w,
  role <> OnClose -> R w (observe (CallbackInvoked role cb) w).
Hypothesis R_closed : forall cb w, R w (observe (CallbackInvoked OnClose cb) w).
Hypothesis R_lower : forall w, R w (set_isWaitingForAction false w).
Hypothesis R_off : forall e h w, R w (off e h w).
Hypothesis R_on : forall e h w, R w (on e h w).
Hypothesis R_forget : forall w, R w (set_currentActionHandler None w).
Hypothesis R_index : forall i w, R w (set_currentStepIndex i w).
Hypothesis R_update : forall w, R w (updateTargetRect w).
Hypothesis R_scroll : forall step w, R w (scrollToStep step w).
Hypothesis R_wait : forall step w, R w (waitIfNeeded step w).
Hypothesis R_reset : forall w, R w (resetState w).
Hypothesis R_store : forall k w,
  R w (set_localStorage (<[completedKey k := "true"]> (localStorage w)) w).
Hypothesis R_config : forall c w, R w (set_config (Some c) w).
Hypothesis R_active : forall w, R w (set_isActive true w).
Hypothesis R_log : forall line w, R w (consoleLog line w).
Hypothesis R_time : forall dt w, R w (advanceTimersByTime dt w).
Hypothesis R_render : forall page height y w, R w (set_window height y (set_document page w)).

Lemma R_cleanup (w : World) : R w (cleanupActionListener w).
Proof.
  unfold cleanupActionListener. destruct (currentActionHandler w) as [[ev h]|].
  - etransitivity; [apply R_off | apply R_forget].
  - reflexivity.
Qed.

Lemma emit_preserves (ev : string) (data : Payload) :
  ev <> "tutorial:close" -> preserves R (emit ev data).
Proof. intros Hev. preserves_tac; apply R_emitted; differ. Qed.

Lemma emit_close_preserves (data : Payload) : preserves R (emit "tutorial:close" data).
Proof. preserves_tac; apply R_emitted; differ. Qed.

Lemma transition_preserves (index : Z) (step : TutorialStep) :
  preserves R (transition index step).
Proof.
  unfold transition. preserves_tac; auto using R_cleanup; apply R_called; differ.
Qed.

Lemma goToStep_preserves (index : Z) : preserves R (goToStep index).
Proof.
  unfold goToStep.
  repeat first [apply transition_preserves | preserves_step]; auto;
    apply R_emitted; differ.
Qed.

Lemma next_preserves : preserves R next.
Proof.
  intros w. unfold next. destruct (canGoNext w); [apply goToStep_preserves | reflexivity].
Qed.

Lemma previous_preserves : preserves R previous.
Proof.
  intros w. unfold previous.
  destruct (canGoPrevious w); [apply goToStep_preserves | reflexivity].
Qed.

Lemma skipTo_preserves (stepId : string) : preserves R (skipTo stepId).
Proof. unfold skipTo. preserves_tac; apply goToStep_preserves. Qed.

Lemma close_preserves : preserves R close.
Proof.
  unfold close. preserves_tac; auto using R_cleanup; apply R_emitted; differ.
Qed.

Lemma complete_preserves : preserves R complete.
Proof.
  unfold complete.
  repeat first [apply close_preserves | preserves_step]; auto;
    first [apply R_emitted | apply R_called]; differ.
Qed.

Lemma start_preserves (c : TutorialConfig) : preserves R (start c).
Proof.
  unfold start.
  repeat first [apply goToStep_preserves | preserves_step]; auto;
    apply R_emitted; differ.
Qed.

Lemma perform_preserves (op : Op) :
  (forall k, op = ResetCompletion k -> forall w, R w (resetCompletion k w)) ->
  preserves R (perform op).
Proof.
  intros Hop. destruct op; simpl;
    first
      [ apply start_preserves | apply next_preserves | apply previous_preserves
      | apply goToStep_preserves | apply skipTo_preserves | apply complete_preserves
      | apply close_preserves
      | apply preserves_modify; solve [auto]
      | match goal with
        | |- preserves _ (_ ?ev ?data) =>
            destruct (decide (ev = "tutorial:close")) as [->|];
            [apply emit_close_preserves | apply emit_preserves; assumption]
        end ].
Qed.
End Footprint.

(** ** Frames *)

Ltac frame :=
  intros; unfold sameOn;
  repeat first
    [ progress unfold runTimer, cleanupActionListener, off, on, updateTargetRect,
        scrollToStep, scrollElementIntoView, setTimeout, waitIfNeeded,
        setupActionListener, resetState, resetCompletion, consoleLog, observe
    | case_match ];
  reflexivity.

Lemma advance_preserves (R : relation World) `{!PreOrder R} :
  (forall v w, R w (set_now v w)) ->
  (forall v w, R w (set_timers v w)) ->
  (forall cb w, R w (runTimer cb w)) ->
  forall dt w, R w (advanceTimersByTime dt w).
Proof.
  intros Hnow Htimers Hrun dt w. unfold advanceTimersByTime.
  etransitivity; [|apply Hnow].
  etransitivity; [apply (Htimers (filter (fun t => ~ t.1 <= now w + Z.max 0 dt) (timers w)))|].
  generalize (set_timers (filter (fun t => ~ t.1 <= now w + Z.max 0 dt) (timers w)) w).
  generalize (filter (fun t => t.1 <= now w + Z.max 0 dt) (timers w)).
  intros due. induction due as [|t due IH]; intros w0; simpl.
  - reflexivity.
  - etransitivity; [|apply IH].
    etransitivity; [apply (Hnow t.1)|apply Hrun].
Qed.

(** Publishing leaves alone whatever does not depend on the trace, the
    waiting flag, the bus and the reference to the action handler. *)
Lemma emit_depth_same {A : Type} (f : World -> A) :
  (forall v w, f (set_trace v w) = f w) ->
  (forall v w, f (set_isWaitingForAction v w) = f w) ->
  (forall v w, f (set_eventBus v w) = f w) ->
  (forall v w, f (set_currentActionHandler v w) = f w) ->
  forall d ev data w, f (emit_depth d ev data w).1 = f w.
Proof.
  intros Ht Hw Hb Hh d ev data.
  apply (preserves_emit_depth (sameOn f)); unfold sameOn; intros;
    unfold observe, off; repeat case_match; auto.
Qed.

Lemma emit_config ev data w : config (emit ev data w).1 = config w.
Proof. apply (emit_depth_same config); reflexivity. Qed.

Lemma emit_currentStepIndex ev data w :
  currentStepIndex (emit ev data w).1 = currentStepIndex w.
Proof. apply (emit_depth_same currentStepIndex); reflexivity. Qed.

Lemma emit_isActive ev data w : isActive (emit ev data w).1 = isActive w.
Proof. apply (emit_depth_same isActive); reflexivity. Qed.

Lemma emit_timers ev data w : timers (emit ev data w).1 = timers w.
Proof. apply (emit_depth_same timers); reflexivity. Qed.


Lemma goToStep_config index w : config (goToStep index w).1 = config w.
Proof. apply (goToStep_preserves (sameOn config)); frame. Qed.

Lemma goToStep_isActive index w : isActive (goToStep index w).1 = isActive w.
Proof. apply (goToStep_preserves (sameOn isActive)); frame. Qed.

Lemma goToStep_out_of_range index c w :
  config w = Some c -> stepAt c index = None -> goToStep index w = (w, Ok tt).
Proof.
  intros Hc Hs. unfold goToStep, mbind, M_bind, gets. simpl. rewrite Hc, Hs. reflexivity.
Qed.

(** ** Publishing *)

Lemma set_trace_same (w : World) : set_trace (trace w) w = w.
Proof. destruct w. reflexivity. Qed.

Lemma emit_depth_unfold (d : nat) (ev : string) (data : Payload) (w : World) :
  emit_depth (S d) ev data w =
    match eventBus w !! ev with
    | Some handlers =>
        forEach (handlerBody (emit_depth d) data) ev handlers (observe (Emitted ev data) w)
    | None => (observe (Emitted ev data) w, Ok tt)
    end.
Proof.
  simpl. unfold mbind, M_bind, modify, gets. simpl.
  destruct (eventBus w !! ev); reflexivity.
Qed.

(** Host functions that return are called one after the other. *)
Lemma forEach_quiet (publish : string -> Payload -> M unit) (data : Payload)
    (ev : string) (live rest : list Handler) (pre : list Handler) :
  forall w,
    eventBus w !! ev = Some live -> Forall quiet pre -> (forall h, h ∈ pre -> h ∈ live) ->
    forEach (handlerBody publish data) ev (pre ++ rest) w =
    forEach (handlerBody publish data) ev rest
      (set_trace (trace w ++ map (fun h => HandlerInvoked h data) pre) w).
Proof.
  induction pre as [|h pre IH]; intros w Hbus Hq Hin; simpl.
  - rewrite app_nil_r, set_trace_same. reflexivity.
  - rewrite Hbus. rewrite bool_decide_eq_true_2 by (apply Hin; left).
    inversion Hq as [|? ? Hh Hpre]; subst.
    destruct h as [hid [msg|]|hid name]; try contradiction.
    unfold mbind, M_bind, handlerBody, modify, mret, M_ret. simpl.
    rewrite IH; auto.
    + simpl. rewrite <- app_assoc. reflexivity.
    + intros h' Hh'. apply Hin. right. exact Hh'.
Qed.

Lemma emit_quiet (ev : string) (data : Payload) (w : World) :
  quietOn ev w -> (emit ev data w).2 = Ok tt.
Proof.
  intros Hq. unfold emit, callStackLimit. rewrite emit_depth_unfold.
  destruct (eventBus w !! ev) as [hs|] eqn:E; [|reflexivity].
  pose proof (forEach_quiet (emit_depth 255) data ev hs [] hs
                (observe (Emitted ev data) w) E (Hq hs E) (fun h H => H)) as F.
  rewrite app_nil_r in F. rewrite F. reflexivity.
Qed.

Lemma off_subscribers (P : Handler -> Prop) (ev e : string) (h : Handler) (w : World) :
  subscribers P ev w -> subscribers P ev (off e h w).
Proof.
  intros Hh hs. unfold off. destruct (eventBus w !! e) as [live|] eqn:E; [|apply Hh].
  simpl. destruct (decide (e = ev)) as [->|Hne].
  - rewrite lookup_insert_eq. intros [= <-]. unfold setDelete.
    apply Forall_forall. intros x Hx. apply list_elem_of_filter in Hx as [_ Hx].
    specialize (Hh live E). rewrite Forall_forall in Hh. apply Hh, Hx.
  - rewrite lookup_insert_ne by exact Hne. apply Hh.
Qed.

Lemma invoked_map (h : Handler) (data : Payload) (hs : list Handler) :
  h ∉ hs -> invoked h (map (fun h' => HandlerInvoked h' data) hs) = false.
Proof.
  unfold invoked. induction hs as [|h' hs IH]; intros Hn; simpl; [reflexivity|].
  rewrite bool_decide_eq_false_2.
  - apply IH. intros Hin. apply Hn. right. exact Hin.
  - intros ->. apply Hn. left.
Qed.

(** C6, as the code has it: [emit] calls the subscribers in registration
    order and has no handler around the calls.  When one of them throws,
    the subscribers registered before it have run, the exception reaches
    the caller of [emit], and the subscribers registered after it are not
    invoked. *)
Theorem emit_stops_at_first_throw (w : World) (ev : string) (data : Payload)
    (pre post : list Handler) (hid : nat) (msg : string) :
  eventBus w !! ev = Some (pre ++ HostHandler hid (Some msg) :: post) ->
  Forall quiet pre ->
  let thrower := HostHandler hid (Some msg) in
  let new := Emitted ev data
             :: map (fun h => HandlerInvoked h data) (pre ++ [thrower]) in
  emit ev data w = (set_trace (trace w ++ new) w, Throw (HostError msg)) /\
  forall h, h ∈ post -> h ∉ pre -> h <> thrower -> invoked h new = false.
Proof.
  intros Hbus Hq thrower new. split.
  - unfold emit, callStackLimit. rewrite emit_depth_unfold, Hbus.
    rewrite (forEach_quiet _ data ev (pre ++ thrower :: post)); auto.
    + simpl. rewrite Hbus.
      rewrite bool_decide_eq_true_2 by (apply elem_of_app; right; left).
      unfold mbind, M_bind, handlerBody, modify, throw. simpl.
      subst new. rewrite map_app. unfold observe, set_trace. simpl.
      do 2 f_equal. rewrite <- !app_assoc. reflexivity.
    + intros h Hh. apply elem_of_app. left. exact Hh.
  - intros h _ Hpre Hne. subst new. unfold invoked. simpl.
    apply invoked_map. intros Hin. apply elem_of_app in Hin as [Hin|Hin].
    + apply Hpre, Hin.
    + apply list_elem_of_singleton in Hin. apply Hne, Hin.
Qed.

Lemma emit_stops_at_first_throw_witness :
  eventBus (run [Subscribe "e" 1 None; Subscribe "e" 2 (Some "boom");
                 Subscribe "e" 3 None] blankWorld) !! "e"
    = Some ([HostHandler 1 None] ++ HostHandler 2 (Some "boom") :: [HostHandler 3 None]) /\
  Forall quiet [HostHandler 1 None] /\
  invoked (HostHandler 3 None)
    (Emitted "e" NoData
       :: map (fun h => HandlerInvoked h NoData)
            ([HostHandler 1 None] ++ [HostHandler 2 (Some "boom")])) = false.
Proof.
  split; [reflexivity|]. split; [repeat constructor|].
  apply (emit_stops_at_first_throw
           (run [Subscribe "e" 1 None; Subscribe "e" 2 (Some "boom");
                 Subscribe "e" 3 None] blankWorld)
           "e" NoData [HostHandler 1 None] [HostHandler 3 None] 2 "boom").
  - reflexivity.
  - repeat constructor.
  - apply list_elem_of_singleton. reflexivity.
  - intros H. apply list_elem_of_singleton in H. discriminate.
  - discriminate.
Defined.

(** C6 as stated fails: the first subscriber of ["e"] throws, and the
    second, still registered, is not invoked by [emit]. *)
Lemma throwing_handler_starves_later_ones :
  eventBus (run [Subscribe "e" 1 (Some "boom"); Subscribe "e" 2 None] blankWorld) !! "e"
    = Some [HostHandler 1 (Some "boom"); HostHandler 2 None] /\
  (emit "e" NoData
     (run [Subscribe "e" 1 (Some "boom"); Subscribe "e" 2 None] blankWorld)).2
    = Throw (HostError "boom") /\
  invoked (HostHandler 2 None)
    (trace (emit "e" NoData
              (run [Subscribe "e" 1 (Some "boom"); Subscribe "e" 2 None] blankWorld)).1)
    = false.
Proof. vm_compute. repeat split. Qed.

(** ** Starting a tour *)

Lemma start_unfold (c : TutorialConfig) (w : World) :
  exists w0,
    start c w =
      match emit "tutorial:start" NoData w0 with
      | (w1, Ok _) => goToStep 0 w1
      | (w1, Throw e) => (w1, Throw e)
      end /\
    config w0 = Some c /\ currentStepIndex w0 = 0 /\ isActive w0 = true /\
    trace w0 = trace w /\ eventBus w0 = eventBus w.
Proof.
  unfold start, mbind, M_bind, modify, gets, mret, M_ret. simpl.
  destruct (decide _); simpl; eexists; (split; [reflexivity|]); repeat split.
Qed.

#[global] Instance extends_preorder (P : TraceEvent -> Prop) : PreOrder (extends P).
Proof.
  split.
  - intros w. exists []. split; [symmetry; apply app_nil_r | constructor].
  - intros a b c (n1 & E1 & F1) (n2 & E2 & F2). exists (n1 ++ n2)%list. split.
    + rewrite E2, E1. symmetry. apply app_assoc.
    + apply Forall_app. split; assumption.
Qed.

Lemma extends_silent (P : TraceEvent -> Prop) (w w' : World) :
  trace w' = trace w -> extends P w w'.
Proof. intros E. exists []. split; [rewrite E; symmetry; apply app_nil_r | constructor]. Qed.

Lemma extends_observe (P : TraceEvent -> Prop) (e : TraceEvent) (w : World) :
  P e -> extends P w (observe e w).
Proof. intros He. exists [e]. split; [reflexivity | repeat constructor; exact He]. Qed.

Lemma extends_scroll (P : TraceEvent -> Prop) (step : TutorialStep) (w : World) :
  (forall y, P (ScrollTo y)) -> extends P w (scrollToStep step w).
Proof.
  intros Hy. unfold scrollToStep, scrollElementIntoView.
  repeat case_match; try reflexivity.
  exists [ScrollTo q]. split; [reflexivity | repeat constructor; apply Hy].
Qed.

Lemma teardownFree_reading (new : list TraceEvent) :
  Forall teardownFree new ->
  emitted "tutorial:close" new = false /\ called OnClose new = false.
Proof.
  induction 1 as [|e new He _ [IH1 IH2]]; [split; reflexivity|].
  unfold emitted, called in *. simpl. rewrite IH1, IH2.
  destruct e as [ev d|h d|[] cb|y]; simpl in *; try (split; reflexivity); try contradiction.
  rewrite bool_decide_eq_false_2 by exact He. split; reflexivity.
Qed.

Lemma start_begin_exact (c : TutorialConfig) (w : World) :
  exists w1,
    set_console (console w) w1
      = set_isActive true (set_currentStepIndex 0 (set_config (Some c) w)) /\
    start c w = (emit "tutorial:start" NoData ;; goToStep 0) w1 /\
    start_begin c w = (emit "tutorial:start" NoData ;; goToStep_begin 0) w1.
Proof.
  unfold start, start_begin.
  unfold mbind at 1 2 3 4 5 8 9 10 11 12, M_bind at 1 2 3 4 5 8 9 10 11 12, modify, gets.
  simpl.
  destruct (decide _); simpl; eexists; (split; [|split; reflexivity]); reflexivity.
Qed.

Lemma goToStep_begin_idle (index : Z) (w : World) :
  config w = None \/ (exists c, config w = Some c /\ stepAt c index = None) ->
  goToStep_begin index w = (w, Ok None).
Proof.
  unfold goToStep_begin, mbind, M_bind, gets. simpl.
  intros [Hc|(c & Hc & Hs)]; rewrite Hc; [reflexivity|]. rewrite Hs. reflexivity.
Qed.

(** What [emit] adds to the trace starts with the publication itself. *)
Lemma emit_trace (ev : string) (data : Payload) (w : World) :
  exists new, trace (emit ev data w).1 = trace w ++ Emitted ev data :: new.
Proof.
  unfold emit, callStackLimit. rewrite emit_depth_unfold.
  destruct (eventBus w !! ev) as [hs|]; [|exists []; reflexivity].
  assert (P : preserves (extends (fun _ => True))
                (forEach (handlerBody (emit_depth 255) data) ev hs)).
  { apply preserves_forEach; [apply _|]. intros h. unfold handlerBody.
    apply preserves_bind; [apply _ | apply preserves_modify | intros _].
    { intros x. apply extends_observe. exact I. }
    destruct h as [hid [msg|]|n name].
    - apply preserves_throw, _.
    - apply preserves_ret, _.
    - apply preserves_bind; [apply _ | apply preserves_modify | intros _].
      { intros x. apply extends_silent. reflexivity. }
      apply preserves_bind; [apply _ | | intros _].
      { apply preserves_emit_depth; try apply _; intros;
          first [ apply extends_observe; exact I
                | apply extends_silent; unfold off; repeat case_match; reflexivity ]. }
      apply preserves_bind; [apply _ | apply preserves_modify | intros _].
      { intros x. apply extends_silent. unfold off. repeat case_match; reflexivity. }
      apply preserves_modify. intros x. apply extends_silent. reflexivity. }
  destruct (P (observe (Emitted ev data) w)) as (new & E & _).
  exists new. rewrite E. unfold observe. simpl. rewrite <- app_assoc. reflexivity.
Qed.

(** C1, as the code has it: a configuration without steps is accepted.
    [start] stores the configuration, marks the engine active, sets the
    index to 0 and publishes [tutorial:start], and that is all it does:
    [goToStep 0] finds no step and is a no-op, so that [start] ends as the
    publication does, in the world the publication leaves, and the call
    settles without stopping at an [await].  The engine is then active on
    that configuration, at index 0 and with no current step; nothing is
    reported to the host, and the call returns whenever the subscribers of
    [tutorial:start] do. *)
Theorem start_without_steps (c : TutorialConfig) (w : World) :
  steps c = [] ->
  let r := start c w in
  (exists w1,
     set_console (console w) w1
       = set_isActive true (set_currentStepIndex 0 (set_config (Some c) w)) /\
     r = emit "tutorial:start" NoData w1) /\
  (exists new, trace r.1 = trace w ++ Emitted "tutorial:start" NoData :: new) /\
  goToStep 0 r.1 = (r.1, Ok tt) /\
  move (Call (Start c)) (w, []) = (r.1, []) /\
  config r.1 = Some c /\ isActive r.1 = true /\ currentStepIndex r.1 = 0 /\
  currentStep r.1 = None /\
  (quietOn "tutorial:start" w -> r.2 = Ok tt).
Proof.
  intros Hsteps r. subst r.
  assert (Hnone : stepAt c 0 = None).
  { unfold stepAt. rewrite Hsteps. reflexivity. }
  destruct (start_begin_exact c w) as (w1 & Hcells & Hstart & Hbegin).
  assert (Hc1 : config w1 = Some c).
  { change (config (set_console (console w) w1) = Some c). rewrite Hcells. reflexivity. }
  assert (Hi1 : currentStepIndex w1 = 0).
  { change (currentStepIndex (set_console (console w) w1) = 0). rewrite Hcells. reflexivity. }
  assert (Ha1 : isActive w1 = true).
  { change (isActive (set_console (console w) w1) = true). rewrite Hcells. reflexivity. }
  assert (Ht1 : trace w1 = trace w).
  { change (trace (set_console (console w) w1) = trace w). rewrite Hcells. reflexivity. }
  assert (Hb1 : eventBus w1 = eventBus w).
  { change (eventBus (set_console (console w) w1) = eventBus w). rewrite Hcells. reflexivity. }
  pose proof (emit_config "tutorial:start" NoData w1) as Ec.
  pose proof (emit_currentStepIndex "tutorial:start" NoData w1) as Ei.
  pose proof (emit_isActive "tutorial:start" NoData w1) as Ea.
  destruct (emit_trace "tutorial:start" NoData w1) as [new Et].
  assert (Hquiet : quietOn "tutorial:start" w ->
                   (emit "tutorial:start" NoData w1).2 = Ok tt).
  { intros Hq. apply emit_quiet. unfold quietOn, subscribers. rewrite Hb1. exact Hq. }
  assert (Hnoop : goToStep 0 (emit "tutorial:start" NoData w1).1
                  = ((emit "tutorial:start" NoData w1).1, Ok tt)).
  { apply (goToStep_out_of_range 0 c); [congruence | exact Hnone]. }
  assert (E : start c w = emit "tutorial:start" NoData w1).
  { rewrite Hstart. unfold mbind, M_bind.
    destruct (emit "tutorial:start" NoData w1) as [w2 [[]|e]]; simpl in *;
      [exact Hnoop | reflexivity]. }
  assert (Hmove : move (Call (Start c)) (w, [])
                  = ((emit "tutorial:start" NoData w1).1, [])).
  { unfold move. cbn [begin fst snd]. rewrite Hbegin. unfold mbind, M_bind, suspend.
    destruct (emit "tutorial:start" NoData w1) as [w2 [[]|e]] eqn:Ee; [|reflexivity].
    simpl in Ec. rewrite goToStep_begin_idle; [reflexivity|].
    right. exists c. split; [congruence | exact Hnone]. }
  rewrite E.
  split; [exists w1; split; [exact Hcells | reflexivity]|].
  split; [exists new; rewrite Et, Ht1; reflexivity|].
  split; [exact Hnoop|].
  split; [exact Hmove|].
  split; [congruence|]. split; [congruence|]. split; [congruence|].
  split; [|exact Hquiet].
  unfold currentStep. rewrite Ec, Hc1, Ei, Hi1.
  destruct (decide _); [reflexivity | exact Hnone].
Qed.

Lemma start_without_steps_witness :
  steps (tour "empty" []) = [] /\
  isActive (start (tour "empty" []) blankWorld).1 = true /\
  trace (start (tour "empty" []) blankWorld).1 = [Emitted "tutorial:start" NoData].
Proof.
  split; [reflexivity|].
  destruct (start_without_steps (tour "empty" []) blankWorld eq_refl)
    as (_ & _ & _ & _ & _ & Ha & _).
  split; [exact Ha | vm_compute; reflexivity].
Defined.

(** C1 as stated fails: on a fresh engine, [start] of a tour without steps
    returns normally and leaves the engine active with no current step. *)
Lemma start_accepts_empty_tour :
  (start (tour "empty" []) blankWorld).2 = Ok tt /\
  isActive (start (tour "empty" []) blankWorld).1 = true /\
  currentStep (start (tour "empty" []) blankWorld).1 = None.
Proof. vm_compute. repeat split. Qed.

(** C2, as the code has it: [start b] while another configuration is
    active overwrites the configuration cell.  Afterwards [b] is the one
    active configuration, and the call has neither published
    [tutorial:close] nor invoked any [onClose] callback. *)
Theorem start_replaces_without_teardown (a b : TutorialConfig) (w : World) :
  config w = Some a ->
  let r := start b w in
  config r.1 = Some b /\ isActive r.1 = true /\
  exists new, trace r.1 = (trace w ++ new)%list /\
    emitted "tutorial:close" new = false /\ called OnClose new = false.
Proof.
  intros _ r. subst r. split; [|split].
  - destruct (start_unfold b w) as (w0 & -> & Hc & _).
    pose proof (emit_config "tutorial:start" NoData w0) as Ec.
    destruct (emit "tutorial:start" NoData w0) as [w1 [[]|e]]; simpl in *.
    + rewrite goToStep_config. congruence.
    + congruence.
  - destruct (start_unfold b w) as (w0 & -> & _ & _ & Ha & _).
    pose proof (emit_isActive "tutorial:start" NoData w0) as Ea.
    destruct (emit "tutorial:start" NoData w0) as [w1 [[]|e]]; simpl in *.
    + rewrite goToStep_isActive. congruence.
    + congruence.
  - assert (H : extends teardownFree w (start b w).1).
    { apply (start_preserves (extends teardownFree));
        first
          [ apply _
          | intros; apply extends_observe; simpl;
            solve [trivial | assumption | destruct role; first [exact I | congruence]]
          | intros; apply extends_scroll; intros; exact I
          | intros; apply extends_silent; frame ]. }
    destruct H as (new & E & F).
    exists new. split; [exact E | apply teardownFree_reading, F].
Qed.

Lemma start_replaces_without_teardown_witness :
  config (run [Start tourA] blankWorld) = Some tourA /\
  config (start tourB (run [Start tourA] blankWorld)).1 = Some tourB.
Proof.
  split; [reflexivity|].
  apply (start_replaces_without_teardown tourA tourB (run [Start tourA] blankWorld)).
  reflexivity.
Defined.

(** C2 as stated fails: [tourA] is active and has an [onClose] callback;
    [start tourB] publishes no [tutorial:close] and does not call it. *)
Lemma restart_skips_teardown :
  config (run [Start tourA] blankWorld) = Some tourA /\
  onClose tourA = Some (hook "A.onClose") /\
  config (run [Start tourA; Start tourB] blankWorld) = Some tourB /\
  emitted "tutorial:close" (trace (run [Start tourA; Start tourB] blankWorld)) = false /\
  called OnClose (trace (run [Start tourA; Start tourB] blankWorld)) = false.
Proof. vm_compute. repeat split. Qed.

(** C3, the code at work: on a fresh engine, [start] of a one-step tour
    whose step has both callbacks calls [onExit] of that step, and does so
    before its [onEnter].  [start] has set the index to 0, not -1, so
    [goToStep 0] finds step 0 current and leaves it. *)
Theorem start_runs_onExit_of_first_step :
  (start (tour "t" [hookedStep]) blankWorld).2 = Ok tt /\
  trace (start (tour "t" [hookedStep]) blankWorld).1 =
    [ Emitted "tutorial:start" NoData;
      CallbackInvoked OnExit (hook "first.onExit");
      CallbackInvoked OnEnter (hook "first.onEnter");
      Emitted "tutorial:step-change" (StepChange hookedStep 0) ] /\
  called OnExit (trace (start (tour "t" [hookedStep]) blankWorld).1) = true.
Proof. vm_compute. repeat split. Qed.

(** ** Entering a step *)

Lemma goToStep_entered (index : Z) (w : World) (c : TutorialConfig) (step : TutorialStep) :
  config w = Some c -> stepAt c index = Some step -> (goToStep index w).2 = Ok tt ->
  (transition index step w).2 = Ok tt /\
  goToStep index w =
    emit "tutorial:step-change" (StepChange step index)
      (waitIfNeeded step (transition index step w).1).
Proof.
  intros Hc Hs. unfold goToStep, mbind, M_bind, gets, modify. simpl. rewrite Hc, Hs.
  destruct (transition index step w) as [w' [[]|e]]; simpl.
  - intros _. split; reflexivity.
  - discriminate.
Qed.

Lemma transition_now index step w : now (transition index step w).1 = now w.
Proof. apply (transition_preserves (sameOn now)); frame. Qed.

Lemma waitIfNeeded_raises (step : TutorialStep) (wfa : WaitForAction) (w : World) :
  waitForAction step = Some wfa -> isWaitingForAction (waitIfNeeded step w) = true.
Proof.
  intros H. unfold waitIfNeeded, setupActionListener, setTimeout. rewrite H.
  repeat case_match; reflexivity.
Qed.

Lemma insertTimer_elem (t : Z * TimerCallback) (ts : list (Z * TimerCallback)) :
  t ∈ insertTimer t ts.
Proof.
  induction ts as [|u ts IH]; simpl.
  - left.
  - destruct (decide _); [right; exact IH | left].
Qed.



(** ** Timers *)

#[global] Instance lowered_preorder : PreOrder lowered.
Proof. split; unfold lowered; [intros w; auto | intros a b c; auto]. Qed.











Lemma emit_depth_quiet (d : nat) (ev : string) (data : Payload) (w : World) :
  quietOn ev w ->
  exists new,
    emit_depth (S d) ev data w = (set_trace (trace w ++ Emitted ev data :: new) w, Ok tt).
Proof.
  intros Hq. rewrite emit_depth_unfold.
  destruct (eventBus w !! ev) as [hs|] eqn:E.
  - pose proof (forEach_quiet (emit_depth d) data ev hs [] hs
                  (observe (Emitted ev data) w) E (Hq hs E) (fun h H => H)) as F.
    rewrite app_nil_r in F. rewrite F. simpl.
    exists (map (fun h => HandlerInvoked h data) hs).
    unfold observe, set_trace. simpl. rewrite <- app_assoc. reflexivity.
  - exists []. reflexivity.
Qed.

Lemma emitted_app (ev : string) (a b : list TraceEvent) :
  emitted ev (a ++ b) = emitted ev a || emitted ev b.
Proof. unfold emitted. apply existsb_app. Qed.

Lemma forEach_cons (call : Handler -> M unit) (ev : string) (h : Handler)
    (rest live : list Handler) (w : World) :
  eventBus w !! ev = Some live -> h ∈ live ->
  forEach call ev (h :: rest) w = (call h ;; forEach call ev rest) w.
Proof.
  intros E Hin. simpl. rewrite E, bool_decide_eq_true_2 by exact Hin. reflexivity.
Qed.

Lemma gate_opens_at_depth (d : nat) (w : World) (e : string) (n : nat)
    (pre post : list Handler) (data : Payload) :
  eventBus w !! e = Some (pre ++ ActionHandler n e :: post) ->
  Forall quiet pre ->
  quietOn "tutorial:action-completed" w ->
  let r := emit_depth (S (S d)) e data w in
  isWaitingForAction r.1 = false /\
  emitted "tutorial:action-completed" (trace r.1) = true /\
  (forall hs, eventBus r.1 !! e = Some hs -> ActionHandler n e ∉ hs) /\
  currentActionHandler r.1 = None.
Proof.
  intros Hbus Hq Hac r. subst r.
  set (h := ActionHandler n e).
  set (R := fun a b : World =>
              (isWaitingForAction a = false -> isWaitingForAction b = false) /\
              (emitted "tutorial:action-completed" (trace a) = true ->
               emitted "tutorial:action-completed" (trace b) = true) /\
              ((forall hs, eventBus a !! e = Some hs -> h ∉ hs) ->
               (forall hs, eventBus b !! e = Some hs -> h ∉ hs)) /\
              (currentActionHandler a = None -> currentActionHandler b = None)).
  assert (O : PreOrder R).
  { split; [intros x; unfold R; repeat split; auto|].
    intros a b c (A1 & A2 & A3 & A4) (B1 & B2 & B3 & B4).
    unfold R; repeat split; intros; eauto. }
  assert (Hobs : forall ev0 x, R x (observe ev0 x)).
  { intros ev0 x. unfold R, observe. simpl. repeat split; auto.
    intros H. rewrite emitted_app, H. reflexivity. }
  assert (Hoff : forall e0 h0 x, R x (off e0 h0 x)).
  { intros e0 h0 x. unfold R, off.
    destruct (eventBus x !! e0) as [live|] eqn:E; simpl; repeat split; auto.
    intros H hs. destruct (decide (e0 = e)) as [->|Hd].
    - rewrite lookup_insert_eq. intros [= <-] Hin.
      apply list_elem_of_filter in Hin as [_ Hin]. exact (H live E Hin).
    - rewrite lookup_insert_ne by exact Hd. apply H. }
  assert (Hrest : forall x, R x (forEach (handlerBody (emit_depth (S d)) data) e post x).1).
  { apply preserves_forEach; [exact O|]. intros h0. unfold handlerBody.
    apply preserves_bind; [exact O | apply preserves_modify, Hobs | intros _].
    destruct h0 as [hid [msg|]|m name].
    - apply preserves_throw, O.
    - apply preserves_ret, O.
    - apply preserves_bind; [exact O | apply preserves_modify | intros _].
      { intros x. unfold R. simpl. repeat split; auto. }
      apply preserves_bind; [exact O | | intros _].
      { apply preserves_emit_depth; try exact O; intros; try apply Hobs; try apply Hoff;
          unfold R; simpl; repeat split; auto. }
      apply preserves_bind; [exact O | apply preserves_modify, Hoff | intros _].
      apply preserves_modify. intros x. unfold R. simpl. repeat split; auto. }
  rewrite emit_depth_unfold, Hbus.
  rewrite (forEach_quiet _ data e (pre ++ h :: post)); auto;
    [|intros h0 H0; apply elem_of_app; left; exact H0].
  set (w1 := set_trace _ _).
  assert (Hbus1 : eventBus w1 !! e = Some (pre ++ h :: post)) by exact Hbus.
  rewrite (forEach_cons _ e h post _ w1 Hbus1) by (apply elem_of_app; right; left).
  set (w2 := set_isWaitingForAction false (observe (HandlerInvoked h data) w1)).
  assert (Hbody : exists new,
            handlerBody (emit_depth (S d)) data h w1
            = (set_currentActionHandler None
                 (off e h (set_trace (trace w2 ++ Emitted "tutorial:action-completed"
                                                    (ActionCompleted e) :: new) w2)),
               Ok tt)).
  { assert (Hq2 : quietOn "tutorial:action-completed" w2) by exact Hac.
    destruct (emit_depth_quiet d "tutorial:action-completed" (ActionCompleted e) w2 Hq2)
      as [new E].
    exists new. unfold handlerBody, h, mbind, M_bind, modify.
    cbn [fst snd]. fold h. fold w2. rewrite E. reflexivity. }
  destruct Hbody as [new Hb].
  set (w3 := set_currentActionHandler None _) in Hb.
  assert (Hstep : (handlerBody (emit_depth (S d)) data h ;;
                   forEach (handlerBody (emit_depth (S d)) data) e post) w1
                  = forEach (handlerBody (emit_depth (S d)) data) e post w3).
  { unfold mbind, M_bind. rewrite Hb. reflexivity. }
  rewrite Hstep.
  destruct (Hrest w3) as (R1 & R2 & R3 & R4).
  repeat split.
  - apply R1. unfold w3, off. destruct (eventBus _ !! e); reflexivity.
  - apply R2. unfold w3, off. destruct (eventBus _ !! e); simpl;
      rewrite emitted_app; simpl; rewrite orb_true_r; reflexivity.
  - apply R3. intros hs. unfold w3, off. simpl. rewrite Hbus. simpl.
    rewrite lookup_insert_eq. intros [= <-] Hin.
    apply list_elem_of_filter in Hin as [Hin _]. apply Hin. reflexivity.
  - apply R4. reflexivity.
Qed.

(** X14: What does hold of a gate and its event: when the handler of the gate
    is subscribed to [e] behind host functions that return, and only such
    functions listen to [tutorial:action-completed], [triggerAction e]
    lowers the flag, publishes [tutorial:action-completed], and leaves the
    handler unsubscribed and forgotten, whatever the later subscribers do. *)
Lemma gate_opens_on_its_event (w : World) (e : string) (n : nat)
    (pre post : list Handler) (data : Payload) :
  eventBus w !! e = Some (pre ++ ActionHandler n e :: post) ->
  Forall quiet pre ->
  quietOn "tutorial:action-completed" w ->
  isWaitingForAction (triggerAction e data w).1 = false /\
  emitted "tutorial:action-completed" (trace (triggerAction e data w).1) = true /\
  (forall hs, eventBus (triggerAction e data w).1 !! e = Some hs ->
              ActionHandler n e ∉ hs) /\
  currentActionHandler (triggerAction e data w).1 = None.
Proof. apply (gate_opens_at_depth 254). Qed.

(** ** A fallback that outlives its wait *)

(** C4, the code at work: step [a] waits for ["x"] with a timeout of 1000,
    step [b] waits for ["e"] without one.  The user does ["x"] and moves on;
    [b] is current and waiting.  When the 1000 ms of step [a] are over, its
    timer finds the flag up and clears it: the gate of [b] opens though
    ["e"] was never published, and the handler of [b] stays on the bus with
    nothing referring to it. *)
Theorem stale_timeout_opens_later_gate :
  currentStep (run [Start twoGates; TriggerAction "x" NoData; Next] blankWorld)
    = Some (waitingStep "b" "e" None) /\
  isWaitingForAction (run [Start twoGates; TriggerAction "x" NoData; Next] blankWorld)
    = true /\
  currentStep
    (run [Start twoGates; TriggerAction "x" NoData; Next; AdvanceTime 1000] blankWorld)
    = Some (waitingStep "b" "e" None) /\
  isWaitingForAction
    (run [Start twoGates; TriggerAction "x" NoData; Next; AdvanceTime 1000] blankWorld)
    = false /\
  emitted "e"
    (trace (run [Start twoGates; TriggerAction "x" NoData; Next; AdvanceTime 1000]
              blankWorld))
    = false /\
  currentActionHandler
    (run [Start twoGates; TriggerAction "x" NoData; Next; AdvanceTime 1000] blankWorld)
    = None /\
  eventBus
    (run [Start twoGates; TriggerAction "x" NoData; Next; AdvanceTime 1000] blankWorld)
    !! "e" = Some [ActionHandler 1 "e"].
Proof. vm_compute. repeat split. Qed.

(** C5, the code at work: step [a] waits for ["x"] with a timeout of 1000.
    The event comes first and clears the gate of [a]; the fallback of [a],
    now stale, stays pending.  The tour moves on to step [b], which raises
    the flag for its own wait.  The stale fallback tests the flag, finds it
    up, and acts: it clears the flag and the reference to the handler of
    [b].  The test of the flag does not tell whose wait it is. *)
Theorem stale_timeout_acts_after_event :
  isWaitingForAction (run [Start twoGates; TriggerAction "x" NoData] blankWorld) = false /\
  emitted "tutorial:action-completed"
    (trace (run [Start twoGates; TriggerAction "x" NoData] blankWorld)) = true /\
  timers (run [Start twoGates; TriggerAction "x" NoData; Next] blankWorld)
    = [(1000, ActionTimeout "x" (ActionHandler 0 "x"))] /\
  isWaitingForAction (run [Start twoGates; TriggerAction "x" NoData; Next] blankWorld)
    = true /\
  currentActionHandler (run [Start twoGates; TriggerAction "x" NoData; Next] blankWorld)
    = Some ("e", ActionHandler 1 "e") /\
  isWaitingForAction
    (runTimer (ActionTimeout "x" (ActionHandler 0 "x"))
       (run [Start twoGates; TriggerAction "x" NoData; Next] blankWorld)) = false /\
  currentActionHandler
    (runTimer (ActionTimeout "x" (ActionHandler 0 "x"))
       (run [Start twoGates; TriggerAction "x" NoData; Next] blankWorld)) = None.
Proof. vm_compute. repeat split. Qed.

(** ** Closing *)

#[global] Instance calm_preorder : PreOrder calm.
Proof.
  split.
  - intros w. unfold calm, lowered. auto.
  - intros a b c (A1 & A2 & A3 & A4 & A5) (B1 & B2 & B3 & B4 & B5).
    unfold calm, lowered in *. repeat split; try congruence. auto.
Qed.

Lemma calm_restful (w w' : World) : calm w w' -> restful w -> restful w'.
Proof.
  intros (A1 & A2 & A3 & A4 & A5) Hr Hc. rewrite A1 in Hc.
  destruct (Hr Hc) as (B1 & B2 & B3 & B4). unfold lowered in A5.
  repeat split; try congruence. auto.
Qed.

Lemma emit_calm (ev : string) (data : Payload) (w : World) : calm w (emit ev data w).1.
Proof.
  apply (preserves_emit calm); intros; unfold calm, lowered, off, observe;
    repeat case_match; simpl; auto.
Qed.

Lemma updateTargetRect_restful (w : World) : restful w -> restful (updateTargetRect w).
Proof.
  intros Hr Hc.
  assert (Hc' : config w = None) by (rewrite <- Hc; symmetry; frame).
  destruct (Hr Hc') as (B1 & B2 & B3 & B4).
  unfold updateTargetRect, currentStep. rewrite Hc'. repeat split; assumption.
Qed.

Lemma runTimer_restful (cb : TimerCallback) (w : World) : restful w -> restful (runTimer cb w).
Proof.
  destruct cb as [|e h]; simpl; [apply updateTargetRect_restful|].
  intros Hr. destruct (isWaitingForAction w) eqn:Hw; [|exact Hr].
  intros Hc.
  assert (Hc' : config w = None) by (rewrite <- Hc; symmetry; frame).
  destruct (Hr Hc') as (B1 & B2 & B3 & B4). congruence.
Qed.

Lemma advance_restful (dt : Z) (w : World) : restful w -> restful (advanceTimersByTime dt w).
Proof.
  assert (P : PreOrder (fun a b : World => restful a -> restful b))
    by (split; [intros x; auto | intros a b c; auto]).
  apply (@advance_preserves _ P).
  - intros v x Hr. exact Hr.
  - intros v x Hr. exact Hr.
  - apply runTimer_restful.
Qed.

Lemma start_config (c : TutorialConfig) (w : World) : config (start c w).1 = Some c.
Proof.
  destruct (start_unfold c w) as (w0 & -> & Hc & _).
  pose proof (emit_config "tutorial:start" NoData w0) as Ec.
  destruct (emit "tutorial:start" NoData w0) as [w1 [[]|e]]; simpl in *.
  - rewrite goToStep_config. congruence.
  - congruence.
Qed.

Lemma goToStep_idle (index : Z) (w : World) :
  config w = None -> goToStep index w = (w, Ok tt).
Proof. intros Hc. unfold goToStep, mbind, M_bind, gets. simpl. rewrite Hc. reflexivity. Qed.

Lemma goToStep_restful (index : Z) (w : World) : restful w -> restful (goToStep index w).1.
Proof.
  intros Hr. destruct (config w) as [c|] eqn:Hc.
  - intros Hn. rewrite goToStep_config, Hc in Hn. discriminate.
  - rewrite goToStep_idle by exact Hc. exact Hr.
Qed.

(** [close] on an active engine either gets to its last five assignments
    or is cut short by an exception, and then the configuration is still
    in place. *)
Lemma close_outcome (c : TutorialConfig) (w : World) :
  config w = Some c ->
  (exists w', close w = (resetState w', Ok tt)) \/
  (exists e, (close w).2 = Throw e /\ config (close w).1 = Some c).
Proof.
  intros Hc. unfold close, mbind, M_bind, gets, modify. simpl. rewrite Hc.
  pose proof (emit_config "tutorial:close" NoData (cleanupActionListener w)) as Ec.
  assert (Hc0 : config (cleanupActionListener w) = Some c) by (rewrite <- Hc; frame).
  destruct (emit "tutorial:close" NoData (cleanupActionListener w)) as [w1 [[]|e]];
    simpl in *.
  - destruct (onClose c) as [cb|]; simpl.
    + unfold mbind, M_bind, modify. simpl. destruct (cb_throws cb); simpl.
      * right. eexists. split; [reflexivity|]. simpl. congruence.
      * left. eexists. reflexivity.
    + left. eexists. reflexivity.
  - right. exists e. split; [reflexivity | congruence].
Qed.

Lemma close_idle (w : World) : config w = None -> close w = (w, Ok tt).
Proof. intros Hc. unfold close, mbind, M_bind, gets. simpl. rewrite Hc. reflexivity. Qed.

Lemma resetState_idle (w : World) : idle (resetState w).
Proof. repeat split. Qed.

Lemma close_restful (w : World) : restful w -> restful (close w).1.
Proof.
  intros Hr. destruct (config w) as [c|] eqn:Hc.
  - destruct (close_outcome c w Hc) as [[w' E]|(e & _ & E)].
    + rewrite E. intros _. repeat split.
    + intros Hn. rewrite E in Hn. discriminate.
  - rewrite close_idle by exact Hc. exact Hr.
Qed.

Lemma complete_restful (w : World) : restful w -> restful (complete w).1.
Proof.
  intros Hr. destruct (config w) as [c|] eqn:Hc.
  - unfold complete, mbind, M_bind, gets, modify. simpl. rewrite Hc.
    set (w0 := set_localStorage _ w).
    assert (Hc0 : config w0 = Some c) by exact Hc.
    pose proof (emit_config "tutorial:complete" NoData w0) as Ec.
    destruct (emit "tutorial:complete" NoData w0) as [w1 [[]|e]]; simpl in *.
    + assert (Hc1 : config w1 = Some c) by congruence.
      destruct (onComplete c) as [cb|]; simpl.
      * unfold mbind, M_bind, modify. simpl. destruct (cb_throws cb); simpl.
        -- intros Hn. simpl in Hn. congruence.
        -- apply close_restful. intros Hn. simpl in Hn. congruence.
      * apply close_restful. intros Hn. congruence.
    + intros Hn. congruence.
  - unfold complete, mbind, M_bind, gets. simpl. rewrite Hc. exact Hr.
Qed.

Lemma after_restful (op : Op) (w : World) : restful w -> restful (after op w).
Proof.
  intros Hr. unfold after. destruct op; simpl.
  - intros Hn. rewrite start_config in Hn. discriminate.
  - unfold next. destruct (canGoNext w); [apply goToStep_restful, Hr | exact Hr].
  - unfold previous. destruct (canGoPrevious w); [apply goToStep_restful, Hr | exact Hr].
  - apply goToStep_restful, Hr.
  - unfold skipTo, mbind, M_bind, gets. simpl. destruct (config w) as [c|] eqn:Hc; [|exact Hr].
    destruct (decide _); [apply goToStep_restful, Hr | exact Hr].
  - apply complete_restful, Hr.
  - apply close_restful, Hr.
  - apply updateTargetRect_restful, Hr.
  - exact (calm_restful _ _ (emit_calm _ _ w) Hr).
  - exact (calm_restful _ _ (emit_calm _ _ w) Hr).
  - intros Hc. apply Hr. unfold on in Hc. exact Hc.
  - intros Hc. unfold off in *. destruct (eventBus w !! event0); apply Hr, Hc.
  - exact Hr.
  - apply advance_restful, Hr.
  - exact Hr.
Qed.

Lemma run_restful (ops : list Op) : forall w, restful w -> restful (run ops w).
Proof.
  induction ops as [|op ops IH]; intros w Hr; simpl; [exact Hr|].
  apply IH, after_restful, Hr.
Qed.







(** ** Completion records *)

Lemma append_cons (ch : ascii) (a b : string) : String ch a +:+ b = String ch (a +:+ b).
Proof. reflexivity. Qed.

Lemma length_append (a b : string) :
  String.length (a +:+ b) = (String.length a + String.length b)%nat.
Proof.
  induction a as [|ch a IH]; [reflexivity|].
  rewrite append_cons. simpl. rewrite IH. reflexivity.
Qed.

Lemma append_inj_r (s : string) : forall a b : string, a +:+ s = b +:+ s -> a = b.
Proof.
  induction a as [|ch a IH]; intros [|ch' b] H.
  - reflexivity.
  - apply (f_equal String.length) in H. rewrite !length_append in H. simpl in H. lia.
  - apply (f_equal String.length) in H. rewrite !length_append in H. simpl in H. lia.
  - rewrite !append_cons in H. injection H as -> H. f_equal. apply IH, H.
Qed.

Lemma completedKey_inj (a b : string) : completedKey a = completedKey b -> a = b.
Proof.
  unfold completedKey. intros H.
  apply (inj (String.app "tutorial:")) in H. apply append_inj_r in H. exact H.
Qed.

Lemma stored_same (k : string) (w w' : World) :
  localStorage w' = localStorage w -> stored k w w'.
Proof. intros E H. rewrite E. exact H. Qed.

#[global] Instance stored_preorder (k : string) : PreOrder (stored k).
Proof. split; unfold stored; [intros w; auto | intros a b c; auto]. Qed.

Lemma advance_localStorage (dt : Z) (w : World) :
  localStorage (advanceTimersByTime dt w) = localStorage w.
Proof. apply (advance_preserves (sameOn localStorage)); frame. Qed.

Lemma after_stored (k : string) (op : Op) (w : World) :
  op <> ResetCompletion k -> stored k w (after op w).
Proof.
  intros Hop. unfold after.
  apply (perform_preserves (stored k));
    first
      [ apply _
      | intros; apply stored_same; first [apply advance_localStorage | frame]
      | idtac ].
  - intros k' w0 H. unfold stored in *. simpl.
    destruct (decide (completedKey k' = completedKey k)) as [->|Hne].
    + apply lookup_insert_eq.
    + rewrite lookup_insert_ne by exact Hne. exact H.
  - intros k' -> w0 H. unfold stored, resetCompletion in *. simpl.
    rewrite lookup_delete_ne; [exact H|].
    intros E. apply completedKey_inj in E. subst. apply Hop. reflexivity.
Qed.

Lemma run_stored (k : string) (ops : list Op) :
  Forall (fun op => op <> ResetCompletion k) ops -> forall w, stored k w (run ops w).
Proof.
  induction 1 as [|op ops Hop _ IH]; intros w; simpl; [reflexivity|].
  etransitivity; [apply after_stored, Hop | apply IH].
Qed.

Lemma complete_unfold (c : TutorialConfig) (w : World) :
  config w = Some c ->
  complete w =
    (emit "tutorial:complete" NoData ;; invoke OnComplete (onComplete c) ;; close)
      (set_localStorage (<[completedKey (config_id c) := "true"]> (localStorage w)) w).
Proof.
  intros Hc. unfold complete, mbind, M_bind, gets, modify. simpl. rewrite Hc. reflexivity.
Qed.

Lemma complete_stores (c : TutorialConfig) (w : World) :
  config w = Some c -> isCompleted (config_id c) (complete w).1 = true.
Proof.
  intros Hc. unfold isCompleted. apply bool_decide_eq_true_2.
  rewrite (complete_unfold c w Hc).
  set (w0 := set_localStorage _ w).
  assert (Hrest : preserves (stored (config_id c))
            (emit "tutorial:complete" NoData ;; invoke OnComplete (onComplete c) ;; close)).
  { repeat first [apply close_preserves | preserves_step];
      first
        [ intros; apply stored_same; frame
        | intros; apply stored_same; reflexivity ]. }
  apply (Hrest w0). apply lookup_insert_eq.
Qed.

(** C8: [complete()] on an active configuration with id [c] records the
    completion; [isCompleted c] is true from then on, whatever is done to the
    engine, as long as [resetCompletion c] is not called; and it is false
    once [resetCompletion c] has been called. *)
Theorem completion_is_recorded (w : World) (c : TutorialConfig) (ops : list Op) :
  config w = Some c ->
  Forall (fun op => op <> ResetCompletion (config_id c)) ops ->
  isCompleted (config_id c) (complete w).1 = true /\
  isCompleted (config_id c) (run ops (complete w).1) = true /\
  isCompleted (config_id c)
    (resetCompletion (config_id c) (run ops (complete w).1)) = false.
Proof.
  intros Hc Hops. pose proof (complete_stores c w Hc) as H1.
  split; [exact H1|]. split.
  - unfold isCompleted in *. apply bool_decide_eq_true in H1.
    apply bool_decide_eq_true_2.
    apply (run_stored (config_id c) ops Hops), H1.
  - unfold isCompleted, resetCompletion. simpl. apply bool_decide_eq_false_2.
    rewrite lookup_delete_eq. discriminate.
Qed.

Lemma completion_is_recorded_witness :
  config (run [Start tourA] blankWorld) = Some tourA /\
  Forall (fun op => op <> ResetCompletion (config_id tourA))
    [Start tourB; Next; ResetCompletion "B"; Close] /\
  isCompleted "A"
    (run [Start tourB; Next; ResetCompletion "B"; Close]
       (complete (run [Start tourA] blankWorld)).1) = true.
Proof.
  assert (H : Forall (fun op => op <> ResetCompletion (config_id tourA))
                [Start tourB; Next; ResetCompletion "B"; Close])
    by (repeat constructor; discriminate).
  split; [reflexivity|]. split; [exact H|].
  apply (completion_is_recorded (run [Start tourA] blankWorld) tourA _ eq_refl H).
Defined.

(** ** What is in localStorage does not steer the engine *)

(** Alike worlds have all cells but [localStorage] and [console] in common. *)
Ltac alike_worlds :=
  repeat match goal with
         | H : alike ?a ?b |- _ =>
             destruct a, b; unfold alike, forget in H; simpl in H;
             injection H as; subst
         end.

Ltac alike_tac :=
  intros; alike_worlds; unfold alike, forget; simpl;
  repeat first
    [ progress unfold runTimer, cleanupActionListener, off, on, updateTargetRect,
        currentStep, canGoNext, canGoPrevious, totalSteps,
        scrollToStep, scrollElementIntoView, scrollTarget, setTimeout, waitIfNeeded,
        setupActionListener, resetState, resetCompletion, consoleLog, observe
    | progress simpl
    | case_match ];
  try reflexivity; try congruence.

Lemma agree_ret {A : Type} (a : A) : agree (mret a) (mret a).
Proof. intros w1 w2 H. split; [exact H | reflexivity]. Qed.

Lemma agree_throw {A : Type} (e : Error) : agree (throw (A := A) e) (throw e).
Proof. intros w1 w2 H. split; [exact H | reflexivity]. Qed.

Lemma agree_gets {A : Type} (f : World -> A) :
  (forall w1 w2, alike w1 w2 -> f w1 = f w2) -> agree (gets f) (gets f).
Proof. intros Hf w1 w2 H. split; [exact H | simpl; f_equal; apply Hf, H]. Qed.

Lemma agree_modify (f g : World -> World) :
  (forall w1 w2, alike w1 w2 -> alike (f w1) (g w2)) -> agree (modify f) (modify g).
Proof. intros Hf w1 w2 H. split; [apply Hf, H | reflexivity]. Qed.

Lemma agree_bind {A B : Type} (m1 m2 : M A) (k1 k2 : A -> M B) :
  agree m1 m2 -> (forall a, agree (k1 a) (k2 a)) -> agree (m1 ≫= k1) (m2 ≫= k2).
Proof.
  intros Hm Hk w1 w2 H. unfold mbind, M_bind.
  destruct (Hm w1 w2 H) as [Hw Hr].
  destruct (m1 w1) as [w1' r1], (m2 w2) as [w2' r2]. simpl in *. subst r2.
  destruct r1 as [a|e]; [apply Hk, Hw | split; [exact Hw | reflexivity]].
Qed.

(** A value read from localStorage may differ, as long as what is done
    with it agrees. *)
Lemma agree_read {A B : Type} (f : World -> A) (k : A -> M B) :
  (forall a1 a2, agree (k a1) (k a2)) -> agree (gets f ≫= k) (gets f ≫= k).
Proof. intros Hk w1 w2 H. unfold mbind, M_bind, gets. apply Hk, H. Qed.

Lemma agree_forEach (call : Handler -> M unit) (ev : string) (hs : list Handler) :
  (forall h, agree (call h) (call h)) -> agree (forEach call ev hs) (forEach call ev hs).
Proof.
  intros Hcall. induction hs as [|h rest IH]; simpl; [apply agree_ret|].
  intros w1 w2 H.
  assert (E : eventBus w1 = eventBus w2) by (alike_worlds; reflexivity).
  rewrite E. destruct (eventBus w2 !! ev) as [live|]; [destruct (bool_decide (h ∈ live))|].
  - apply (agree_bind (call h) (call h) (fun _ => forEach call ev rest)
             (fun _ => forEach call ev rest)); auto.
  - apply IH, H.
  - apply IH, H.
Qed.

Ltac agree_step :=
  lazymatch goal with
  | |- forall _, _ => intro
  | |- agree (mret _) _ => apply agree_ret
  | |- agree (throw _) _ => apply agree_throw
  | |- agree (gets _) _ => apply agree_gets; alike_tac
  | |- agree (modify _) _ => apply agree_modify; alike_tac
  | |- agree (mbind _ _) _ => apply agree_bind
  | |- agree (match ?x with _ => _ end) _ => destruct x
  end.

Lemma agree_emit_depth (d : nat) : forall ev data,
  agree (emit_depth d ev data) (emit_depth d ev data).
Proof.
  induction d as [|d IH]; intros ev data; simpl; [apply agree_throw|].
  repeat first
    [ apply agree_forEach; intros h; unfold handlerBody
    | apply IH
    | agree_step ].
Qed.

Lemma agree_emit (ev : string) (data : Payload) : agree (emit ev data) (emit ev data).
Proof. apply agree_emit_depth. Qed.

Lemma agree_invoke (role : CallbackRole) (f : option Callback) :
  agree (invoke role f) (invoke role f).
Proof. unfold invoke. repeat agree_step. Qed.

Lemma agree_goToStep (index : Z) : agree (goToStep index) (goToStep index).
Proof.
  unfold goToStep, transition.
  repeat first [apply agree_emit | apply agree_invoke | agree_step].
Qed.

Lemma agree_close : agree close close.
Proof.
  unfold close. repeat first [apply agree_emit | apply agree_invoke | agree_step].
Qed.

Lemma agree_complete : agree complete complete.
Proof.
  unfold complete.
  repeat first [apply agree_close | apply agree_emit | apply agree_invoke | agree_step].
Qed.

Lemma agree_start (c : TutorialConfig) : agree (start c) (start c).
Proof.
  unfold start.
  do 3 (apply agree_bind; [apply agree_modify; alike_tac | intros _]).
  apply agree_read. intros a1 a2.
  apply agree_bind.
  - destruct (decide (a1 = _)), (decide (a2 = _));
      intros w1 w2 H; (split; [|reflexivity]); simpl; alike_tac.
  - intros _. apply agree_bind; [apply agree_emit | intros _; apply agree_goToStep].
Qed.

Lemma alike_runTimers (due : list (Z * TimerCallback)) :
  forall w1 w2, alike w1 w2 ->
    alike (fold_left (fun w t => runTimer t.2 (set_now t.1 w)) due w1)
          (fold_left (fun w t => runTimer t.2 (set_now t.1 w)) due w2).
Proof.
  induction due as [|t due IH]; intros w1 w2 H; simpl; [exact H|].
  apply IH. destruct t as [at_ [|e h]]; alike_tac.
Qed.

Lemma alike_advance (dt : Z) (w1 w2 : World) :
  alike w1 w2 -> alike (advanceTimersByTime dt w1) (advanceTimersByTime dt w2).
Proof.
  intros H. unfold advanceTimersByTime.
  assert (En : now w1 = now w2) by (alike_worlds; reflexivity).
  assert (Et : timers w1 = timers w2) by (alike_worlds; reflexivity).
  rewrite En, Et.
  assert (H' : alike
            (fold_left (fun w t => runTimer t.2 (set_now t.1 w))
               (filter (fun t => t.1 <= now w2 + Z.max 0 dt) (timers w2))
               (set_timers (filter (fun t => ~ t.1 <= now w2 + Z.max 0 dt) (timers w2)) w1))
            (fold_left (fun w t => runTimer t.2 (set_now t.1 w))
               (filter (fun t => t.1 <= now w2 + Z.max 0 dt) (timers w2))
               (set_timers (filter (fun t => ~ t.1 <= now w2 + Z.max 0 dt) (timers w2)) w2))).
  { apply alike_runTimers. alike_tac. }
  revert H'. generalize (now w2 + Z.max 0 dt).
  intros limit H'. alike_tac.
Qed.

Lemma agree_perform (op : Op) : agree (perform op) (perform op).
Proof.
  destruct op; simpl;
    first
      [ apply agree_start | apply agree_goToStep | apply agree_complete | apply agree_close
      | apply agree_emit
      | apply agree_modify; first [apply alike_advance | alike_tac]
      | idtac ].
  - intros w1 w2 H. unfold next.
    assert (E1 : canGoNext w1 = canGoNext w2) by alike_tac.
    assert (E2 : currentStepIndex w1 = currentStepIndex w2) by alike_tac.
    rewrite E1, E2. destruct (canGoNext w2); [apply agree_goToStep, H | split; [exact H|reflexivity]].
  - intros w1 w2 H. unfold previous.
    assert (E1 : canGoPrevious w1 = canGoPrevious w2) by alike_tac.
    assert (E2 : currentStepIndex w1 = currentStepIndex w2) by alike_tac.
    rewrite E1, E2.
    destruct (canGoPrevious w2); [apply agree_goToStep, H | split; [exact H|reflexivity]].
  - unfold skipTo. repeat first [apply agree_goToStep | agree_step].
Qed.

Lemma alike_run (ops : list Op) :
  forall w1 w2, alike w1 w2 -> alike (run ops w1) (run ops w2).
Proof.
  induction ops as [|op ops IH]; intros w1 w2 H; simpl; [exact H|].
  apply IH. apply agree_perform, H.
Qed.

(** C9: the completion record that [start] reads decides nothing but
    whether a line is printed.  Started on two worlds that differ only in
    localStorage and console, the engine returns in the same way, and
    after [start] and any further operations both worlds agree on every
    cell, on the bus, the timers and the trace; of the queries, only
    [isCompleted] reads localStorage. *)
Theorem start_ignores_completion_record (c : TutorialConfig) (w : World)
    (storage : gmap string string) (log : list string) (ops : list Op) :
  let w' := set_console log (set_localStorage storage w) in
  (start c w).2 = (start c w').2 /\
  forget (run ops (start c w).1) = forget (run ops (start c w').1) /\
  isActive (run ops (start c w).1) = isActive (run ops (start c w').1) /\
  currentStepIndex (run ops (start c w).1) = currentStepIndex (run ops (start c w').1) /\
  currentStep (run ops (start c w).1) = currentStep (run ops (start c w').1) /\
  isWaitingForAction (run ops (start c w).1) = isWaitingForAction (run ops (start c w').1) /\
  trace (run ops (start c w).1) = trace (run ops (start c w').1) /\
  (forall k, isCompleted k w' = bool_decide (storage !! completedKey k = Some "true")).
Proof.
  intros w'.
  assert (H0 : alike w w') by (subst w'; destruct w; reflexivity).
  destruct (agree_start c w w' H0) as [H1 H2].
  pose proof (alike_run ops _ _ H1) as H3.
  split; [exact H2|]. split; [exact H3|].
  repeat split; try (clear - H3; alike_tac).
Qed.

(** ** A timeout of zero *)

Lemma goToStep_unfold (index : Z) (w : World) (c : TutorialConfig) (step : TutorialStep) :
  config w = Some c -> stepAt c index = Some step ->
  goToStep index w =
    (transition index step ;; modify (waitIfNeeded step) ;;
     emit "tutorial:step-change" (StepChange step index)) w.
Proof.
  intros Hc Hs. unfold goToStep. unfold mbind at 1, M_bind at 1, gets. simpl.
  rewrite Hc, Hs. reflexivity.
Qed.

Lemma insertTimer_fallbacks (at_ : Z) (ts : list (Z * TimerCallback)) :
  filter (fun t => isActionTimeout t = true) (insertTimer (at_, UpdateRectTimer) ts)
  = filter (fun t => isActionTimeout t = true) ts.
Proof.
  induction ts as [|u ts IH]; simpl; [reflexivity|].
  destruct (decide _); [|reflexivity].
  rewrite !filter_cons. rewrite IH. reflexivity.
Qed.

Lemma scrollToStep_fallbacks (step : TutorialStep) (w : World) :
  filter (fun t => isActionTimeout t = true) (timers (scrollToStep step w))
  = filter (fun t => isActionTimeout t = true) (timers w).
Proof.
  unfold scrollToStep, scrollElementIntoView, setTimeout.
  repeat case_match; try reflexivity. simpl. apply insertTimer_fallbacks.
Qed.

Lemma waitIfNeeded_zero (step : TutorialStep) (wfa : WaitForAction) (w : World) :
  waitForAction step = Some wfa -> timeout wfa = Some 0 ->
  waitIfNeeded step w
  = setupActionListener (event wfa) None (set_isWaitingForAction true w).
Proof.
  intros H Ht. unfold waitIfNeeded, setupActionListener. rewrite H, Ht. reflexivity.
Qed.

Lemma setupActionListener_untimed_timers (e : string) (w : World) :
  timers (setupActionListener e None w) = timers w.
Proof. frame. Qed.

(** Host functions cannot touch the waiting flag. *)
Lemma forEach_hosts_waiting (publish : string -> Payload -> M unit) (data : Payload)
    (ev : string) (hs : list Handler) :
  Forall isHost hs ->
  forall w, isWaitingForAction (forEach (handlerBody publish data) ev hs w).1
            = isWaitingForAction w.
Proof.
  induction 1 as [|h hs Hh _ IH]; intros w; simpl; [reflexivity|].
  destruct (eventBus w !! ev) as [live|]; [destruct (bool_decide (h ∈ live))|];
    try apply IH.
  destruct h as [hid [msg|]|]; try contradiction;
    unfold mbind, M_bind, handlerBody, modify, throw, mret, M_ret; simpl.
  - reflexivity.
  - rewrite IH. reflexivity.
Qed.

Lemma emit_hosts_waiting (ev : string) (data : Payload) (w : World) :
  hostsOnly ev w -> isWaitingForAction (emit ev data w).1 = isWaitingForAction w.
Proof.
  intros Hh. unfold emit, callStackLimit. rewrite emit_depth_unfold.
  destruct (eventBus w !! ev) as [hs|] eqn:E; [|reflexivity].
  rewrite forEach_hosts_waiting; [reflexivity | apply Hh, E].
Qed.

Lemma on_hostsOnly (ev e : string) (h : Handler) (w : World) :
  (e <> ev \/ isHost h) -> hostsOnly ev w -> hostsOnly ev (on e h w).
Proof.
  intros Hcase Hh. unfold hostsOnly, subscribers. intros hs. unfold on. simpl.
  destruct (decide (e = ev)) as [->|Hne].
  - destruct Hcase as [Hne|Hhost]; [congruence|].
    rewrite lookup_alter_eq.
    destruct (eventBus w !! ev) as [live|] eqn:E.
    + rewrite E. simpl. intros [= <-]. unfold setAdd.
      destruct (decide _); [apply Hh, E|].
      apply Forall_app. split; [apply Hh, E | repeat constructor; exact Hhost].
    + rewrite lookup_insert_eq. simpl. intros [= <-]. unfold setAdd.
      destruct (decide _); repeat constructor. exact Hhost.
  - rewrite lookup_alter_ne by exact Hne.
    destruct (eventBus w !! e); [apply Hh|].
    rewrite lookup_insert_ne by exact Hne. apply Hh.
Qed.

Lemma transition_subscribers (P : Handler -> Prop) (ev : string) (index : Z)
    (step : TutorialStep) (w : World) :
  subscribers P ev w -> subscribers P ev (transition index step w).1.
Proof.
  assert (O : PreOrder (fun a b : World => subscribers P ev a -> subscribers P ev b))
    by (split; [intros x; auto | intros a b c; auto]).
  apply (@transition_preserves _ O); try apply off_subscribers;
    intros;
    match goal with
    | H : subscribers _ _ ?a |- subscribers _ _ ?b =>
        assert (E : eventBus b = eventBus a) by frame;
        unfold subscribers in *; rewrite E; exact H
    end.
Qed.

Lemma waitIfNeeded_hostsOnly (ev : string) (step : TutorialStep) (wfa : WaitForAction)
    (w : World) :
  waitForAction step = Some wfa -> event wfa <> ev ->
  hostsOnly ev w -> hostsOnly ev (waitIfNeeded step w).
Proof.
  intros H Hne Hh. unfold waitIfNeeded, setupActionListener. rewrite H.
  set (w0 := set_closures _ _).
  assert (H0 : hostsOnly ev (on (event wfa) (ActionHandler (closures (set_isWaitingForAction true w)) (event wfa)) w0)).
  { apply on_hostsOnly; [left; exact Hne | exact Hh]. }
  repeat case_match; exact H0.
Qed.

Lemma fallbacks_none (ts : list (Z * TimerCallback)) :
  filter (fun t => isActionTimeout t = true) ts = [] <->
  Forall (fun t => isActionTimeout t = false) ts.
Proof.
  induction ts as [|t ts IH]; simpl.
  - split; [constructor | reflexivity].
  - rewrite filter_cons. destruct (isActionTimeout t) eqn:E.
    + destruct (decide (true = true)); [|congruence].
      split; [discriminate | intros H; inversion H; congruence].
    + destruct (decide (false = true)); [congruence|].
      rewrite IH. split; [intros H; constructor; assumption | intros H; inversion H; assumption].
Qed.

Lemma goToStep_zero_fallbacks (index : Z) (w : World) (c : TutorialConfig)
    (step : TutorialStep) (wfa : WaitForAction) :
  config w = Some c -> stepAt c index = Some step ->
  waitForAction step = Some wfa -> timeout wfa = Some 0 ->
  filter (fun t => isActionTimeout t = true) (timers (goToStep index w).1)
  = filter (fun t => isActionTimeout t = true) (timers w).
Proof.
  intros Hc Hs Hw Ht. rewrite (goToStep_unfold index w c step Hc Hs).
  set (R := sameOn (fun w => filter (fun t => isActionTimeout t = true) (timers w))).
  assert (P1 : preserves R (transition index step)).
  { apply transition_preserves;
      first [apply _ | apply scrollToStep_fallbacks | subst R; frame]. }
  assert (P2 : preserves R (modify (waitIfNeeded step))).
  { intros w0. subst R. unfold sameOn, modify. simpl.
    rewrite (waitIfNeeded_zero step wfa w0 Hw Ht), setupActionListener_untimed_timers.
    reflexivity. }
  assert (P3 : preserves R (emit "tutorial:step-change" (StepChange step index))).
  { intros w0. subst R. unfold sameOn. rewrite emit_timers. reflexivity. }
  exact (preserves_bind R _ _ P1 (fun _ => preserves_bind R _ _ P2 (fun _ => P3)) w).
Qed.

Lemma runTimers_quiet (due : list (Z * TimerCallback)) :
  Forall (fun t => isActionTimeout t = false) due ->
  forall w,
    isWaitingForAction (fold_left (fun w t => runTimer t.2 (set_now t.1 w)) due w)
      = isWaitingForAction w /\
    timers (fold_left (fun w t => runTimer t.2 (set_now t.1 w)) due w) = timers w.
Proof.
  induction 1 as [|t due Ht _ IH]; intros w; simpl; [split; reflexivity|].
  destruct (IH (runTimer t.2 (set_now t.1 w))) as [E1 E2]. rewrite E1, E2.
  destruct t as [at_ [|e h]]; [|discriminate]. simpl. split; frame.
Qed.

Lemma advance_quiet (dt : Z) (w : World) :
  noFallbackPending w ->
  isWaitingForAction (advanceTimersByTime dt w) = isWaitingForAction w /\
  noFallbackPending (advanceTimersByTime dt w).
Proof.
  intros Hq. unfold advanceTimersByTime, noFallbackPending in *.
  set (limit := now w + Z.max 0 dt).
  assert (Hdue : Forall (fun t => isActionTimeout t = false)
                   (filter (fun t => t.1 <= limit) (timers w))).
  { apply Forall_forall. intros t Ht. apply list_elem_of_filter in Ht as [_ Ht].
    rewrite Forall_forall in Hq. apply Hq, Ht. }
  destruct (runTimers_quiet _ Hdue
              (set_timers (filter (fun t => ~ t.1 <= limit) (timers w)) w)) as [E1 E2].
  simpl. rewrite E1, E2. simpl. split; [reflexivity|].
  apply Forall_forall. intros t Ht. apply list_elem_of_filter in Ht as [_ Ht].
  rewrite Forall_forall in Hq. apply Hq, Ht.
Qed.

Lemma after_passive (op : Op) (w : World) :
  passive op ->
  isWaitingForAction w = true /\ noFallbackPending w ->
  isWaitingForAction (after op w) = true /\ noFallbackPending (after op w).
Proof.
  intros Hp [Hw Hq]. unfold after. destruct op; try contradiction; simpl.
  - unfold next, canGoNext. rewrite Hw. simpl. split; assumption.
  - split; [rewrite <- Hw; frame|].
    unfold noFallbackPending. replace (timers (updateTargetRect w)) with (timers w) by frame.
    exact Hq.
  - split; [exact Hw | exact Hq].
  - split; [rewrite <- Hw; frame|].
    unfold noFallbackPending.
    replace (timers (off event0 (HostHandler hid throws) w)) with (timers w) by frame.
    exact Hq.
  - split; [exact Hw | exact Hq].
  - destruct (advance_quiet dt w Hq) as [E1 E2].
    split; [exact (eq_trans E1 Hw) | exact E2].
  - split; [exact Hw | exact Hq].
Qed.

Lemma run_passive (ops : list Op) :
  Forall passive ops ->
  forall w, isWaitingForAction w = true /\ noFallbackPending w ->
            isWaitingForAction (run ops w) = true /\ noFallbackPending (run ops w).
Proof.
  induction 1 as [|op ops Hop _ IH]; intros w H; simpl; [exact H|].
  apply IH, after_passive; assumption.
Qed.

(** X16: A timeout of zero, seen from the step itself: for a step that
    declares [waitForAction] with [timeout: 0], the test [if (timeout)]
    fails: setting up the gate is what it is without a
    timeout, and schedules no timer.  [goToStep] into such a step adds no
    fallback to the pending timers.  Once the step is entered, if no
    fallback of an earlier step is pending and only host functions listen
    to [tutorial:step-change], the waiting flag is up and stays up however
    much time passes and whatever is done short of publishing an event,
    going to a step or ending the tour. *)
Theorem zero_timeout_schedules_nothing (w : World) (c : TutorialConfig) (index : Z)
    (step : TutorialStep) (wfa : WaitForAction) (ops : list Op) :
  config w = Some c -> stepAt c index = Some step ->
  waitForAction step = Some wfa -> timeout wfa = Some 0 ->
  (forall w', waitIfNeeded step w'
              = setupActionListener (event wfa) None (set_isWaitingForAction true w')) /\
  (forall w', timers (waitIfNeeded step w') = timers w') /\
  filter (fun t => isActionTimeout t = true) (timers (goToStep index w).1)
    = filter (fun t => isActionTimeout t = true) (timers w) /\
  ((goToStep index w).2 = Ok tt ->
   event wfa <> "tutorial:step-change" -> hostsOnly "tutorial:step-change" w ->
   noFallbackPending w -> Forall passive ops ->
   isWaitingForAction (run ops (goToStep index w).1) = true).
Proof.
  intros Hc Hs Hw Ht.
  split; [intros w'; apply (waitIfNeeded_zero step wfa w' Hw Ht)|].
  split; [intros w'; rewrite (waitIfNeeded_zero step wfa w' Hw Ht),
                        setupActionListener_untimed_timers; reflexivity|].
  pose proof (goToStep_zero_fallbacks index w c step wfa Hc Hs Hw Ht) as Hf.
  split; [exact Hf|].
  intros Hok Hne Hh Hq Hops.
  apply (run_passive ops Hops). split.
  - destruct (goToStep_entered index w c step Hc Hs Hok) as [_ ->].
    rewrite emit_hosts_waiting.
    + apply (waitIfNeeded_raises step wfa), Hw.
    + apply (waitIfNeeded_hostsOnly _ step wfa); [exact Hw | exact Hne|].
      apply transition_subscribers, Hh.
  - unfold noFallbackPending in *. apply fallbacks_none. rewrite Hf.
    apply fallbacks_none, Hq.
Qed.

Lemma zero_timeout_schedules_nothing_witness :
  config (run [Start zeroTour] blankWorld) = Some zeroTour /\
  (goToStep 1 (run [Start zeroTour] blankWorld)).2 = Ok tt /\
  hostsOnly "tutorial:step-change" (run [Start zeroTour] blankWorld) /\
  noFallbackPending (run [Start zeroTour] blankWorld) /\
  Forall passive [AdvanceTime 5000; Next; UpdateTargetRect; AdvanceTime 86400000] /\
  isWaitingForAction
    (run [AdvanceTime 5000; Next; UpdateTargetRect; AdvanceTime 86400000]
       (goToStep 1 (run [Start zeroTour] blankWorld)).1) = true.
Proof.
  assert (Hh : hostsOnly "tutorial:step-change" (run [Start zeroTour] blankWorld)).
  { intros hs H. vm_compute in H. discriminate. }
  assert (Hq : noFallbackPending (run [Start zeroTour] blankWorld)) by constructor.
  assert (Hp : Forall passive [AdvanceTime 5000; Next; UpdateTargetRect; AdvanceTime 86400000])
    by (repeat constructor).
  split; [reflexivity|]. split; [reflexivity|]. split; [exact Hh|].
  split; [exact Hq|]. split; [exact Hp|].
  apply (zero_timeout_schedules_nothing (run [Start zeroTour] blankWorld) zeroTour 1
           (waitingStep "act" "clicked" (Some 0))
           {| event := "clicked"; wait_target := None; timeout := Some 0 |}
           [AdvanceTime 5000; Next; UpdateTargetRect; AdvanceTime 86400000]
           eq_refl eq_refl eq_refl eq_refl);
    [reflexivity | discriminate | exact Hh | exact Hq | exact Hp].
Defined.

(** C10, the code at work: step [b] declares [timeout: 0] and schedules
    nothing, but the fallback of step [a] is still pending when [b] is
    entered.  After the 1000 ms of [a] the gate of [b] is open, though
    ["e"] was not published and nobody navigated or closed. *)
Theorem zero_timeout_gate_opened_by_earlier_fallback :
  currentStep (run [Start timedThenZero; TriggerAction "x" NoData; Next] blankWorld)
    = Some (waitingStep "b" "e" (Some 0)) /\
  timers (run [Start timedThenZero; TriggerAction "x" NoData; Next] blankWorld)
    = [(1000, ActionTimeout "x" (ActionHandler 0 "x"))] /\
  isWaitingForAction (run [Start timedThenZero; TriggerAction "x" NoData; Next] blankWorld)
    = true /\
  currentStep
    (run [Start timedThenZero; TriggerAction "x" NoData; Next; AdvanceTime 1000] blankWorld)
    = Some (waitingStep "b" "e" (Some 0)) /\
  isWaitingForAction
    (run [Start timedThenZero; TriggerAction "x" NoData; Next; AdvanceTime 1000] blankWorld)
    = false /\
  emitted "e"
    (trace (run [Start timedThenZero; TriggerAction "x" NoData; Next; AdvanceTime 1000]
              blankWorld))
    = false.
Proof. vm_compute. repeat split. Qed.

(** * Further properties of the engine *)

(** ** Moving between steps *)

Lemma invoke_world (role : CallbackRole) (f : option Callback) (w : World) :
  invoke role f w =
    match f with
    | Some cb =>
        (observe (CallbackInvoked role cb) w,
         match cb_throws cb with
         | Some message => Throw (HostError message)
         | None => Ok tt
         end)
    | None => (w, Ok tt)
    end.
Proof.
  destruct f as [cb|]; [|reflexivity].
  unfold invoke, mbind, M_bind, modify. simpl. destruct (cb_throws cb); reflexivity.
Qed.

Lemma cleanup_currentStep (w : World) : currentStep (cleanupActionListener w) = currentStep w.
Proof.
  unfold cleanupActionListener, off, currentStep.
  destruct (currentActionHandler w) as [[ev h]|]; [|reflexivity].
  destruct (eventBus w !! ev); reflexivity.
Qed.

(** The body of [goToStep] between the clean-up and [onEnter], once
    [onExit] has returned. *)
Lemma transition_unfold (index : Z) (step : TutorialStep) (w : World) :
  transition index step w =
    match invoke OnExit (currentStep w ≫= onExit) (cleanupActionListener w) with
    | (w1, Ok _) =>
        invoke OnEnter (onEnter step)
          (scrollToStep step
             (updateTargetRect
                (set_isWaitingForAction false (set_currentStepIndex index w1))))
    | (w1, Throw e) => (w1, Throw e)
    end.
Proof.
  unfold transition, mbind, M_bind, modify, gets. simpl.
  rewrite cleanup_currentStep.
  destruct (invoke OnExit (currentStep w ≫= onExit) (cleanupActionListener w))
    as [w1 [[]|e]]; reflexivity.
Qed.

Lemma stepAt_currentStep (w : World) (c : TutorialConfig) (step : TutorialStep) :
  config w = Some c -> stepAt c (currentStepIndex w) = Some step ->
  currentStep w = Some step.
Proof.
  intros Hc Hs. unfold currentStep. rewrite Hc.
  destruct (decide (currentStepIndex w < 0)) as [Hneg|]; [|exact Hs].
  unfold stepAt in Hs. destruct (decide (0 <= currentStepIndex w)); [lia | discriminate].
Qed.

Lemma stepAt_bounds (c : TutorialConfig) (index : Z) :
  is_Some (stepAt c index) <-> 0 <= index < Z.of_nat (length (steps c)).
Proof.
  unfold stepAt. destruct (decide (0 <= index)) as [Hpos|Hneg].
  - rewrite lookup_lt_is_Some. lia.
  - split; [intros [s Hs]; discriminate | lia].
Qed.

Lemma scrollToStep_rect (step : TutorialStep) (w : World) :
  targetRect (scrollToStep step w) = targetRect w.
Proof. frame. Qed.

Lemma scrollToStep_document (step : TutorialStep) (w : World) :
  document (scrollToStep step w) = document w.
Proof. frame. Qed.

Lemma emit_targetRect ev data w : targetRect (emit ev data w).1 = targetRect w.
Proof. apply (emit_depth_same targetRect); reflexivity. Qed.

Lemma emit_lowered ev data w : lowered w (emit ev data w).1.
Proof. apply emit_calm. Qed.

Lemma arrive (index : Z) (step : TutorialStep) (c : TutorialConfig) (w1 : World) :
  config w1 = Some c -> stepAt c index = Some step ->
  let w2 := scrollToStep step
              (updateTargetRect
                 (set_isWaitingForAction false (set_currentStepIndex index w1))) in
  config w2 = Some c /\ currentStepIndex w2 = index /\
  targetRect w2 = truthy (target step) ≫= (fun s => document w1 !! s) /\
  isWaitingForAction w2 = false.
Proof.
  intros Hc Hs w2.
  assert (Hcur : currentStep (set_isWaitingForAction false (set_currentStepIndex index w1))
                 = Some step).
  { apply (stepAt_currentStep _ c); [exact Hc | exact Hs]. }
  repeat split.
  - rewrite <- Hc. unfold w2. frame.
  - unfold w2. frame.
  - unfold w2. rewrite scrollToStep_rect. unfold updateTargetRect. rewrite Hcur.
    destruct (truthy (target step)); reflexivity.
  - unfold w2. frame.
Qed.

(** What the first part of [goToStep] has done when [onExit] and [onEnter]
    have returned. *)
Lemma transition_landed (index : Z) (w : World) (c : TutorialConfig) (step : TutorialStep) :
  config w = Some c -> stepAt c index = Some step -> (transition index step w).2 = Ok tt ->
  config (transition index step w).1 = Some c /\
  currentStepIndex (transition index step w).1 = index /\
  targetRect (transition index step w).1
    = truthy (target step) ≫= (fun s => document w !! s) /\
  isWaitingForAction (transition index step w).1 = false.
Proof.
  intros Hc Hs. rewrite transition_unfold, !invoke_world.
  assert (Hd : document (cleanupActionListener w) = document w) by frame.
  assert (Hc0 : config (cleanupActionListener w) = Some c) by (rewrite <- Hc; frame).
  rewrite <- Hd.
  destruct (currentStep w ≫= onExit) as [cb|]; [destruct (cb_throws cb)|];
    try discriminate; rewrite invoke_world;
    destruct (onEnter step) as [cb'|]; intros _;
    first [ exact (arrive index step c _ Hc0 Hs)
          | exact (arrive index step c (observe _ _) Hc0 Hs) ].
Qed.

(** What [goToStep] has done when it returns. *)
Lemma goToStep_landed (index : Z) (w : World) (c : TutorialConfig) (step : TutorialStep) :
  config w = Some c -> stepAt c index = Some step -> (goToStep index w).2 = Ok tt ->
  config (goToStep index w).1 = Some c /\
  currentStepIndex (goToStep index w).1 = index /\
  currentStep (goToStep index w).1 = Some step /\
  targetRect (goToStep index w).1 = truthy (target step) ≫= (fun s => document w !! s) /\
  (waitForAction step = None -> isWaitingForAction (goToStep index w).1 = false).
Proof.
  intros Hc Hs Hok.
  destruct (goToStep_entered index w c step Hc Hs Hok) as [Ht E].
  destruct (transition_landed index w c step Hc Hs Ht) as (Tc & Ti & Tr & Tw).
  assert (Hi : forall x, currentStepIndex (waitIfNeeded step x) = currentStepIndex x) by frame.
  assert (Hr : forall x, targetRect (waitIfNeeded step x) = targetRect x) by frame.
  assert (Gc : config (goToStep index w).1 = Some c) by (rewrite goToStep_config; exact Hc).
  assert (Gi : currentStepIndex (goToStep index w).1 = index).
  { rewrite E, emit_currentStepIndex, Hi. exact Ti. }
  repeat split; auto.
  - apply (stepAt_currentStep _ c); [exact Gc | rewrite Gi; exact Hs].
  - rewrite E, emit_targetRect, Hr. exact Tr.
  - intros Hnone. rewrite E. apply emit_lowered.
    unfold waitIfNeeded. rewrite Hnone. exact Tw.
Qed.



(** X3: An index outside the steps is refused without a trace: below zero, at
    or beyond the number of steps, or any index when no tour is configured,
    [goToStep] returns and nothing has changed. *)
Theorem goToStep_outside_the_tour (index : Z) (w : World) :
  index < 0 \/ totalSteps w <= index -> goToStep index w = (w, Ok tt).
Proof.
  intros Hout. unfold totalSteps in Hout. destruct (config w) as [c|] eqn:Hc.
  - apply (goToStep_out_of_range index c); [exact Hc|].
    destruct (stepAt c index) as [s|] eqn:Hs; [|reflexivity].
    assert (Hb : is_Some (stepAt c index)) by (rewrite Hs; eauto).
    apply stepAt_bounds in Hb. lia.
  - apply goToStep_idle, Hc.
Qed.

Lemma goToStep_outside_the_tour_witness :
  (2 < 0 \/ totalSteps (run [Start tourA] blankWorld) <= 2) /\
  goToStep 2 (run [Start tourA] blankWorld) = (run [Start tourA] blankWorld, Ok tt).
Proof.
  split; [right; vm_compute; discriminate|].
  apply (goToStep_outside_the_tour 2 (run [Start tourA] blankWorld)).
  right. vm_compute. discriminate.
Defined.

Lemma transition_index (index : Z) (step : TutorialStep) (w : World) :
  currentStepIndex (transition index step w).1 = currentStepIndex w \/
  currentStepIndex (transition index step w).1 = index.
Proof.
  rewrite transition_unfold, !invoke_world.
  assert (Hi : currentStepIndex (cleanupActionListener w) = currentStepIndex w) by frame.
  assert (Hs : forall x, currentStepIndex (scrollToStep step x) = currentStepIndex x) by frame.
  assert (Hu : forall x, currentStepIndex (updateTargetRect x) = currentStepIndex x) by frame.
  destruct (currentStep w ≫= onExit) as [cb|]; [destruct (cb_throws cb)|];
    try (left; exact Hi);
    rewrite invoke_world; right; destruct (onEnter step); simpl; rewrite Hs, Hu; reflexivity.
Qed.

Lemma goToStep_index (index : Z) (w : World) (c : TutorialConfig) :
  config w = Some c ->
  currentStepIndex (goToStep index w).1 = currentStepIndex w \/
  (currentStepIndex (goToStep index w).1 = index /\ is_Some (stepAt c index)).
Proof.
  intros Hc. destruct (stepAt c index) as [step|] eqn:Hs.
  - rewrite (goToStep_unfold index w c step Hc Hs).
    unfold mbind, M_bind, modify.
    pose proof (transition_index index step w) as Ht.
    destruct (transition index step w) as [w1 [[]|e]]; simpl in *.
    + rewrite emit_currentStepIndex.
      assert (Hw : currentStepIndex (waitIfNeeded step w1) = currentStepIndex w1) by frame.
      rewrite Hw. destruct Ht as [Ht|Ht]; [left; exact Ht | right; eauto].
    + destruct Ht as [Ht|Ht]; [left; exact Ht | right; eauto].
  - left. rewrite (goToStep_out_of_range index c w Hc Hs). reflexivity.
Qed.

(** ** The index stays inside the tour *)

Lemma invariant_preorder (I : World -> Prop) : PreOrder (fun a b : World => I a -> I b).
Proof. split; [intros a H; exact H | intros a b c Hab Hbc H; auto]. Qed.

Lemma inRange_same (a b : World) :
  config b = config a -> currentStepIndex b = currentStepIndex a -> isActive b = isActive a ->
  inRange a -> inRange b.
Proof. unfold inRange. intros -> -> ->. auto. Qed.

Lemma inRange_calm (a b : World) : calm a b -> inRange a -> inRange b.
Proof. intros (Hc & Ha & Hi & _). apply inRange_same; assumption. Qed.

Lemma goToStep_inRange (index : Z) (w : World) : inRange w -> inRange (goToStep index w).1.
Proof.
  intros Hr. unfold inRange in *.
  rewrite goToStep_config, goToStep_isActive.
  destruct (config w) as [c|] eqn:Hc.
  - destruct Hr as [Ha Hi]. split; [exact Ha|].
    destruct (goToStep_index index w c Hc) as [E|[E Hs]].
    + rewrite E. exact Hi.
    + rewrite E. right. apply stepAt_bounds, Hs.
  - rewrite (goToStep_idle index w Hc). exact Hr.
Qed.

Lemma start_isActive (c : TutorialConfig) (w : World) : isActive (start c w).1 = true.
Proof.
  destruct (start_unfold c w) as (w0 & -> & _ & _ & Ha & _).
  pose proof (emit_isActive "tutorial:start" NoData w0) as Ea.
  destruct (emit "tutorial:start" NoData w0) as [w1 [[]|e]]; simpl in *.
  - rewrite goToStep_isActive. congruence.
  - congruence.
Qed.

Lemma start_index (c : TutorialConfig) (w : World) : currentStepIndex (start c w).1 = 0.
Proof.
  destruct (start_unfold c w) as (w0 & -> & Hc & Hi & _).
  pose proof (emit_currentStepIndex "tutorial:start" NoData w0) as Ei.
  pose proof (emit_config "tutorial:start" NoData w0) as Ec.
  destruct (emit "tutorial:start" NoData w0) as [w1 [[]|e]]; simpl in *.
  - destruct (goToStep_index 0 w1 c) as [E|[E _]]; congruence.
  - congruence.
Qed.

Lemma close_inRange (w : World) : inRange w -> inRange (close w).1.
Proof.
  refine (@close_preserves (fun a b => inRange a -> inRange b) (invariant_preorder _)
            _ _ _ _ _ _ _ _ w);
    cbv beta; intros; try (apply (inRange_same w0); [frame | frame | frame | assumption]).
  unfold inRange, resetState. simpl. split; reflexivity.
Qed.

Lemma complete_inRange (w : World) : inRange w -> inRange (complete w).1.
Proof.
  refine (@complete_preserves (fun a b => inRange a -> inRange b) (invariant_preorder _)
            _ _ _ _ _ _ _ _ _ _ w);
    cbv beta; intros; try (apply (inRange_same w0); [frame | frame | frame | assumption]).
  unfold inRange, resetState. simpl. split; reflexivity.
Qed.

Lemma advance_inRange (dt : Z) (w : World) : inRange w -> inRange (advanceTimersByTime dt w).
Proof.
  refine (@advance_preserves (fun a b => inRange a -> inRange b) (invariant_preorder _)
            _ _ _ dt w);
    cbv beta; intros; apply (inRange_same w0); first [frame | assumption].
Qed.

Lemma after_inRange (op : Op) (w : World) : inRange w -> inRange (after op w).
Proof.
  intros Hr. unfold after. destruct op; simpl.
  - unfold inRange. rewrite start_config, start_isActive, start_index. auto.
  - unfold next. destruct (canGoNext w); [apply goToStep_inRange, Hr | exact Hr].
  - unfold previous. destruct (canGoPrevious w); [apply goToStep_inRange, Hr | exact Hr].
  - apply goToStep_inRange, Hr.
  - unfold skipTo, mbind, M_bind, gets. simpl. destruct (config w) as [c|] eqn:Hc; [|exact Hr].
    destruct (decide _); [apply goToStep_inRange, Hr | exact Hr].
  - apply complete_inRange, Hr.
  - apply close_inRange, Hr.
  - revert Hr. apply inRange_same; frame.
  - exact (inRange_calm _ _ (emit_calm _ _ w) Hr).
  - exact (inRange_calm _ _ (emit_calm _ _ w) Hr).
  - revert Hr. apply inRange_same; frame.
  - revert Hr. apply inRange_same; frame.
  - exact Hr.
  - apply advance_inRange, Hr.
  - exact Hr.
Qed.

Lemma run_inRange (ops : list Op) : forall w, inRange w -> inRange (run ops w).
Proof.
  induction ops as [|op ops IH]; intros w Hr; simpl; [exact Hr|].
  apply IH, after_inRange, Hr.
Qed.

(** ** Calls that overlap *)

(** What the parts of a call touch follows, as for whole calls, from what
    the elementary updates touch. *)
Section Overlap.
Context (R : relation World) `{!PreOrder R}.

Hypothesis R_invoked : forall h d w, R w (observe (HandlerInvoked h d) w).
Hypothesis R_emitted : forall ev d w, R w (observe (Emitted ev d) w).
Hypothesis R_called : forall role cb w, R w (observe (CallbackInvoked role cb) w).
Hypothesis R_lower : forall w, R w (set_isWaitingForAction false w).
Hypothesis R_off : forall e h w, R w (off e h w).
Hypothesis R_forget : forall w, R w (set_currentActionHandler None w).
Hypothesis R_index : forall i w, R w (set_currentStepIndex i w).
Hypothesis R_update : forall w, R w (updateTargetRect w).
Hypothesis R_scroll : forall step w, R w (scrollToStep step w).
Hypothesis R_wait : forall step w, R w (waitIfNeeded step w).

Lemma goToStep_afterEnter_preserves (index : Z) (step : TutorialStep) :
  preserves R (goToStep_afterEnter index step).
Proof. unfold goToStep_afterEnter. preserves_tac. Qed.

Lemma goToStep_afterTick_preserves (index : Z) (step : TutorialStep) :
  preserves R (goToStep_afterTick index step).
Proof.
  unfold goToStep_afterTick.
  repeat first [apply goToStep_afterEnter_preserves | preserves_step]; auto.
Qed.

Lemma goToStep_afterExit_preserves (index : Z) (step : TutorialStep) :
  preserves R (goToStep_afterExit index step).
Proof. unfold goToStep_afterExit. preserves_tac. Qed.

Lemma resume_preserves (k : Continuation) : preserves R (resume k).
Proof.
  destruct k; simpl;
    [ apply goToStep_afterExit_preserves | apply goToStep_afterTick_preserves
    | apply goToStep_afterEnter_preserves ].
Qed.

Lemma goToStep_begin_preserves (index : Z) : preserves R (goToStep_begin index).
Proof.
  unfold goToStep_begin.
  repeat first [apply goToStep_afterExit_preserves | preserves_step]; auto.
  unfold cleanupActionListener. destruct (currentActionHandler _) as [[ev h]|].
  - etransitivity; [apply R_off | apply R_forget].
  - reflexivity.
Qed.

Lemma next_begin_preserves : preserves R next_begin.
Proof.
  intros w. unfold next_begin.
  destruct (canGoNext w); [apply goToStep_begin_preserves | reflexivity].
Qed.

Lemma previous_begin_preserves : preserves R previous_begin.
Proof.
  intros w. unfold previous_begin.
  destruct (canGoPrevious w); [apply goToStep_begin_preserves | reflexivity].
Qed.

Lemma skipTo_begin_preserves (stepId : string) : preserves R (skipTo_begin stepId).
Proof. unfold skipTo_begin. preserves_tac; apply goToStep_begin_preserves. Qed.

Lemma start_begin_preserves (c : TutorialConfig) :
  (forall w, R w (set_config (Some c) w)) ->
  (forall w, R w (set_isActive true w)) ->
  (forall line w, R w (consoleLog line w)) ->
  preserves R (start_begin c).
Proof.
  intros R_config R_active R_log. unfold start_begin.
  repeat first [apply goToStep_begin_preserves | preserves_step]; auto.
Qed.

(** A move keeps what the beginning of every call and every resumption
    keeps. *)
Lemma move_preserves (m : Move) (s : Engine) :
  (forall op, preserves R (begin op)) -> R s.1 (move m s).1.
Proof.
  intros Hbegin. destruct s as [w pending]. destruct m as [op|n|n]; simpl.
  - pose proof (Hbegin op w) as H. unfold suspend.
    destruct (begin op w) as [w' [[k|]|e]]; exact H.
  - destruct (pending !! n) as [k|]; [|reflexivity].
    pose proof (resume_preserves k w) as H. unfold suspend.
    destruct (resume k w) as [w' [[k'|]|e]]; exact H.
  - destruct (pending !! n) as [[]|]; reflexivity.
Qed.
End Overlap.

Lemma begin_preserves (R : relation World) `{!PreOrder R} (op : Op) :
  preserves R (perform op) ->
  (forall c, op = Start c -> preserves R (start_begin c)) ->
  (forall index, preserves R (goToStep_begin index)) ->
  preserves R (begin op).
Proof.
  intros Hperform Hstart Hgo.
  assert (Hsync : preserves R (perform op ;; mret None : M (option Continuation))).
  { apply preserves_bind; [apply _ | exact Hperform | intros _; apply preserves_ret, _]. }
  destruct op; try exact Hsync; simpl.
  - apply Hstart. reflexivity.
  - intros w. unfold next_begin. destruct (canGoNext w); [apply Hgo | reflexivity].
  - intros w. unfold previous_begin. destruct (canGoPrevious w); [apply Hgo | reflexivity].
  - apply Hgo.
  - unfold skipTo_begin.
    apply preserves_bind; [apply _ | apply preserves_gets, _ | intros [c|]];
      [|apply preserves_ret, _].
    destruct (decide _); [apply Hgo | apply preserves_ret, _].
Qed.

(** ** A call that is awaited is a call of the sequential engine *)

Lemma suspend_world (r : World * Result (option Continuation))
    (pending : list Continuation) : (suspend r pending).1 = r.1.
Proof. unfold suspend. destruct r as [w [[k|]|e]]; reflexivity. Qed.

Lemma goToStep_afterExit_unfold (index : Z) (step : TutorialStep) (w : World) :
  goToStep_afterExit index step w
  = (set_isWaitingForAction false (set_currentStepIndex index w),
     Ok (Some (AfterTick index step))).
Proof. reflexivity. Qed.

Lemma goToStep_afterEnter_unfold (index : Z) (step : TutorialStep) (w : World) :
  goToStep_afterEnter index step w
  = match emit "tutorial:step-change" (StepChange step index) (waitIfNeeded step w) with
    | (w', Ok _) => (w', Ok None)
    | (w', Throw e) => (w', Throw e)
    end.
Proof.
  unfold goToStep_afterEnter, mbind, M_bind, modify. simpl.
  destruct (emit "tutorial:step-change" (StepChange step index) (waitIfNeeded step w))
    as [w' [[]|e]]; reflexivity.
Qed.

Lemma goToStep_afterTick_unfold (index : Z) (step : TutorialStep) (w : World) :
  goToStep_afterTick index step w
  = match onEnter step with
    | Some cb =>
        (observe (CallbackInvoked OnEnter cb) (scrollToStep step (updateTargetRect w)),
         match cb_throws cb with
         | Some message => Throw (HostError message)
         | None => Ok (Some (AfterEnter index step))
         end)
    | None => goToStep_afterEnter index step (scrollToStep step (updateTargetRect w))
    end.
Proof.
  unfold goToStep_afterTick, mbind, M_bind, modify. simpl.
  destruct (onEnter step) as [cb|]; [|reflexivity].
  unfold invoke, mbind, M_bind, modify. simpl. destruct (cb_throws cb); reflexivity.
Qed.

Lemma goToStep_begin_unfold (index : Z) (w : World) (c : TutorialConfig)
    (step : TutorialStep) :
  config w = Some c -> stepAt c index = Some step ->
  goToStep_begin index w
  = match currentStep w ≫= onExit with
    | Some cb =>
        (observe (CallbackInvoked OnExit cb) (cleanupActionListener w),
         match cb_throws cb with
         | Some message => Throw (HostError message)
         | None => Ok (Some (AfterExit index step))
         end)
    | None => goToStep_afterExit index step (cleanupActionListener w)
    end.
Proof.
  intros Hc Hs. unfold goToStep_begin, mbind, M_bind, modify, gets. simpl.
  rewrite Hc, Hs. simpl. rewrite cleanup_currentStep.
  destruct (currentStep w) as [s|]; simpl; [|reflexivity].
  destruct (onExit s) as [cb|]; simpl; [|reflexivity].
  unfold mbind, M_bind, modify. simpl. destruct (cb_throws cb); reflexivity.
Qed.

Lemma goToStep_then (index : Z) (w : World) (c : TutorialConfig) (step : TutorialStep) :
  config w = Some c -> stepAt c index = Some step ->
  goToStep index w
  = match transition index step w with
    | (w1, Ok _) =>
        (modify (waitIfNeeded step) ;;
         emit "tutorial:step-change" (StepChange step index)) w1
    | (w1, Throw e) => (w1, Throw e)
    end.
Proof.
  intros Hc Hs. rewrite (goToStep_unfold index w c step Hc Hs).
  unfold mbind at 1, M_bind at 1.
  destruct (transition index step w) as [w1 [[]|e]]; reflexivity.
Qed.

(** A call of [goToStep] that nothing interrupts has settled after three
    resumptions at most, and has then done what [goToStep] does. *)
Lemma goToStep_settles (index : Z) (w : World) (pending : list Continuation) :
  pending = [] ->
  play [Resume 0; Resume 0; Resume 0]%nat (suspend (goToStep_begin index w) pending)
  = ((goToStep index w).1, []).
Proof.
  intros ->. destruct (config w) as [c|] eqn:Hc.
  2:{ rewrite goToStep_begin_idle, goToStep_idle by auto. reflexivity. }
  destruct (stepAt c index) as [step|] eqn:Hs.
  2:{ rewrite goToStep_begin_idle by eauto.
      rewrite (goToStep_out_of_range index c w Hc Hs). reflexivity. }
  rewrite (goToStep_begin_unfold index w c step Hc Hs).
  rewrite (goToStep_then index w c step Hc Hs).
  rewrite transition_unfold, invoke_world.
  assert (Tail : forall w1,
    play [Resume 0; Resume 0]%nat (w1, [AfterTick index step])
    = ((match invoke OnEnter (onEnter step) (scrollToStep step (updateTargetRect w1)) with
        | (w2, Ok _) =>
            (modify (waitIfNeeded step) ;;
             emit "tutorial:step-change" (StepChange step index)) w2
        | (w2, Throw e) => (w2, Throw e)
        end).1, [])).
  { intros w1. unfold play. cbn [fold_left move lookup list_lookup snd fst resume].
    rewrite goToStep_afterTick_unfold, invoke_world.
    destruct (onEnter step) as [cb|].
    - destruct (cb_throws cb); [reflexivity|].
      unfold suspend. cbn [snd fst delete list_delete app move lookup list_lookup resume].
      rewrite goToStep_afterEnter_unfold.
      unfold mbind, M_bind, modify. cbn [fst snd].
      destruct (emit _ _ _) as [w3 [[]|e]]; reflexivity.
    - rewrite goToStep_afterEnter_unfold.
      unfold mbind, M_bind, modify. cbn [fst snd].
      destruct (emit _ _ _) as [w3 [[]|e]]; reflexivity. }
  destruct (currentStep w ≫= onExit) as [cb|].
  - destruct (cb_throws cb); [reflexivity|].
    unfold suspend. cbn [snd fst app].
    change (play [Resume 0; Resume 0; Resume 0]%nat ?s)
      with (play [Resume 0; Resume 0]%nat (move (Resume 0) s)).
    cbn [move lookup list_lookup snd fst resume delete list_delete].
    rewrite goToStep_afterExit_unfold. unfold suspend. cbn [snd fst app].
    rewrite Tail. destruct (invoke OnEnter _ _) as [w2 [[]|e]]; reflexivity.
  - rewrite goToStep_afterExit_unfold. unfold suspend. cbn [snd fst app].
    change (play [Resume 0; Resume 0; Resume 0]%nat ?s)
      with (play [Resume 0]%nat (play [Resume 0; Resume 0]%nat s)).
    rewrite Tail.
    destruct (invoke OnEnter _ _) as [w2 [[]|e]]; reflexivity.
Qed.

Lemma play_nothing (moves : list Move) (w : World) :
  Forall (fun m => exists n, m = Resume n \/ m = Reject n) moves ->
  play moves (w, []) = (w, []).
Proof.
  induction 1 as [|m moves (n & [->| ->]) _ IH]; [reflexivity | |]; simpl; exact IH.
Qed.

(** A call that nothing interrupts has settled after three resumptions at
    most, and has then done what the operation does when it is awaited. *)
Lemma play_call (op : Op) (w : World) :
  play [Call op; Resume 0; Resume 0; Resume 0]%nat (w, []) = (after op w, []).
Proof.
  assert (Hsync : forall m : M unit,
            play [Resume 0; Resume 0; Resume 0]%nat
              (suspend ((m ;; mret None : M (option Continuation)) w) [])
            = ((m w).1, [])).
  { intros m. unfold mbind, M_bind, suspend. destruct (m w) as [w' [[]|e]]; reflexivity. }
  assert (Hidle : forall w', play [Resume 0; Resume 0; Resume 0]%nat (w', []) = (w', [])).
  { reflexivity. }
  change (play [Call op; Resume 0; Resume 0; Resume 0]%nat (w, []))
    with (play [Resume 0; Resume 0; Resume 0]%nat (suspend (begin op w) [])).
  unfold after. destruct op; try apply Hsync; cbn [begin perform].
  - destruct (start_begin_exact c w) as (w1 & _ & -> & ->).
    unfold mbind, M_bind.
    destruct (emit "tutorial:start" NoData w1) as [w2 [[]|e]]; [|reflexivity].
    apply goToStep_settles. reflexivity.
  - unfold next_begin, next. destruct (canGoNext w); [|reflexivity].
    apply goToStep_settles. reflexivity.
  - unfold previous_begin, previous. destruct (canGoPrevious w); [|reflexivity].
    apply goToStep_settles. reflexivity.
  - apply goToStep_settles. reflexivity.
  - unfold skipTo_begin, skipTo, mbind, M_bind, gets. cbn [fst snd].
    destruct (config w) as [c|]; [|reflexivity].
    destruct (decide _); [|reflexivity].
    apply goToStep_settles. reflexivity.
Qed.

Lemma play_app (l1 l2 : list Move) (s : Engine) :
  play (l1 ++ l2) s = play l2 (play l1 s).
Proof. apply fold_left_app. Qed.

Lemma awaited_app (l1 l2 : list Move) : forall s,
  awaited (l1 ++ l2) s = awaited l1 s && awaited l2 (play l1 s).
Proof.
  induction l1 as [|m l1 IH]; intros s; simpl; [reflexivity|].
  rewrite IH, andb_assoc. reflexivity.
Qed.

(** The runs of the sequential engine are the plays in which each call is
    awaited before the next. *)
Lemma play_inTurn (ops : list Op) : forall w,
  play (inTurn ops) (w, []) = (run ops w, []) /\
  awaited (inTurn ops) (w, []) = true.
Proof.
  induction ops as [|op ops IH]; intros w; [split; reflexivity|].
  change (inTurn (op :: ops))
    with ([Call op; Resume 0; Resume 0; Resume 0]%nat ++ inTurn ops).
  rewrite play_app, awaited_app, play_call.
  destruct (IH (after op w)) as [E A]. split; [exact E|].
  rewrite A, andb_true_r. reflexivity.
Qed.

Lemma run_orderly (ops : list Op) (storage : gmap string string)
    (page : gmap string DOMRect) (height y : Q) :
  orderly (run ops (freshWorld storage page height y)).
Proof.
  exists storage, page, height, y, (inTurn ops).
  destruct (play_inTurn ops (freshWorld storage page height y)) as [E A].
  split; [exact A | rewrite E; reflexivity].
Qed.

Lemma orderly_reachable (w : World) : orderly w -> reachable w.
Proof. intros (storage & page & height & y & moves & _ & E). repeat eexists. exact E. Qed.

Lemma run_reachable (ops : list Op) (storage : gmap string string)
    (page : gmap string DOMRect) (height y : Q) :
  reachable (run ops (freshWorld storage page height y)).
Proof. apply orderly_reachable, run_orderly. Qed.

(** ** What overlapping calls keep *)

#[global] Instance toward_preorder (i : Z) : PreOrder (toward i).
Proof.
  split.
  - intros w. unfold toward. auto.
  - intros a b c (Hc1 & Ha1 & Hi1) (Hc2 & Ha2 & Hi2). unfold toward.
    split; [congruence|]. split; [congruence|].
    destruct Hi2 as [Hi2|Hi2]; [rewrite Hi2; exact Hi1 | right; exact Hi2].
Qed.

Lemma position_toward (i : Z) (a b : World) : sameOn position a b -> toward i a b.
Proof. unfold sameOn, position, toward. intros [= Hc Ha Hi]. auto. Qed.

Lemma emit_position (ev : string) (data : Payload) (w : World) :
  position (emit ev data w).1 = position w.
Proof. apply (emit_depth_same position); reflexivity. Qed.

Lemma goToStep_afterEnter_position (index : Z) (step : TutorialStep) (w : World) :
  position (goToStep_afterEnter index step w).1 = position w.
Proof.
  apply (goToStep_afterEnter_preserves (sameOn position)); unfold sameOn; frame.
Qed.

Lemma goToStep_afterTick_position (index : Z) (step : TutorialStep) (w : World) :
  position (goToStep_afterTick index step w).1 = position w.
Proof.
  apply (goToStep_afterTick_preserves (sameOn position)); unfold sameOn; frame.
Qed.

Lemma resume_toward (k : Continuation) (w : World) :
  toward (continuationIndex k) w (resume k w).1.
Proof.
  destruct k as [i step|i step|i step]; simpl.
  - unfold toward. simpl. auto.
  - apply position_toward, goToStep_afterTick_position.
  - apply position_toward, goToStep_afterEnter_position.
Qed.

Lemma resume_index (k k' : Continuation) (w : World) :
  (resume k w).2 = Ok (Some k') -> continuationIndex k' = continuationIndex k.
Proof.
  destruct k as [i step|i step|i step]; simpl.
  - intros [= <-]. reflexivity.
  - rewrite goToStep_afterTick_unfold. destruct (onEnter step) as [cb|].
    + simpl. destruct (cb_throws cb); [discriminate|]. intros [= <-]. reflexivity.
    + rewrite goToStep_afterEnter_unfold.
      destruct (emit _ _ _) as [w' [[]|e]]; discriminate.
  - rewrite goToStep_afterEnter_unfold.
    destruct (emit _ _ _) as [w' [[]|e]]; discriminate.
Qed.

Lemma goToStep_begin_toward (index : Z) (w : World) :
  toward index w (goToStep_begin index w).1.
Proof.
  destruct (config w) as [c|] eqn:Hc.
  2:{ rewrite goToStep_begin_idle by auto. reflexivity. }
  destruct (stepAt c index) as [step|] eqn:Hs.
  2:{ rewrite goToStep_begin_idle by eauto. reflexivity. }
  rewrite (goToStep_begin_unfold index w c step Hc Hs).
  assert (Hp : position (cleanupActionListener w) = position w) by frame.
  destruct (currentStep w ≫= onExit) as [cb|].
  - apply position_toward. exact Hp.
  - etransitivity; [apply position_toward; exact Hp|].
    unfold toward. simpl. auto.
Qed.

(** A call of [goToStep] that stops is on its way to a step of the tour. *)
Lemma goToStep_begin_stops (index : Z) (w : World) (k : Continuation) :
  (goToStep_begin index w).2 = Ok (Some k) ->
  continuationIndex k = index /\
  exists c, config w = Some c /\ 0 <= index < Z.of_nat (length (steps c)).
Proof.
  destruct (config w) as [c|] eqn:Hc.
  2:{ rewrite goToStep_begin_idle by auto. discriminate. }
  destruct (stepAt c index) as [step|] eqn:Hs.
  2:{ rewrite goToStep_begin_idle by eauto. discriminate. }
  assert (Hb : 0 <= index < Z.of_nat (length (steps c))).
  { apply stepAt_bounds. rewrite Hs. eauto. }
  rewrite (goToStep_begin_unfold index w c step Hc Hs).
  destruct (currentStep w ≫= onExit) as [cb|]; simpl.
  - destruct (cb_throws cb); [discriminate|]. intros [= <-]. eauto.
  - intros [= <-]. eauto.
Qed.

Lemma bystander_position (op : Op) (w : World) :
  bystander op = true -> position (after op w) = position w.
Proof.
  unfold after. destruct op; try discriminate; intros _; simpl.
  - frame.
  - apply emit_position.
  - apply emit_position.
  - frame.
  - frame.
  - reflexivity.
  - apply (advance_preserves (sameOn position)); unfold sameOn; frame.
  - reflexivity.
Qed.

Lemma withinTour_same (a b : World) (k : Continuation) :
  config b = config a -> withinTour a k -> withinTour b k.
Proof. intros E (c & Hc & Hb). exists c. split; [congruence | exact Hb]. Qed.

Lemma inRange_toward (i : Z) (a b : World) (c : TutorialConfig) :
  toward i a b -> config a = Some c -> 0 <= i < Z.of_nat (length (steps c)) ->
  inRange a -> inRange b.
Proof.
  intros (Hc & Ha & Hi) E Hb. unfold inRange. rewrite Hc, Ha, E.
  intros [H1 H2]. split; [exact H1|].
  destruct Hi as [-> | ->]; [exact H2 | right; exact Hb].
Qed.

Lemma inRange_position (a b : World) : position b = position a -> inRange a -> inRange b.
Proof. unfold position. intros [= Hc Ha Hi]. apply inRange_same; assumption. Qed.

Lemma sound_suspend_goToStep (index : Z) (w : World) (pending : list Continuation) :
  sound (w, pending) -> sound (suspend (goToStep_begin index w) pending).
Proof.
  intros [Hr Hp]. simpl in Hr, Hp.
  pose proof (goToStep_begin_toward index w) as Ht.
  pose proof (goToStep_begin_stops index w) as Hk.
  assert (Hc : config (goToStep_begin index w).1 = config w) by apply Ht.
  assert (Hp' : Forall (withinTour (goToStep_begin index w).1) pending).
  { eapply Forall_impl; [exact Hp|]. intros k. apply withinTour_same, Hc. }
  destruct (config w) as [c|] eqn:E.
  2:{ rewrite goToStep_begin_idle by auto. split; assumption. }
  destruct (stepAt c index) as [step|] eqn:Hs.
  2:{ rewrite goToStep_begin_idle by eauto. split; assumption. }
  assert (Hb : 0 <= index < Z.of_nat (length (steps c))).
  { apply stepAt_bounds. rewrite Hs. eauto. }
  assert (Hr' : inRange (goToStep_begin index w).1).
  { apply (inRange_toward index w _ c); [exact Ht | exact E | exact Hb | exact Hr]. }
  unfold suspend, sound.
  destruct (goToStep_begin index w) as [w' [[k|]|e]]; simpl in *;
    try (split; assumption).
  split; [exact Hr'|]. apply Forall_app. split; [exact Hp'|].
  apply Forall_singleton. destruct (Hk k eq_refl) as (Hi & _).
  exists c. split; [exact Hc | rewrite Hi; exact Hb].
Qed.

Lemma sound_start (c : TutorialConfig) (w : World) : sound (suspend (start_begin c w) []).
Proof.
  destruct (start_begin_exact c w) as (w1 & Hcells & _ & ->).
  assert (P1 : position w1 = (Some c, true, 0)).
  { change (position (set_console (console w) w1) = (Some c, true, 0)).
    rewrite Hcells. reflexivity. }
  pose proof (emit_position "tutorial:start" NoData w1) as P2.
  unfold mbind, M_bind.
  destruct (emit "tutorial:start" NoData w1) as [w2 [[]|e]]; simpl in P2.
  - apply sound_suspend_goToStep. split; [|constructor].
    rewrite P1 in P2. unfold position in P2. injection P2 as Hc Ha Hi.
    unfold inRange. simpl. rewrite Hc. auto.
  - split; [|constructor]. rewrite P1 in P2. unfold position in P2.
    injection P2 as Hc Ha Hi. unfold inRange. simpl. rewrite Hc. auto.
Qed.

Lemma sound_sync (m : M unit) (w : World) (pending : list Continuation) :
  inRange (m w).1 -> Forall (withinTour (m w).1) pending ->
  sound (suspend ((m ;; mret None : M (option Continuation)) w) pending).
Proof.
  unfold mbind, M_bind, suspend, sound.
  destruct (m w) as [w' [[]|e]]; simpl; auto.
Qed.

(** A move that does not install or drop a configuration under a stopped
    call keeps the index, and the steps that the stopped calls are on their
    way to, within the tour. *)
Lemma move_sound (m : Move) (s : Engine) :
  unhurried m s.2 = true -> sound s -> sound (move m s).
Proof.
  destruct s as [w pending]. intros Hu Hs. destruct m as [op|n|n]; simpl in *.
  - destruct (bystander op) eqn:Hby.
    + assert (Hp : position (after op w) = position w) by (apply bystander_position, Hby).
      destruct Hs as [Hr Hw].
      assert (S : sound (suspend ((perform op ;; mret None : M (option Continuation)) w)
                           pending)).
      { apply sound_sync; [exact (inRange_position _ _ Hp Hr)|].
        eapply Forall_impl; [exact Hw|]. intros k. apply withinTour_same.
        unfold position in Hp. injection Hp as Hc _ _. exact Hc. }
      destruct op; try discriminate; exact S.
    + destruct op; try discriminate; cbn [begin].
      * destruct pending; [|discriminate]. apply sound_start.
      * unfold next_begin. destruct (canGoNext w);
          [apply sound_suspend_goToStep, Hs | exact Hs].
      * unfold previous_begin. destruct (canGoPrevious w);
          [apply sound_suspend_goToStep, Hs | exact Hs].
      * apply sound_suspend_goToStep, Hs.
      * unfold skipTo_begin, mbind, M_bind, gets. cbn [fst snd].
        destruct (config w) as [c|]; [|exact Hs].
        destruct (decide _); [apply sound_suspend_goToStep, Hs | exact Hs].
      * destruct pending; [|discriminate]. apply sound_sync; [|constructor].
        apply complete_inRange, Hs.
      * destruct pending; [|discriminate]. apply sound_sync; [|constructor].
        apply close_inRange, Hs.
  - destruct (pending !! n) as [k|] eqn:Hk; [|exact Hs]. destruct Hs as [Hr Hw].
    assert (Hin : withinTour w k).
    { rewrite Forall_lookup in Hw. exact (Hw n k Hk). }
    destruct Hin as (c & Hc & Hb).
    pose proof (resume_toward k w) as Ht.
    pose proof (resume_index k) as Hi.
    assert (Hc' : config (resume k w).1 = config w) by apply Ht.
    assert (Hr' : inRange (resume k w).1).
    { apply (inRange_toward (continuationIndex k) w _ c); assumption. }
    assert (Hw' : Forall (withinTour (resume k w).1) (delete n pending)).
    { apply Forall_delete. eapply Forall_impl; [exact Hw|].
      intros k0. apply withinTour_same, Hc'. }
    specialize (Hi) with (w := w). unfold suspend, sound.
    destruct (resume k w) as [w' [[k'|]|e]]; simpl in *; try (split; assumption).
    split; [exact Hr'|]. apply Forall_app. split; [exact Hw'|].
    apply Forall_singleton. exists c. split; [congruence|].
    rewrite (Hi k' eq_refl). exact Hb.
  - destruct (pending !! n) as [[]|]; try exact Hs;
      (split; [apply Hs | apply Forall_delete, Hs]).
Qed.

Lemma play_sound (moves : list Move) : forall s,
  awaited moves s = true -> sound s -> sound (play moves s).
Proof.
  induction moves as [|m moves IH]; intros s Ha Hs; simpl in *; [exact Hs|].
  apply andb_true_iff in Ha. destruct Ha as [Hu Ha].
  apply IH; [exact Ha | apply move_sound; assumption].
Qed.

Lemma orderly_inRange (w : World) : orderly w -> inRange w.
Proof.
  intros (storage & page & height & y & moves & Ha & ->).
  apply play_sound; [exact Ha|]. split; [split; reflexivity | constructor].
Qed.

(** ** Starting, seen from the calls that overlap *)







(** ** What calls that overlap can undo *)

(** [start] is called and [close] follows before the call has settled: the
    call goes on after the reset, and raises the waiting flag of an engine
    that holds no configuration; a second [close] finds no configuration
    and leaves the flag up. *)
Lemma close_under_a_stopped_start :
  let s := play [Call (Start gatedTour); Call Close; Resume 0; Call Close]%nat
             (blankWorld, []) in
  reachable s.1 /\ s.2 = [] /\ config s.1 = None /\ isActive s.1 = false /\
  isWaitingForAction s.1 = true /\ ~ idle s.1.
Proof.
  cbv zeta. split.
  { exists ∅, ∅, 768%Q, 0%Q,
      [Call (Start gatedTour); Call Close; Resume 0; Call Close]%nat. reflexivity. }
  split; [vm_compute; reflexivity|]. split; [vm_compute; reflexivity|].
  split; [vm_compute; reflexivity|]. split; [vm_compute; reflexivity|].
  intros (_ & _ & _ & _ & H). vm_compute in H. discriminate.
Qed.

(** [start] is called on a tour whose first step has an [onExit], and
    [close] follows while the call awaits it: the call goes on after the
    reset and sets the index of an engine that holds no configuration. *)
Lemma close_under_a_stopped_onExit :
  let s := play [Call (Start hookedTour); Call Close; Resume 0]%nat (blankWorld, []) in
  reachable s.1 /\ config s.1 = None /\ isActive s.1 = false /\
  currentStepIndex s.1 = 0.
Proof.
  cbv zeta. split.
  { exists ∅, ∅, 768%Q, 0%Q, [Call (Start hookedTour); Call Close; Resume 0]%nat.
    reflexivity. }
  vm_compute. repeat split.
Qed.

(** [goToStep(2)] awaits the [onExit] of the first step when a tour of one
    step is started: the call goes on under the new tour, and the index
    lies beyond its only step. *)
Lemma start_under_a_stopped_goToStep :
  let s := play (inTurn [Start hookedTour]
                   ++ [Call (GoToStep 2); Call (Start tourB); Resume 0; Resume 0;
                       Resume 0]%nat) (blankWorld, []) in
  reachable s.1 /\ s.2 = [] /\ config s.1 = Some tourB /\
  currentStepIndex s.1 = 2 /\ totalSteps s.1 = 1 /\ currentStep s.1 = None /\
  (progress s.1 == 300)%Q.
Proof.
  cbv zeta. split.
  { exists ∅, ∅, 768%Q, 0%Q,
      (inTurn [Start hookedTour]
         ++ [Call (GoToStep 2); Call (Start tourB); Resume 0; Resume 0; Resume 0]%nat).
    reflexivity. }
  vm_compute. repeat split.
Qed.

(** ** The index stays inside the tour, when the tour is not changed under
    a stopped call *)

(** X5: As long as [start], [complete] and [close] are called only when every
    earlier call of [start], [goToStep], [next], [previous] and [skipTo]
    has settled, a tour that has steps has a current step, at an index
    within the steps: at every moment, also while calls of [goToStep],
    [next], [previous] and [skipTo] overlap, timers fire and the page
    changes. *)
Theorem tour_with_steps_has_current_step (w : World) (c : TutorialConfig) :
  orderly w -> config w = Some c -> steps c <> [] ->
  0 <= currentStepIndex w < totalSteps w /\
  exists step, currentStep w = Some step /\
               steps c !! Z.to_nat (currentStepIndex w) = Some step.
Proof.
  intros Hr Hc Hne. apply orderly_inRange in Hr. unfold inRange in Hr.
  rewrite Hc in Hr. destruct Hr as [_ Hi].
  assert (Hlen : 0 < Z.of_nat (length (steps c))).
  { destruct (steps c); [contradiction | simpl; lia]. }
  assert (Hb : 0 <= currentStepIndex w < Z.of_nat (length (steps c))) by lia.
  split; [unfold totalSteps; rewrite Hc; exact Hb|].
  apply stepAt_bounds in Hb. destruct Hb as [step Hs].
  exists step. split.
  - apply (stepAt_currentStep _ c); assumption.
  - unfold stepAt in Hs. destruct (decide _); [exact Hs | discriminate].
Qed.

Lemma tour_with_steps_has_current_step_witness :
  orderly (play [Call (Start hookedTour); Call (GoToStep 2); Resume 0; Call Previous;
                 Resume 1; Call (AdvanceTime 500); Resume 0; Resume 1]%nat
             (blankWorld, [])).1 /\
  exists step,
    currentStep (play [Call (Start hookedTour); Call (GoToStep 2); Resume 0; Call Previous;
                       Resume 1; Call (AdvanceTime 500); Resume 0; Resume 1]%nat
                   (blankWorld, [])).1 = Some step.
Proof.
  assert (R : orderly (play [Call (Start hookedTour); Call (GoToStep 2); Resume 0;
                             Call Previous; Resume 1; Call (AdvanceTime 500); Resume 0;
                             Resume 1]%nat (blankWorld, [])).1).
  { exists ∅, ∅, 768%Q, 0%Q,
      [Call (Start hookedTour); Call (GoToStep 2); Resume 0; Call Previous; Resume 1;
       Call (AdvanceTime 500); Resume 0; Resume 1]%nat.
    split; [vm_compute; reflexivity | reflexivity]. }
  split; [exact R|].
  destruct (tour_with_steps_has_current_step _ hookedTour R)
    as [_ (step & Hs & _)]; [vm_compute; reflexivity | discriminate |].
  exists step. exact Hs.
Defined.



Lemma progress_range (i n : Z) :
  0 <= i + 1 <= n -> 0 < n ->
  (0 <= inject_Z (i + 1) / inject_Z n * 100 /\
   inject_Z (i + 1) / inject_Z n * 100 <= 100)%Q.
Proof.
  intros Hi Hn. destruct n as [|p|p]; try lia.
  unfold Qle, Qdiv, Qmult, Qinv, inject_Z. simpl. split; nia.
Qed.

(** X7: Under the same discipline the progress shown is a percentage: it lies
    between 0 and 100, and it is above 0 while a tour with steps is
    configured. *)
Theorem progress_is_a_percentage (w : World) :
  orderly w ->
  (0 <= progress w)%Q /\ (progress w <= 100)%Q /\
  (forall c, config w = Some c -> steps c <> [] -> (0 < progress w)%Q).
Proof.
  intros Hr. apply orderly_inRange in Hr. unfold inRange in Hr.
  unfold progress, totalSteps. destruct (config w) as [c|] eqn:Hc.
  - destruct Hr as [_ Hi].
    destruct (decide (Z.of_nat (length (steps c)) = 0)) as [Hz|Hnz].
    + split; [apply Qle_refl|]. split; [discriminate|].
      intros c' [= <-] Hne. destruct (steps c); [contradiction | discriminate].
    + assert (Hb : 0 <= currentStepIndex w + 1 <= Z.of_nat (length (steps c))) by lia.
      assert (Hn : 0 < Z.of_nat (length (steps c))) by lia.
      destruct (progress_range _ _ Hb Hn) as [H0 H1].
      split; [exact H0|]. split; [exact H1|].
      intros _ _ _. destruct (Z.of_nat (length (steps c))) as [|p|p]; try lia.
      unfold Qlt, Qdiv, Qmult, Qinv, inject_Z. simpl. nia.
  - simpl. split; [apply Qle_refl|]. split; [discriminate|]. intros c' H. discriminate.
Qed.

Lemma progress_is_a_percentage_witness :
  orderly (play [Call (Start tourA); Call Next; Call Next; Resume 1; Resume 0; Resume 0]%nat
             (blankWorld, [])).1 /\
  (progress (play [Call (Start tourA); Call Next; Call Next; Resume 1; Resume 0;
                   Resume 0]%nat (blankWorld, [])).1 <= 100)%Q.
Proof.
  assert (R : orderly (play [Call (Start tourA); Call Next; Call Next; Resume 1; Resume 0;
                             Resume 0]%nat (blankWorld, [])).1).
  { exists ∅, ∅, 768%Q, 0%Q,
      [Call (Start tourA); Call Next; Call Next; Resume 1; Resume 0; Resume 0]%nat.
    split; [vm_compute; reflexivity | reflexivity]. }
  split; [exact R|].
  apply (progress_is_a_percentage _ R).
Defined.

(** ** Next, previous and skipTo *)

Lemma totalSteps_config (w : World) (c : TutorialConfig) :
  config w = Some c -> totalSteps w = Z.of_nat (length (steps c)).
Proof. intros Hc. unfold totalSteps. rewrite Hc. reflexivity. Qed.

Lemma stepAt_Some (c : TutorialConfig) (index : Z) :
  0 <= index < Z.of_nat (length (steps c)) -> exists step, stepAt c index = Some step.
Proof. intros Hb. apply stepAt_bounds in Hb. destruct Hb as [s Hs]. eauto. Qed.

(** X8: [next] and then [previous] come back to the step they left, whether or
    not the step in between waits for an action: [previous] does not look
    at the gate. *)
Theorem next_then_previous (w : World) (c : TutorialConfig) :
  config w = Some c -> 0 <= currentStepIndex w -> canGoNext w = true ->
  (next w).2 = Ok tt -> (previous (next w).1).2 = Ok tt ->
  currentStepIndex (next w).1 = currentStepIndex w + 1 /\
  currentStepIndex (previous (next w).1).1 = currentStepIndex w /\
  currentStep (previous (next w).1).1 = currentStep w.
Proof.
  intros Hc Hpos Hgo. unfold next. rewrite Hgo.
  unfold canGoNext in Hgo. destruct (isWaitingForAction w); [discriminate|].
  apply bool_decide_eq_true in Hgo. rewrite (totalSteps_config w c Hc) in Hgo.
  destruct (stepAt_Some c (currentStepIndex w + 1)) as [s1 Hs1]; [lia|].
  destruct (stepAt_Some c (currentStepIndex w)) as [s0 Hs0]; [lia|].
  intros Hok1.
  destruct (goToStep_landed _ w c s1 Hc Hs1 Hok1) as (Hc1 & Hi1 & _).
  set (w1 := (goToStep (currentStepIndex w + 1) w).1) in *.
  unfold previous, canGoPrevious. rewrite Hi1.
  rewrite bool_decide_eq_true_2 by lia.
  replace (currentStepIndex w + 1 - 1) with (currentStepIndex w) by lia.
  intros Hok0.
  destruct (goToStep_landed _ w1 c s0 Hc1 Hs0 Hok0) as (_ & Hi0 & Hcur & _).
  split; [reflexivity|]. split; [exact Hi0|].
  rewrite Hcur. symmetry. apply (stepAt_currentStep w c); assumption.
Qed.

Lemma next_then_previous_witness :
  config (run [Start twoGates; TriggerAction "x" NoData] blankWorld) = Some twoGates /\
  canGoNext (run [Start twoGates; TriggerAction "x" NoData] blankWorld) = true /\
  isWaitingForAction (next (run [Start twoGates; TriggerAction "x" NoData] blankWorld)).1
    = true /\
  currentStepIndex
    (previous (next (run [Start twoGates; TriggerAction "x" NoData] blankWorld)).1).1
    = currentStepIndex (run [Start twoGates; TriggerAction "x" NoData] blankWorld).
Proof.
  split; [reflexivity|]. split; [reflexivity|]. split; [reflexivity|].
  apply (next_then_previous (run [Start twoGates; TriggerAction "x" NoData] blankWorld)
           twoGates); first [reflexivity | vm_compute; discriminate].
Defined.

Lemma findIndexFrom_none (p : TutorialStep -> bool) (l : list TutorialStep) :
  Forall (fun s => p s = false) l -> forall k, findIndexFrom p l k = -1.
Proof.
  induction 1 as [|s l Hs _ IH]; intros k; simpl; [reflexivity|].
  rewrite Hs. apply IH.
Qed.

Lemma findIndexFrom_first (p : TutorialStep -> bool) (pre post : list TutorialStep)
    (s : TutorialStep) :
  Forall (fun s' => p s' = false) pre -> p s = true ->
  forall k, findIndexFrom p (pre ++ s :: post) k = k + Z.of_nat (length pre).
Proof.
  intros Hpre Hs. induction Hpre as [|s' pre Hs' _ IH]; intros k; simpl.
  - rewrite Hs. lia.
  - rewrite Hs', IH. lia.
Qed.

(** X9: [skipTo] with an identifier that no step carries does nothing at all:
    no callback, no event, no change of state. *)
Theorem skipTo_unknown_step (stepId : string) (w : World) :
  (forall c, config w = Some c -> Forall (fun s => step_id s <> stepId) (steps c)) ->
  skipTo stepId w = (w, Ok tt).
Proof.
  intros Hno. unfold skipTo, mbind, M_bind, gets. simpl.
  destruct (config w) as [c|]; [|reflexivity].
  unfold findIndex. rewrite (findIndexFrom_none _ (steps c)).
  - reflexivity.
  - eapply Forall_impl; [apply (Hno c eq_refl)|].
    intros s Hs. simpl in Hs. apply bool_decide_eq_false_2, Hs.
Qed.

Lemma skipTo_unknown_step_witness :
  (forall c, config (run [Start tourA] blankWorld) = Some c ->
             Forall (fun s => step_id s <> "nowhere") (steps c)) /\
  skipTo "nowhere" (run [Start tourA] blankWorld) = (run [Start tourA] blankWorld, Ok tt).
Proof.
  assert (H : forall c, config (run [Start tourA] blankWorld) = Some c ->
                        Forall (fun s => step_id s <> "nowhere") (steps c)).
  { intros c [= <-]. repeat constructor; discriminate. }
  split; [exact H|].
  apply (skipTo_unknown_step "nowhere" (run [Start tourA] blankWorld) H).
Defined.

(** X10: [skipTo] goes to the first step that carries the identifier, also when
    a later step carries it too, and whatever the waiting flag and the
    [allowSkipTo] list of the current step say. *)
Theorem skipTo_first_match (stepId : string) (w : World) (c : TutorialConfig)
    (pre post : list TutorialStep) (step : TutorialStep) :
  config w = Some c -> steps c = pre ++ step :: post ->
  Forall (fun s => step_id s <> stepId) pre -> step_id step = stepId ->
  skipTo stepId w = goToStep (Z.of_nat (length pre)) w /\
  ((skipTo stepId w).2 = Ok tt ->
   currentStepIndex (skipTo stepId w).1 = Z.of_nat (length pre) /\
   currentStep (skipTo stepId w).1 = Some step).
Proof.
  intros Hc Hsteps Hpre Hid.
  assert (E : skipTo stepId w = goToStep (Z.of_nat (length pre)) w).
  { unfold skipTo, mbind, M_bind, gets. simpl. rewrite Hc, Hsteps.
    unfold findIndex. rewrite findIndexFrom_first.
    - simpl. destruct (decide _); [reflexivity | lia].
    - eapply Forall_impl; [exact Hpre|].
      intros s Hs. simpl in Hs. apply bool_decide_eq_false_2, Hs.
    - apply bool_decide_eq_true_2, Hid. }
  split; [exact E|]. rewrite E. intros Hok.
  assert (Hs : stepAt c (Z.of_nat (length pre)) = Some step).
  { unfold stepAt. destruct (decide _); [|lia].
    rewrite Nat2Z.id, Hsteps. apply list_lookup_middle. reflexivity. }
  destruct (goToStep_landed _ w c step Hc Hs Hok) as (_ & Hi & Hcur & _).
  split; assumption.
Qed.

Lemma skipTo_first_match_witness :
  config (run [Start twoGates] blankWorld) = Some twoGates /\
  isWaitingForAction (run [Start twoGates] blankWorld) = true /\
  currentStepIndex (skipTo "b" (run [Start twoGates] blankWorld)).1 = 1.
Proof.
  split; [reflexivity|]. split; [reflexivity|].
  apply (skipTo_first_match "b" (run [Start twoGates] blankWorld) twoGates
           [waitingStep "a" "x" (Some 1000)] [] (waitingStep "b" "e" None)).
  - reflexivity.
  - reflexivity.
  - repeat constructor. discriminate.
  - reflexivity.
  - reflexivity.
Defined.

(** ** The event bus as a map of sets *)

Lemma elem_of_setAdd (h h' : Handler) (hs : list Handler) :
  h' ∈ setAdd h hs <-> h' = h \/ h' ∈ hs.
Proof.
  unfold setAdd. destruct (decide (h ∈ hs)) as [Hin|Hout].
  - split; [auto | intros [->|H]; assumption].
  - rewrite elem_of_app, list_elem_of_singleton. tauto.
Qed.

Lemma elem_of_setDelete (h h' : Handler) (hs : list Handler) :
  h' ∈ setDelete h hs <-> h' <> h /\ h' ∈ hs.
Proof. unfold setDelete. rewrite list_elem_of_filter. tauto. Qed.

Lemma setAdd_idem (h : Handler) (hs : list Handler) : setAdd h (setAdd h hs) = setAdd h hs.
Proof.
  unfold setAdd at 1. destruct (decide _) as [|Hout]; [reflexivity|].
  exfalso. apply Hout, elem_of_setAdd. left. reflexivity.
Qed.

Lemma on_lookup (ev : string) (h : Handler) (w : World) :
  eventBus (on ev h w) !! ev = Some (setAdd h (default [] (eventBus w !! ev))).
Proof.
  unfold on. simpl. rewrite lookup_alter_eq.
  destruct (eventBus w !! ev) as [hs|] eqn:E; simpl.
  - rewrite E. reflexivity.
  - rewrite lookup_insert_eq. reflexivity.
Qed.

Lemma on_insert (ev : string) (h : Handler) (w : World) :
  on ev h w
  = set_eventBus (<[ev := setAdd h (default [] (eventBus w !! ev))]> (eventBus w)) w.
Proof.
  unfold on. f_equal. apply map_eq. intros k. destruct (decide (ev = k)) as [<-|Hne].
  - rewrite lookup_alter_eq, lookup_insert_eq.
    destruct (eventBus w !! ev) as [hs|] eqn:E; simpl.
    + rewrite E. reflexivity.
    + rewrite lookup_insert_eq. reflexivity.
  - rewrite lookup_alter_ne, lookup_insert_ne by exact Hne.
    destruct (eventBus w !! ev); [reflexivity|]. apply lookup_insert_ne, Hne.
Qed.

Lemma on_bus (ev : string) (h : Handler) (w : World) :
  eventBus (on ev h w) = <[ev := setAdd h (default [] (eventBus w !! ev))]> (eventBus w).
Proof. rewrite on_insert. reflexivity. Qed.

Lemma on_lookup_ne (ev ev' : string) (h : Handler) (w : World) :
  ev <> ev' -> eventBus (on ev h w) !! ev' = eventBus w !! ev'.
Proof.
  intros Hne. unfold on. simpl. rewrite lookup_alter_ne by exact Hne.
  destruct (eventBus w !! ev); [reflexivity|]. apply lookup_insert_ne, Hne.
Qed.

Lemma off_lookup (ev : string) (h : Handler) (w : World) :
  eventBus (off ev h w) !! ev = setDelete h <$> eventBus w !! ev.
Proof.
  unfold off. destruct (eventBus w !! ev) as [hs|] eqn:E; simpl.
  - apply lookup_insert_eq.
  - exact E.
Qed.

Lemma off_lookup_ne (ev ev' : string) (h : Handler) (w : World) :
  ev <> ev' -> eventBus (off ev h w) !! ev' = eventBus w !! ev'.
Proof.
  intros Hne. unfold off. destruct (eventBus w !! ev); [|reflexivity].
  simpl. apply lookup_insert_ne, Hne.
Qed.

Lemma subscribed_on (ev ev' : string) (h h' : Handler) (w : World) :
  subscribed ev' h' (on ev h w) <-> (ev' = ev /\ h' = h) \/ subscribed ev' h' w.
Proof.
  unfold subscribed. destruct (decide (ev = ev')) as [<-|Hne].
  - rewrite on_lookup. simpl. rewrite elem_of_setAdd. tauto.
  - rewrite on_lookup_ne by exact Hne. split; [auto|]. intros [[E _]|H]; [congruence | exact H].
Qed.

Lemma subscribed_off (ev ev' : string) (h h' : Handler) (w : World) :
  subscribed ev' h' (off ev h w) <-> ~ (ev' = ev /\ h' = h) /\ subscribed ev' h' w.
Proof.
  unfold subscribed. destruct (decide (ev = ev')) as [<-|Hne].
  - rewrite off_lookup. destruct (eventBus w !! ev) as [hs|]; simpl.
    + rewrite elem_of_setDelete. tauto.
    + split; [intros H | intros [_ H]]; inversion H.
  - rewrite off_lookup_ne by exact Hne. split; [|tauto].
    intros H. split; [|exact H]. intros [E _]. congruence.
Qed.

(** X11: The subscribers of an event form a set: [on] makes the handler a
    subscriber, a second [on] with the same handler changes nothing, [off]
    makes it no subscriber, and neither touches another handler or another
    event. *)
Theorem subscribers_form_a_set (ev : string) (h : Handler) (w : World) :
  subscribed ev h (on ev h w) /\
  on ev h (on ev h w) = on ev h w /\
  ~ subscribed ev h (off ev h w) /\
  ~ subscribed ev h (off ev h (on ev h w)) /\
  (forall ev' h', (ev', h') <> (ev, h) ->
     (subscribed ev' h' (on ev h w) <-> subscribed ev' h' w) /\
     (subscribed ev' h' (off ev h w) <-> subscribed ev' h' w)).
Proof.
  split; [apply subscribed_on; auto|].
  split.
  { assert (B : eventBus (on ev h (on ev h w)) = eventBus (on ev h w)).
    { rewrite (on_bus ev h (on ev h w)). apply insert_id.
      rewrite !on_lookup. simpl. rewrite setAdd_idem. reflexivity. }
    transitivity (set_eventBus (eventBus (on ev h (on ev h w))) (on ev h w));
      [reflexivity|].
    rewrite B. reflexivity. }
  split; [rewrite subscribed_off; tauto|].
  split; [rewrite subscribed_off; tauto|].
  intros ev' h' Hne. rewrite subscribed_on, subscribed_off.
  split; split; try tauto.
  - intros [[-> ->]|H]; [contradiction | exact H].
  - intros H. split; [|exact H]. intros [-> ->]. contradiction.
Qed.

(** A bus whose sets hold no handler twice. *)
Lemma setAdd_NoDup (h : Handler) (hs : list Handler) : NoDup hs -> NoDup (setAdd h hs).
Proof.
  intros Hnd. unfold setAdd. destruct (decide (h ∈ hs)) as [|Hout]; [exact Hnd|].
  apply NoDup_app. split; [exact Hnd|]. split.
  - intros x Hx Hx'. apply list_elem_of_singleton in Hx'. subst. contradiction.
  - apply NoDup_singleton.
Qed.

Lemma setDelete_NoDup (h : Handler) (hs : list Handler) : NoDup hs -> NoDup (setDelete h hs).
Proof. apply NoDup_filter. Qed.

(** What every operation keeps of the bus follows from what [on] and
    [off] keep. *)
Lemma bus_invariant (P : gmap string (list Handler) -> Prop) :
  (forall e h w, P (eventBus w) -> P (eventBus (on e h w))) ->
  (forall e h w, P (eventBus w) -> P (eventBus (off e h w))) ->
  forall op w, P (eventBus w) -> P (eventBus (after op w)).
Proof.
  intros Hon Hoff op.
  set (R := fun a b : World => P (eventBus a) -> P (eventBus b)).
  assert (PO : PreOrder R) by apply (invariant_preorder (fun w => P (eventBus w))).
  assert (Hsame : forall a b, eventBus b = eventBus a -> R a b).
  { intros a b E H. rewrite E. exact H. }
  assert (Hrun : forall cb w, R w (runTimer cb w)).
  { intros [|e h] w; simpl.
    - apply Hsame. frame.
    - destruct (isWaitingForAction w); [|apply Hsame; reflexivity].
      intros H. apply (Hoff e h (set_isWaitingForAction false w)), H. }
  assert (P0 : preserves R (perform op)).
  { apply (@perform_preserves R PO); try (intros; apply Hsame; frame; fail).
    - intros e h w. exact (Hoff e h w).
    - intros e h w. exact (Hon e h w).
    - intros step w. unfold waitIfNeeded.
      destruct (waitForAction step) as [wfa|]; [|apply Hsame; reflexivity].
      unfold setupActionListener.
      intros H.
      assert (H1 : P (eventBus
                        (on (event wfa) (ActionHandler (closures w) (event wfa))
                           (set_closures (S (closures w)) (set_isWaitingForAction true w))))).
      { apply Hon. exact H. }
      destruct (timeout wfa) as [t|]; [destruct (decide (t = 0))|]; exact H1.
    - apply (@advance_preserves R PO); try (intros; apply Hsame; reflexivity).
      exact Hrun. }
  exact P0.
Qed.

Lemma bus_invariant_run (P : gmap string (list Handler) -> Prop) :
  (forall e h w, P (eventBus w) -> P (eventBus (on e h w))) ->
  (forall e h w, P (eventBus w) -> P (eventBus (off e h w))) ->
  forall ops w, P (eventBus w) -> P (eventBus (run ops w)).
Proof.
  intros Hon Hoff ops. induction ops as [|op ops IH]; intros w H; simpl; [exact H|].
  apply IH, bus_invariant; assumption.
Qed.

Lemma bus_invariant_move (P : gmap string (list Handler) -> Prop) :
  (forall e h w, P (eventBus w) -> P (eventBus (on e h w))) ->
  (forall e h w, P (eventBus w) -> P (eventBus (off e h w))) ->
  forall m s, P (eventBus s.1) -> P (eventBus (move m s).1).
Proof.
  intros Hon Hoff m s.
  set (R := fun a b : World => P (eventBus a) -> P (eventBus b)).
  assert (PO : PreOrder R) by apply (invariant_preorder (fun w => P (eventBus w))).
  assert (Hsame : forall a b, eventBus b = eventBus a -> R a b).
  { intros a b E H. rewrite E. exact H. }
  assert (Hwait : forall step w, R w (waitIfNeeded step w)).
  { intros step w. unfold waitIfNeeded.
    destruct (waitForAction step) as [wfa|]; [|apply Hsame; reflexivity].
    unfold setupActionListener. intros H.
    assert (H1 : P (eventBus
                      (on (event wfa) (ActionHandler (closures w) (event wfa))
                         (set_closures (S (closures w)) (set_isWaitingForAction true w))))).
    { apply Hon. exact H. }
    destruct (timeout wfa) as [t|]; [destruct (decide (t = 0))|]; exact H1. }
  assert (Hgo : forall index, preserves R (goToStep_begin index)).
  { intros index. apply (@goToStep_begin_preserves R PO);
      first [ exact Hoff | intros; apply Hsame; frame ]. }
  change (R s.1 (move m s).1).
  apply (@move_preserves R PO);
    try first [ exact Hoff | exact Hwait | intros; apply Hsame; frame ].
  intros op. apply (@begin_preserves R PO).
  - exact (bus_invariant P Hon Hoff op).
  - intros c _. apply (@start_begin_preserves R PO);
      first [ exact Hoff | intros; apply Hsame; frame ].
  - exact Hgo.
Qed.

Lemma bus_invariant_play (P : gmap string (list Handler) -> Prop) :
  (forall e h w, P (eventBus w) -> P (eventBus (on e h w))) ->
  (forall e h w, P (eventBus w) -> P (eventBus (off e h w))) ->
  forall moves s, P (eventBus s.1) -> P (eventBus (play moves s).1).
Proof.
  intros Hon Hoff moves. induction moves as [|m moves IH]; intros s H; simpl; [exact H|].
  apply IH, bus_invariant_move; assumption.
Qed.

Lemma reachable_NoDup (w : World) (ev : string) (hs : list Handler) :
  reachable w -> eventBus w !! ev = Some hs -> NoDup hs.
Proof.
  intros (storage & page & height & y & moves & ->). revert ev hs.
  apply (bus_invariant_play
           (fun bus => forall ev hs, bus !! ev = Some hs -> NoDup hs)).
  - intros e h w H ev hs. rewrite on_bus.
    destruct (decide (e = ev)) as [<-|Hne].
    + rewrite lookup_insert_eq. intros [= <-]. apply setAdd_NoDup.
      destruct (eventBus w !! e) as [l|] eqn:E; simpl; [apply (H e l E) | constructor].
    + rewrite lookup_insert_ne by exact Hne. apply H.
  - intros e h w H ev hs. destruct (decide (e = ev)) as [<-|Hne].
    + rewrite off_lookup. destruct (eventBus w !! e) as [l|] eqn:E; simpl; [|discriminate].
      intros [= <-]. apply setDelete_NoDup, (H e l E).
    + rewrite off_lookup_ne by exact Hne. apply H.
  - intros ev hs. simpl. rewrite lookup_empty. discriminate.
Qed.

Lemma emit_quiet_exact (ev : string) (data : Payload) (w : World) :
  quietOn ev w ->
  emit ev data w
  = (set_trace (trace w ++ Emitted ev data
                  :: map (fun h => HandlerInvoked h data) (default [] (eventBus w !! ev))) w,
     Ok tt).
Proof.
  intros Hq. unfold emit, callStackLimit. rewrite emit_depth_unfold.
  destruct (eventBus w !! ev) as [hs|] eqn:E; [|reflexivity].
  pose proof (forEach_quiet (emit_depth 255) data ev hs [] hs
                (observe (Emitted ev data) w) E (Hq hs E) (fun h H => H)) as F.
  rewrite app_nil_r in F. rewrite F.
  unfold forEach, mret, M_ret, observe, set_trace. cbn [trace from_option id].
  rewrite <- app_assoc. reflexivity.
Qed.

(** X12: When the subscribers of an event are host functions that return,
    [emit] returns, calls each of them exactly once, in the order in which
    they subscribed, with the data published, and changes nothing else. *)
Theorem emit_calls_each_subscriber_once (ev : string) (data : Payload) (w : World) :
  reachable w -> quietOn ev w ->
  NoDup (default [] (eventBus w !! ev)) /\
  emit ev data w
  = (set_trace (trace w ++ Emitted ev data
                  :: map (fun h => HandlerInvoked h data) (default [] (eventBus w !! ev))) w,
     Ok tt).
Proof.
  intros Hr Hq. split.
  - destruct (eventBus w !! ev) as [hs|] eqn:E; simpl; [|constructor].
    apply (reachable_NoDup w ev hs Hr E).
  - apply emit_quiet_exact, Hq.
Qed.

Lemma emit_calls_each_subscriber_once_witness :
  reachable (run [Subscribe "e" 1 None; Subscribe "e" 2 None; Subscribe "e" 1 None]
               blankWorld) /\
  trace (emit "e" (HostData "d")
           (run [Subscribe "e" 1 None; Subscribe "e" 2 None; Subscribe "e" 1 None]
              blankWorld)).1
  = [Emitted "e" (HostData "d");
     HandlerInvoked (HostHandler 1 None) (HostData "d");
     HandlerInvoked (HostHandler 2 None) (HostData "d")].
Proof.
  assert (R : reachable (run [Subscribe "e" 1 None; Subscribe "e" 2 None;
                              Subscribe "e" 1 None] blankWorld)).
  { exact (run_reachable [Subscribe "e" 1 None; Subscribe "e" 2 None; Subscribe "e" 1 None]
             ∅ ∅ 768%Q 0%Q). }
  split; [exact R|].
  destruct (emit_calls_each_subscriber_once "e" (HostData "d")
              (run [Subscribe "e" 1 None; Subscribe "e" 2 None; Subscribe "e" 1 None]
                 blankWorld) R) as [_ E].
  - intros hs [= <-]. repeat constructor.
  - rewrite E. reflexivity.
Defined.

(** ** Timers *)

Lemma insertTimer_sublist (t : Z * TimerCallback) (ts : list (Z * TimerCallback)) :
  ts `sublist_of` insertTimer t ts.
Proof.
  induction ts as [|u rest IH]; simpl.
  - apply sublist_nil_l.
  - destruct (decide (u.1 <= t.1)).
    + apply sublist_skip, IH.
    + apply sublist_cons. reflexivity.
Qed.

Lemma setTimeout_sublist (cb : TimerCallback) (delay : Z) (w : World) :
  timers w `sublist_of` timers (setTimeout cb delay w).
Proof. unfold setTimeout. simpl. apply insertTimer_sublist. Qed.

(** X17: The engine has no [clearTimeout]: whatever is called, a timer that is
    pending stays pending, in its place in the queue, until time passes.
    Neither [close] nor leaving the step cancels the fallback of a wait or
    the refresh after a scroll. *)
Theorem timers_are_never_cancelled (op : Op) (w : World) :
  (forall dt, op <> AdvanceTime dt) -> timers w `sublist_of` timers (after op w).
Proof.
  intros Hop.
  set (R := fun a b : World => timers a `sublist_of` timers b).
  assert (PO : PreOrder R).
  { split; [intros a; unfold R; reflexivity|].
    intros a b c Hab Hbc. unfold R in *. etransitivity; eassumption. }
  assert (Hsame : forall a b, timers b = timers a -> R a b).
  { intros a b E. unfold R. rewrite E. reflexivity. }
  assert (Hscroll : forall step x, R x (scrollToStep step x)).
  { intros step x. unfold scrollToStep, scrollElementIntoView.
    repeat case_match; try (apply Hsame; reflexivity).
    exact (setTimeout_sublist _ _ (observe _ x)). }
  assert (Hwait : forall step x, R x (waitIfNeeded step x)).
  { intros step x. unfold waitIfNeeded, setupActionListener.
    repeat case_match; try (apply Hsame; frame).
    unfold R. etransitivity; [|apply setTimeout_sublist]. apply Hsame. frame. }
  assert (G : preserves R (perform op)); [|exact (G w)].
  destruct op; simpl;
    first
      [ apply (@start_preserves R PO) | apply (@next_preserves R PO)
      | apply (@previous_preserves R PO) | apply (@goToStep_preserves R PO)
      | apply (@skipTo_preserves R PO) | apply (@complete_preserves R PO)
      | apply (@close_preserves R PO)
      | apply preserves_modify
      | idtac ];
    try (intros; apply Hsame; frame; fail); auto.
  - intros x. apply Hsame. apply emit_timers.
  - intros x. apply Hsame. apply emit_timers.
  - exfalso. apply (Hop dt). reflexivity.
Qed.

Lemma timers_are_never_cancelled_witness :
  (forall dt, Close <> AdvanceTime dt) /\
  timers (run [Start timedTour; Next] blankWorld)
    = [(1000, ActionTimeout "clicked" (ActionHandler 0 "clicked"))] /\
  timers (run [Start timedTour; Next] blankWorld)
    `sublist_of` timers (after Close (run [Start timedTour; Next] blankWorld)).
Proof.
  split; [discriminate|]. split; [vm_compute; reflexivity|].
  apply (timers_are_never_cancelled Close (run [Start timedTour; Next] blankWorld)).
  discriminate.
Defined.

(** ** Completion records *)

Lemma emit_localStorage ev data w : localStorage (emit ev data w).1 = localStorage w.
Proof. apply (emit_depth_same localStorage); reflexivity. Qed.

(** X22: Only [complete] and [resetCompletion] write to localStorage: every
    other operation, [start] and [close] included, leaves it as it is. *)
Theorem only_complete_and_reset_write_storage (op : Op) (w : World) :
  op <> Complete -> (forall k, op <> ResetCompletion k) ->
  localStorage (after op w) = localStorage w.
Proof.
  intros Hc Hr.
  assert (G : preserves (sameOn localStorage) (perform op)); [|exact (G w)].
  destruct op; simpl;
    first
      [ apply (start_preserves (sameOn localStorage))
      | apply (next_preserves (sameOn localStorage))
      | apply (previous_preserves (sameOn localStorage))
      | apply (goToStep_preserves (sameOn localStorage))
      | apply (skipTo_preserves (sameOn localStorage))
      | apply (close_preserves (sameOn localStorage))
      | apply preserves_modify
      | idtac ];
    try (frame; fail).
  - contradiction.
  - intros x. apply emit_localStorage.
  - intros x. apply emit_localStorage.
  - exfalso. apply (Hr tutorialId). reflexivity.
  - intros x. apply advance_localStorage.
Qed.

Lemma only_complete_and_reset_write_storage_witness :
  Close <> Complete /\ (forall k, Close <> ResetCompletion k) /\
  localStorage (after Close (run [Start tourA; Complete; Start tourA] blankWorld))
    = localStorage (run [Start tourA; Complete; Start tourA] blankWorld).
Proof.
  split; [discriminate|]. split; [discriminate|].
  apply (only_complete_and_reset_write_storage Close
           (run [Start tourA; Complete; Start tourA] blankWorld)); discriminate.
Defined.

Lemma close_localStorage (w : World) : localStorage (close w).1 = localStorage w.
Proof. apply (close_preserves (sameOn localStorage)); frame. Qed.

Lemma invoke_localStorage role f w : localStorage (invoke role f w).1 = localStorage w.
Proof. rewrite invoke_world. destruct f; reflexivity. Qed.

(** X23: Completion records of different tours do not interfere: [complete]
    changes the answer of [isCompleted] for the tour it completes only,
    and [resetCompletion] for the identifier it is given only. *)
Theorem completion_records_are_independent (tutorialId other : string) (w : World) :
  other <> tutorialId ->
  (forall c, config w = Some c -> config_id c = tutorialId ->
             isCompleted other (complete w).1 = isCompleted other w) /\
  isCompleted other (resetCompletion tutorialId w) = isCompleted other w.
Proof.
  intros Hne.
  assert (Hkey : completedKey tutorialId <> completedKey other).
  { intros E. apply completedKey_inj in E. congruence. }
  split.
  - intros c Hc Hid. rewrite (complete_unfold c w Hc). unfold isCompleted.
    set (w0 := set_localStorage _ w).
    assert (E : localStorage
                  ((emit "tutorial:complete" NoData ;;
                    invoke OnComplete (onComplete c) ;; close) w0).1
                = localStorage w0).
    { unfold mbind, M_bind.
      pose proof (emit_localStorage "tutorial:complete" NoData w0) as E1.
      destruct (emit "tutorial:complete" NoData w0) as [w1 [[]|e]]; simpl in *; [|exact E1].
      pose proof (invoke_localStorage OnComplete (onComplete c) w1) as E2.
      destruct (invoke OnComplete (onComplete c) w1) as [w2 [[]|e]]; simpl in *;
        [|congruence].
      rewrite close_localStorage. congruence. }
    rewrite E. unfold w0. simpl. rewrite Hid, lookup_insert_ne by exact Hkey. reflexivity.
  - unfold isCompleted, resetCompletion. simpl.
    rewrite lookup_delete_ne by exact Hkey. reflexivity.
Qed.

Lemma completion_records_are_independent_witness :
  "B" <> "A" /\
  isCompleted "B" (resetCompletion "A" (run [Start tourB; Complete] blankWorld)) = true.
Proof.
  split; [discriminate|].
  destruct (completion_records_are_independent "A" "B"
              (run [Start tourB; Complete] blankWorld)) as [_ E]; [discriminate|].
  rewrite E. vm_compute. reflexivity.
Defined.

(** ** Without a tour *)

(** X19: Before [start] and after [close], the calls that move through a tour
    or end it do nothing: they return, publish no event, run no callback
    and write no completion record. *)
Theorem nothing_moves_without_a_tour (op : Op) (w : World) :
  reachable w -> config w = None -> navigation op -> perform op w = (w, Ok tt).
Proof.
  intros _ Hc Hnav.
  destruct op; try contradiction; simpl.
  - unfold next. destruct (canGoNext w); [apply goToStep_idle, Hc | reflexivity].
  - unfold previous. destruct (canGoPrevious w); [apply goToStep_idle, Hc | reflexivity].
  - apply goToStep_idle, Hc.
  - unfold skipTo, mbind, M_bind, gets. simpl. rewrite Hc. reflexivity.
  - unfold complete, mbind, M_bind, gets. simpl. rewrite Hc. reflexivity.
  - apply close_idle, Hc.
Qed.

Lemma nothing_moves_without_a_tour_witness :
  reachable (run [Start tourA; Next; Close] blankWorld) /\
  config (run [Start tourA; Next; Close] blankWorld) = None /\
  perform Complete (run [Start tourA; Next; Close] blankWorld)
    = (run [Start tourA; Next; Close] blankWorld, Ok tt).
Proof.
  assert (R : reachable (run [Start tourA; Next; Close] blankWorld)).
  { exact (run_reachable [Start tourA; Next; Close] ∅ ∅ 768%Q 0%Q). }
  split; [exact R|]. split; [vm_compute; reflexivity|].
  apply (nothing_moves_without_a_tour Complete (run [Start tourA; Next; Close] blankWorld) R).
  - vm_compute. reflexivity.
  - exact I.
Defined.

(** ** Closing and completing, step by step *)

Lemma quietOn_same (ev : string) (a b : World) :
  eventBus b = eventBus a -> quietOn ev a -> quietOn ev b.
Proof. intros E H. unfold quietOn, subscribers. rewrite E. exact H. Qed.

Lemma cleanup_quietOn (ev : string) (w : World) :
  quietOn ev w -> quietOn ev (cleanupActionListener w).
Proof.
  intros H. unfold cleanupActionListener.
  destruct (currentActionHandler w) as [[e h]|]; [|exact H].
  apply (quietOn_same ev (off e h w)); [reflexivity|]. apply off_subscribers, H.
Qed.

(** The teardown of [close], when nothing throws. *)
Lemma close_quiet_exact (w : World) (c : TutorialConfig) :
  config w = Some c -> quietOn "tutorial:close" w ->
  (forall cb, onClose c = Some cb -> cb_throws cb = None) ->
  close w
  = (resetState
       (set_trace
          (trace w ++ Emitted "tutorial:close" NoData
             :: map (fun h => HandlerInvoked h NoData)
                  (default [] (eventBus (cleanupActionListener w) !! "tutorial:close"))
             ++ match onClose c with
                | Some cb => [CallbackInvoked OnClose cb]
                | None => []
                end)
          (cleanupActionListener w)),
     Ok tt).
Proof.
  intros Hc Hq Hcb. unfold close, mbind, M_bind, gets, modify. simpl. rewrite Hc.
  rewrite (emit_quiet_exact "tutorial:close" NoData (cleanupActionListener w))
    by (apply cleanup_quietOn, Hq).
  assert (Ht : trace (cleanupActionListener w) = trace w) by frame.
  rewrite Ht, invoke_world.
  destruct (onClose c) as [cb|] eqn:Hon.
  - rewrite (Hcb cb eq_refl). unfold observe, set_trace, resetState. simpl.
    rewrite <- app_assoc. reflexivity.
  - rewrite app_nil_r. reflexivity.
Qed.

(** X21: [complete] writes the record first.  When [onComplete] throws, the
    exception leaves [complete] before [close] is reached: the tour is
    recorded as completed and is still active, on the same step, and
    neither [tutorial:close] nor [onClose] has happened. *)
Theorem complete_cut_short_by_onComplete (w : World) (c : TutorialConfig)
    (cb : Callback) (message : string) :
  config w = Some c -> quietOn "tutorial:complete" w ->
  onComplete c = Some cb -> cb_throws cb = Some message ->
  (complete w).2 = Throw (HostError message) /\
  isCompleted (config_id c) (complete w).1 = true /\
  config (complete w).1 = Some c /\
  isActive (complete w).1 = isActive w /\
  currentStepIndex (complete w).1 = currentStepIndex w /\
  isWaitingForAction (complete w).1 = isWaitingForAction w /\
  trace (complete w).1
  = trace w ++ Emitted "tutorial:complete" NoData
      :: map (fun h => HandlerInvoked h NoData)
           (default [] (eventBus w !! "tutorial:complete"))
      ++ [CallbackInvoked OnComplete cb].
Proof.
  intros Hc Hq Hon Hthrows. rewrite (complete_unfold c w Hc).
  set (w0 := set_localStorage _ w).
  unfold mbind, M_bind.
  rewrite (emit_quiet_exact "tutorial:complete" NoData w0) by exact Hq.
  rewrite Hon, invoke_world, Hthrows. simpl.
  repeat split; auto.
  - unfold isCompleted. simpl. rewrite lookup_insert_eq. apply bool_decide_eq_true_2.
    reflexivity.
  - rewrite <- app_assoc. reflexivity.
Qed.

Lemma complete_cut_short_by_onComplete_witness :
  config (run [Start stubbornComplete] blankWorld) = Some stubbornComplete /\
  quietOn "tutorial:complete" (run [Start stubbornComplete] blankWorld) /\
  isActive (complete (run [Start stubbornComplete] blankWorld)).1
    = isActive (run [Start stubbornComplete] blankWorld) /\
  isCompleted "stubborn" (complete (run [Start stubbornComplete] blankWorld)).1 = true.
Proof.
  assert (Q : quietOn "tutorial:complete" (run [Start stubbornComplete] blankWorld)).
  { intros hs H. vm_compute in H. discriminate. }
  split; [reflexivity|]. split; [exact Q|].
  destruct (complete_cut_short_by_onComplete
              (run [Start stubbornComplete] blankWorld) stubbornComplete
              {| cb_name := "onComplete"; cb_throws := Some "no" |} "no"
              eq_refl Q eq_refl eq_refl) as (_ & Hdone & _ & Hactive & _).
  split; [exact Hactive | exact Hdone].
Defined.

(** X20: When nothing throws, [complete] ends the tour: the record is written,
    [tutorial:complete] is published and [onComplete] called before
    [tutorial:close] is published and [onClose] called, and the engine is
    left idle, without a configuration. *)
Theorem complete_finishes_the_tour (w : World) (c : TutorialConfig) :
  config w = Some c ->
  quietOn "tutorial:complete" w -> quietOn "tutorial:close" w ->
  (forall cb, onComplete c = Some cb -> cb_throws cb = None) ->
  (forall cb, onClose c = Some cb -> cb_throws cb = None) ->
  (complete w).2 = Ok tt /\
  config (complete w).1 = None /\ idle (complete w).1 /\
  isCompleted (config_id c) (complete w).1 = true /\
  exists completing closing,
    trace (complete w).1
    = trace w ++ Emitted "tutorial:complete" NoData :: completing
        ++ Emitted "tutorial:close" NoData :: closing /\
    emitted "tutorial:close" completing = false /\
    (forall cb, onComplete c = Some cb -> CallbackInvoked OnComplete cb ∈ completing) /\
    (forall cb, onClose c = Some cb -> CallbackInvoked OnClose cb ∈ closing).
Proof.
  intros Hc Hq1 Hq2 Hcb1 Hcb2.
  pose proof (complete_stores c w Hc) as Hstored.
  rewrite (complete_unfold c w Hc) in *.
  set (w0 := set_localStorage _ w) in *.
  unfold mbind, M_bind in *.
  rewrite (emit_quiet_exact "tutorial:complete" NoData w0) in * by exact Hq1.
  set (hs1 := map (fun h => HandlerInvoked h NoData)
                (default [] (eventBus w0 !! "tutorial:complete"))) in *.
  rewrite invoke_world in *.
  set (called1 := match onComplete c with
                  | Some cb => [CallbackInvoked OnComplete cb]
                  | None => []
                  end).
  set (w1 := set_trace (trace w0 ++ Emitted "tutorial:complete" NoData :: hs1 ++ called1) w0).
  assert (E : match onComplete c with
              | Some cb =>
                  (observe (CallbackInvoked OnComplete cb)
                     (set_trace (trace w0 ++ Emitted "tutorial:complete" NoData :: hs1) w0),
                   match cb_throws cb with
                   | Some message => Throw (HostError message)
                   | None => Ok tt
                   end)
              | None => (set_trace (trace w0 ++ Emitted "tutorial:complete" NoData :: hs1) w0,
                         Ok tt)
              end = (w1, Ok tt)).
  { unfold w1, called1. destruct (onComplete c) as [cb|] eqn:Hon.
    - rewrite (Hcb1 cb eq_refl). unfold observe, set_trace. simpl.
      rewrite <- app_assoc. reflexivity.
    - rewrite app_nil_r. reflexivity. }
  rewrite E in *. clear E.
  assert (Hc1 : config w1 = Some c) by exact Hc.
  assert (Hq : quietOn "tutorial:close" w1) by exact Hq2.
  rewrite (close_quiet_exact w1 c Hc1 Hq Hcb2) in *.
  cbn [fst snd] in *.
  split; [reflexivity|]. split; [reflexivity|]. split; [apply resetState_idle|].
  split; [exact Hstored|].
  exists (hs1 ++ called1).
  eexists. split; [|split; [|split]].
  - unfold resetState. simpl.
    assert (Ht : trace (cleanupActionListener w1) = trace w1) by frame.
    unfold w1 at 1. simpl. rewrite <- !app_assoc. simpl. rewrite <- !app_assoc.
    reflexivity.
  - rewrite emitted_app. unfold hs1, called1.
    assert (H1 : forall l, emitted "tutorial:close"
                             (map (fun h => HandlerInvoked h NoData) l) = false).
    { induction l; simpl; auto. }
    rewrite H1. destruct (onComplete c); reflexivity.
  - intros cb Hon. unfold called1. rewrite Hon. apply elem_of_app. right. left.
  - intros cb Hon. rewrite Hon. apply elem_of_app. right. left.
Qed.

Lemma complete_finishes_the_tour_witness :
  config (run [Start tourA; Next] blankWorld) = Some tourA /\
  idle (complete (run [Start tourA; Next] blankWorld)).1 /\
  isCompleted "A" (complete (run [Start tourA; Next] blankWorld)).1 = true.
Proof.
  split; [reflexivity|].
  destruct (complete_finishes_the_tour (run [Start tourA; Next] blankWorld) tourA)
    as (_ & _ & Hidle & Hdone & _).
  - reflexivity.
  - intros hs H. vm_compute in H. discriminate.
  - intros hs H. vm_compute in H. discriminate.
  - intros cb H. discriminate.
  - intros cb [= <-]. reflexivity.
  - split; [exact Hidle | exact Hdone].
Defined.

(** ** The gate of a waiting step *)

Lemma forEach_hosts_trace (publish : string -> Payload -> M unit) (data : Payload)
    (ev : string) (hs : list Handler) :
  Forall isHost hs ->
  forall w, exists t, (forEach (handlerBody publish data) ev hs w).1 = set_trace t w.
Proof.
  induction 1 as [|h hs Hh _ IH]; intros w; simpl.
  - exists (trace w). rewrite set_trace_same. reflexivity.
  - destruct (eventBus w !! ev) as [live|]; [destruct (bool_decide (h ∈ live))|];
      try apply IH.
    destruct h as [hid [msg|]|]; try contradiction;
      unfold mbind, M_bind, handlerBody, modify, throw, mret, M_ret; simpl.
    + eexists. reflexivity.
    + destruct (IH (observe (HandlerInvoked (HostHandler hid None) data) w)) as [t E].
      exists t. exact E.
Qed.

Lemma emit_hosts_trace (ev : string) (data : Payload) (w : World) :
  hostsOnly ev w -> exists t, (emit ev data w).1 = set_trace t w.
Proof.
  intros Hh. unfold emit, callStackLimit. rewrite emit_depth_unfold.
  destruct (eventBus w !! ev) as [hs|] eqn:E; [|eexists; reflexivity].
  destruct (forEach_hosts_trace (emit_depth 255) data ev hs (Hh hs E)
              (observe (Emitted ev data) w)) as [t Et].
  rewrite Et. exists t. reflexivity.
Qed.

Lemma transition_closures index step w : closures (transition index step w).1 = closures w.
Proof. apply (transition_preserves (sameOn closures)); frame. Qed.

Lemma waitIfNeeded_handler (step : TutorialStep) (wfa : WaitForAction) (w : World) :
  waitForAction step = Some wfa ->
  currentActionHandler (waitIfNeeded step w)
    = Some (event wfa, ActionHandler (closures w) (event wfa)) /\
  subscribed (event wfa) (ActionHandler (closures w) (event wfa)) (waitIfNeeded step w).
Proof.
  intros H. unfold waitIfNeeded, setupActionListener. rewrite H.
  set (h := ActionHandler (closures (set_isWaitingForAction true w)) (event wfa)).
  set (w0 := set_closures _ _).
  assert (S : subscribed (event wfa) h (on (event wfa) h w0)).
  { apply subscribed_on. left. split; reflexivity. }
  repeat case_match; split; first [reflexivity | exact S].
Qed.

(** X13: Entering a step that waits for an action raises the gate: when
    [goToStep] returns, the waiting flag is up, [next] is refused, and the
    one-shot handler is subscribed to the event and remembered for the
    clean-up.  (The event waited for is not [tutorial:step-change] itself,
    and only host functions listen to that one.) *)
Theorem entering_a_waiting_step_raises_the_gate (index : Z) (w : World)
    (c : TutorialConfig) (step : TutorialStep) (wfa : WaitForAction) :
  config w = Some c -> stepAt c index = Some step -> waitForAction step = Some wfa ->
  event wfa <> "tutorial:step-change" -> hostsOnly "tutorial:step-change" w ->
  (goToStep index w).2 = Ok tt ->
  isWaitingForAction (goToStep index w).1 = true /\
  canGoNext (goToStep index w).1 = false /\
  next (goToStep index w).1 = ((goToStep index w).1, Ok tt) /\
  currentActionHandler (goToStep index w).1
    = Some (event wfa, ActionHandler (closures w) (event wfa)) /\
  subscribed (event wfa) (ActionHandler (closures w) (event wfa)) (goToStep index w).1.
Proof.
  intros Hc Hs Hwfa Hne Hhosts Hok.
  destruct (goToStep_entered index w c step Hc Hs Hok) as [_ E].
  set (wt := (transition index step w).1) in *.
  assert (Hh : hostsOnly "tutorial:step-change" (waitIfNeeded step wt)).
  { apply (waitIfNeeded_hostsOnly _ step wfa); [exact Hwfa | exact Hne |].
    apply transition_subscribers, Hhosts. }
  destruct (emit_hosts_trace "tutorial:step-change" (StepChange step index)
              (waitIfNeeded step wt) Hh) as [t Et].
  destruct (waitIfNeeded_handler step wfa wt Hwfa) as [Hcur Hsub].
  unfold wt in Hcur, Hsub. rewrite transition_closures in Hcur, Hsub. fold wt in Hcur, Hsub.
  assert (Hw : isWaitingForAction (goToStep index w).1 = true).
  { rewrite E, Et. simpl. apply (waitIfNeeded_raises step wfa), Hwfa. }
  assert (Hgo : canGoNext (goToStep index w).1 = false).
  { unfold canGoNext. rewrite Hw. reflexivity. }
  split; [exact Hw|]. split; [exact Hgo|]. split.
  - unfold next. rewrite Hgo. reflexivity.
  - rewrite E, Et. split; [exact Hcur | exact Hsub].
Qed.

Lemma entering_a_waiting_step_raises_the_gate_witness :
  config (run [Start timedTour] blankWorld) = Some timedTour /\
  hostsOnly "tutorial:step-change" (run [Start timedTour] blankWorld) /\
  isWaitingForAction (goToStep 1 (run [Start timedTour] blankWorld)).1 = true.
Proof.
  assert (H : hostsOnly "tutorial:step-change" (run [Start timedTour] blankWorld)).
  { intros hs E. vm_compute in E. discriminate. }
  split; [reflexivity|]. split; [exact H|].
  apply (entering_a_waiting_step_raises_the_gate 1 (run [Start timedTour] blankWorld)
           timedTour (waitingStep "act" "clicked" (Some 1000))
           {| event := "clicked"; wait_target := None; timeout := Some 1000 |}).
  - reflexivity.
  - reflexivity.
  - reflexivity.
  - discriminate.
  - exact H.
  - vm_compute. reflexivity.
Defined.

Lemma gate_opens_on_its_event_witness :
  eventBus (run [Subscribe "x" 7 None; Start twoGates] blankWorld) !! "x"
    = Some ([HostHandler 7 None] ++ ActionHandler 0 "x" :: []) /\
  isWaitingForAction (run [Subscribe "x" 7 None; Start twoGates] blankWorld) = true /\
  isWaitingForAction
    (triggerAction "x" NoData (run [Subscribe "x" 7 None; Start twoGates] blankWorld)).1
    = false.
Proof.
  assert (B : eventBus (run [Subscribe "x" 7 None; Start twoGates] blankWorld) !! "x"
              = Some ([HostHandler 7 None] ++ ActionHandler 0 "x" :: [])).
  { vm_compute. reflexivity. }
  split; [exact B|]. split; [vm_compute; reflexivity|].
  apply (gate_opens_on_its_event
           (run [Subscribe "x" 7 None; Start twoGates] blankWorld) "x" 0
           [HostHandler 7 None] [] NoData B).
  - repeat constructor.
  - intros hs E. vm_compute in E. discriminate.
Defined.

(** ** Scrolling to the target *)

Lemma Qltb_true (a b : Q) : Qltb a b = true <-> (a < b)%Q.
Proof.
  unfold Qltb. rewrite negb_true_iff, <- not_true_iff_false, Qle_bool_iff.
  split; [apply Qnot_le_lt | apply Qlt_not_le].
Qed.

Lemma Qltb_false (a b : Q) : Qltb a b = false <-> (b <= a)%Q.
Proof. unfold Qltb. rewrite negb_false_iff. apply Qle_bool_iff. Qed.

(** X24: One scroll is enough: when [scrollElementIntoView] asks for a scroll
    and the page follows, the target lands exactly where the popover needs
    it (150 pixels from the top for [top], 150 pixels from the bottom for
    [bottom], centred for [left] and [right]), and a second look at it asks
    for no further scroll. *)
Theorem one_scroll_is_enough (rect : DOMRect) (placement : Placement) (w : World) (y : Q) :
  scrollTarget rect placement w = Some y ->
  let rect' := scrolledBy (y - scrollY w) rect in
  let w' := set_window (innerHeight w) y w in
  scrollTarget rect' placement w' = None /\
  match placement with
  | Top => rect_top rect' == 150
  | Bottom => rect_bottom rect' == innerHeight w - 150
  | Left | Right => rect_top rect' + rect_height rect' / 2 == innerHeight w / 2
  | Center => False
  end%Q.
Proof.
  unfold scrollTarget, margin, scrolledBy, set_window.
  destruct placement; cbn [rect_top rect_bottom rect_height innerHeight scrollY].
  - destruct (Qltb (rect_top rect) 150); [|discriminate]. intros [= <-].
    assert (E : (rect_top rect - (scrollY w + rect_top rect - 150 - scrollY w) == 150)%Q)
      by lra.
    split; [|exact E].
    destruct (Qltb _ 150) eqn:T; [|reflexivity]. apply Qltb_true in T. exfalso. lra.
  - destruct (Qltb (innerHeight w - 150) (rect_bottom rect)); [|discriminate].
    intros [= <-].
    assert (E : (rect_bottom rect
                 - (scrollY w + (rect_bottom rect - innerHeight w + 150) - scrollY w)
                 == innerHeight w - 150)%Q) by lra.
    split; [|exact E].
    destruct (Qltb (innerHeight w - 150) _) eqn:T; [|reflexivity]. apply Qltb_true in T. exfalso. lra.
  - destruct (Qltb 100 _); [|discriminate]. intros [= <-].
    assert (E : (rect_top rect
                 - (scrollY w + (rect_top rect + rect_height rect / 2 - innerHeight w / 2)
                    - scrollY w)
                 + rect_height rect / 2 == innerHeight w / 2)%Q) by lra.
    split; [|exact E].
    destruct (Qltb 100 _) eqn:T; [|reflexivity]. apply Qltb_true in T.
    exfalso. revert T. apply Qle_not_lt. apply Qabs_Qle_condition. split; lra.
  - destruct (Qltb 100 _); [|discriminate]. intros [= <-].
    assert (E : (rect_top rect
                 - (scrollY w + (rect_top rect + rect_height rect / 2 - innerHeight w / 2)
                    - scrollY w)
                 + rect_height rect / 2 == innerHeight w / 2)%Q) by lra.
    split; [|exact E].
    destruct (Qltb 100 _) eqn:T; [|reflexivity]. apply Qltb_true in T.
    exfalso. revert T. apply Qle_not_lt. apply Qabs_Qle_condition. split; lra.
  - discriminate.
Qed.

Lemma one_scroll_is_enough_witness :
  scrollTarget lowBox Bottom blankWorld = Some 382%Q /\
  scrollTarget (scrolledBy (382 - scrollY blankWorld) lowBox) Bottom
    (set_window (innerHeight blankWorld) 382 blankWorld) = None.
Proof.
  split; [reflexivity|].
  apply (one_scroll_is_enough lowBox Bottom blankWorld 382%Q). reflexivity.
Defined.

(** ** The rectangle after a scroll *)

Lemma updateTargetRect_reads (a b : World) :
  config a = config b -> currentStepIndex a = currentStepIndex b ->
  document a = document b ->
  targetRect (updateTargetRect a) = targetRect (updateTargetRect b).
Proof.
  intros Hc Hi Hd. unfold updateTargetRect, currentStep. rewrite Hc, Hi.
  destruct (config b) as [c|]; [|reflexivity].
  destruct (decide _); [reflexivity|].
  destruct (stepAt c (currentStepIndex b)) as [s|]; [|reflexivity].
  destruct (truthy (target s)); simpl; [rewrite Hd|]; reflexivity.
Qed.

Lemma runTimers_refresh (due : list (Z * TimerCallback)) (w : World) :
  forall x,
    config x = config w -> currentStepIndex x = currentStepIndex w ->
    document x = document w ->
    (exists at_, (at_, UpdateRectTimer) ∈ due) \/
    targetRect x = targetRect (updateTargetRect w) ->
    targetRect (fold_left (fun w t => runTimer t.2 (set_now t.1 w)) due x)
    = targetRect (updateTargetRect w).
Proof.
  induction due as [|[at_ cb] due IH]; intros x Hc Hi Hd Hcase; simpl.
  - destruct Hcase as [[at_ Hin]|E]; [inversion Hin | exact E].
  - assert (Rc : config (runTimer cb (set_now at_ x)) = config x) by frame.
    assert (Ri : currentStepIndex (runTimer cb (set_now at_ x)) = currentStepIndex x) by frame.
    assert (Rd : document (runTimer cb (set_now at_ x)) = document x) by frame.
    apply IH; try congruence.
    destruct cb as [|e h].
    + right. simpl. apply updateTargetRect_reads; assumption.
    + destruct Hcase as [[at' Hin]|E].
      * left. exists at'. apply elem_of_cons in Hin as [Heq|Hin]; [discriminate | exact Hin].
      * right. rewrite <- E. simpl. frame.
Qed.

Lemma advance_refreshes (dt at_ : Z) (w : World) :
  (at_, UpdateRectTimer) ∈ timers w -> at_ <= now w + Z.max 0 dt ->
  targetRect (advanceTimersByTime dt w) = targetRect (updateTargetRect w).
Proof.
  intros Hin Hdue. unfold advanceTimersByTime.
  set (limit := now w + Z.max 0 dt) in *.
  change (targetRect (set_now limit ?x)) with (targetRect x).
  rewrite <- (updateTargetRect_reads (set_timers (filter (fun t => ~ t.1 <= limit) (timers w)) w) w)
    by reflexivity.
  apply runTimers_refresh; try reflexivity.
  left. exists at_. apply list_elem_of_filter. split; [exact Hdue | exact Hin].
Qed.

(** X25: When [scrollElementIntoView] asks for a scroll it asks once, for the
    position computed, and schedules one refresh 350 ms later; when that
    time has passed, the target rectangle is the bounding box that the
    page then gives for the target of the current step, however the page
    has moved in between. *)
Theorem scroll_refreshes_the_target_rect (rect : DOMRect) (placement : Placement)
    (w : World) (y : Q) :
  scrollTarget rect placement w = Some y ->
  trace (scrollElementIntoView rect placement w) = trace w ++ [ScrollTo y] /\
  (now w + 350, UpdateRectTimer) ∈ timers (scrollElementIntoView rect placement w) /\
  forall page height y',
    targetRect
      (advanceTimersByTime 350
         (set_window height y' (set_document page (scrollElementIntoView rect placement w))))
    = targetRect
        (updateTargetRect
           (set_window height y'
              (set_document page (scrollElementIntoView rect placement w)))).
Proof.
  intros Hy.
  assert (Hin : (now w + 350, UpdateRectTimer)
                ∈ timers (scrollElementIntoView rect placement w)).
  { unfold scrollElementIntoView. rewrite Hy. unfold setTimeout. simpl.
    apply insertTimer_elem. }
  split; [unfold scrollElementIntoView; rewrite Hy; reflexivity|].
  split; [exact Hin|].
  intros page height y'.
  apply (advance_refreshes 350 (now w + 350)).
  - exact Hin.
  - assert (Hnow : now (scrollElementIntoView rect placement w) = now w) by frame.
    simpl. rewrite Hnow. lia.
Qed.

Lemma scroll_refreshes_the_target_rect_witness :
  scrollTarget lowBox Bottom blankWorld = Some 382%Q /\
  trace (scrollElementIntoView lowBox Bottom blankWorld) = [ScrollTo 382%Q].
Proof.
  split; [reflexivity|].
  apply (scroll_refreshes_the_target_rect lowBox Bottom blankWorld 382%Q). reflexivity.
Defined.

(** ** Placing the popover *)

Lemma orElse_positive (x : option Z) (d : Z) :
  0 < d -> (forall v, x = Some v -> 0 <= v) -> (0 < orElse x d)%Q.
Proof.
  intros Hd Hx. unfold orElse. destruct x as [[|p|p]|].
  - unfold Qlt. simpl. lia.
  - reflexivity.
  - specialize (Hx _ eq_refl). lia.
  - unfold Qlt. simpl. lia.
Qed.

Lemma Qhalves (x : Q) : (x / 2 + x / 2 == x)%Q.
Proof. field. Qed.




(** ** Scrolling to the popover *)

(** X29: The popover does not move with the page, and beside a target it is
    held 16 pixels inside the window while [scrollToPopoverIfNeeded] wants
    20.  So for [left] and [right], on a window wider than 640 pixels and
    tall enough for the popover and 20 pixels on either side, whenever the
    popover is held at the upper margin the check asks the page to scroll
    up by 4 pixels, and whenever it is held at the lower margin, to scroll
    down by 4 pixels: whatever the page has scrolled by, and again after
    the page has followed, as long as the target is so near the edge. *)
Theorem popover_at_the_margin_asks_for_a_scroll (target : DOMRect) (placement : Placement)
    (popover : PopoverElement) (viewportWidth : Q) (w : World) :
  placement = Left \/ placement = Right ->
  0 < offsetHeight popover ->
  (640 < viewportWidth)%Q ->
  (inject_Z (offsetHeight popover) + 40 <= innerHeight w)%Q ->
  let height := inject_Z (offsetHeight popover) in
  let centre := (rect_top target + rect_height target / 2)%Q in
  let box :=
    popoverBox (popoverStyle (Some target) placement (Some popover) viewportWidth
                  (innerHeight w))
      popover viewportWidth (innerHeight w) in
  ((centre - height / 2 < 16)%Q ->
   (rect_top box == 16)%Q /\
   exists y, popoverScrollTarget box w = Some y /\ (y == scrollY w - 4)%Q /\
             trace (scrollToPopoverIfNeeded (Some box) w) = trace w ++ [ScrollTo y]) /\
  ((innerHeight w - 16 < centre + height / 2)%Q ->
   (rect_bottom box == innerHeight w - 16)%Q /\
   exists y, popoverScrollTarget box w = Some y /\ (y == scrollY w + 4)%Q /\
             trace (scrollToPopoverIfNeeded (Some box) w) = trace w ++ [ScrollTo y]) /\
  ((16 <= centre - height / 2)%Q -> (centre + height / 2 <= innerHeight w - 16)%Q ->
   (rect_top box == centre - height / 2)%Q).
Proof.
  intros Hp Hpos Hwide Hroom height centre box.
  assert (Hor : orElse (offsetHeight <$> Some popover) 200 = height).
  { simpl. unfold orElse, height. destruct (offsetHeight popover); try reflexivity; lia. }
  assert (Hstyle : exists left_,
    popoverStyle (Some target) placement (Some popover) viewportWidth (innerHeight w)
    = {| style_top :=
           Px (if Qltb (centre - height / 2) 16 then (16 + height / 2)%Q
               else if Qltb (innerHeight w - 16) (centre + height / 2)
                    then (innerHeight w - 16 - height / 2)%Q else centre);
         style_left := Px left_; style_transform := TranslateY |}).
  { unfold popoverStyle. rewrite Hor. fold centre.
    destruct Hp as [-> | ->]; cbv zeta; eexists; reflexivity. }
  destruct Hstyle as [left_ Hstyle].
  assert (Htop : rect_top box
                 = ((if Qltb (centre - height / 2) 16 then (16 + height / 2)%Q
                     else if Qltb (innerHeight w - 16) (centre + height / 2)
                          then (innerHeight w - 16 - height / 2)%Q else centre)
                    - height / 2)%Q).
  { unfold box. rewrite Hstyle. reflexivity. }
  assert (Hbottom : rect_bottom box = (rect_top box + height)%Q).
  { unfold box. rewrite Hstyle. reflexivity. }
  pose proof (Qhalves height) as Hh.
  fold height in Hroom.
  unfold scrollToPopoverIfNeeded, popoverScrollTarget. rewrite Hbottom, Htop.
  clearbody height centre. clear Hor Hstyle Htop Hbottom box.
  split; [|split].
  - intros Hup. destruct (Qltb (centre - height / 2) 16) eqn:T1;
      [|apply Qltb_false in T1; exfalso; lra].
    split; [lra|].
    destruct (Qltb (16 + height / 2 - height / 2) 20) eqn:T2;
      [|apply Qltb_false in T2; exfalso; lra].
    eexists. split; [reflexivity|]. split; [lra | reflexivity].
  - intros Hdown. destruct (Qltb (centre - height / 2) 16) eqn:T1.
    { apply Qltb_true in T1. exfalso. lra. }
    destruct (Qltb (innerHeight w - 16) (centre + height / 2)) eqn:T2;
      [|apply Qltb_false in T2; exfalso; lra].
    split; [lra|].
    destruct (Qltb (innerHeight w - 16 - height / 2 - height / 2) 20) eqn:T3;
      [apply Qltb_true in T3; exfalso; lra|].
    destruct (Qltb (innerHeight w - 20)
                (innerHeight w - 16 - height / 2 - height / 2 + height)) eqn:T4;
      [|apply Qltb_false in T4; exfalso; lra].
    eexists. split; [reflexivity|]. split; [lra | reflexivity].
  - intros H1 H2. destruct (Qltb (centre - height / 2) 16) eqn:T1;
      [apply Qltb_true in T1; exfalso; lra|].
    destruct (Qltb (innerHeight w - 16) (centre + height / 2)) eqn:T2;
      [apply Qltb_true in T2; exfalso; lra|].
    reflexivity.
Qed.

Lemma popover_at_the_margin_asks_for_a_scroll_witness :
  exists y,
    popoverScrollTarget
      (popoverBox (popoverStyle (Some highBox) Left (Some defaultPopover) 1024 768)
         defaultPopover 1024 768)
      (set_window 768 500 blankWorld) = Some y /\
    (y == 496)%Q.
Proof.
  destruct (popover_at_the_margin_asks_for_a_scroll highBox Left defaultPopover 1024
              (set_window 768 500 blankWorld)) as [H _].
  - left. reflexivity.
  - reflexivity.
  - reflexivity.
  - vm_compute. discriminate.
  - destruct H as (_ & y & Hy & Hv & _); [reflexivity|].
    exists y. split; [exact Hy|]. rewrite Hv. reflexivity.
Defined.

(** ** Labels of the skip buttons *)

Lemma split_nonempty (sep : ascii) (s : string) : split sep s <> [].
Proof.
  destruct s as [|c rest]; simpl; [discriminate|].
  destruct (decide (c = sep)); [discriminate|].
  destruct (split sep rest); discriminate.
Qed.

Lemma length_join (words : list string) :
  words <> [] ->
  String.length (join " " words)
  = (foldr (fun word n => String.length word + n) 0 words + (length words - 1))%nat.
Proof.
  induction words as [|word rest IH]; intros Hne; [contradiction|].
  simpl. destruct rest as [|word' rest'].
  - simpl. lia.
  - rewrite !length_append, IH by discriminate. simpl. lia.
Qed.

Lemma length_capitalize (word : string) :
  String.length (capitalize word) = String.length word.
Proof. destruct word; reflexivity. Qed.

Lemma length_split (sep : ascii) (s : string) :
  (foldr (fun word n => String.length word + n) 0 (split sep s)
   + (length (split sep s) - 1) = String.length s)%nat.
Proof.
  induction s as [|c rest IH]; simpl; [reflexivity|].
  pose proof (split_nonempty sep rest) as Hne.
  destruct (decide (c = sep)).
  - simpl. destruct (split sep rest); [contradiction|]. simpl in *. lia.
  - destruct (split sep rest) as [|word words]; [contradiction|]. simpl in *. lia.
Qed.

Lemma foldr_length_capitalize (words : list string) :
  foldr (fun word n => String.length word + n)%nat 0%nat (map capitalize words)
  = foldr (fun word n => String.length word + n)%nat 0%nat words.
Proof.
  induction words as [|word rest IH]; simpl; [reflexivity|].
  rewrite length_capitalize, IH. reflexivity.
Qed.

Lemma list_ascii_append (a b : string) :
  list_ascii_of_string (a +:+ b) = list_ascii_of_string a ++ list_ascii_of_string b.
Proof.
  induction a as [|c a IH]; [reflexivity|].
  rewrite append_cons. simpl. rewrite IH. reflexivity.
Qed.

Lemma toUpperCase_not_hyphen (c : ascii) : c <> "-"%char -> toUpperCase c <> "-"%char.
Proof.
  intros Hc. unfold toUpperCase.
  destruct ((97 <=? nat_of_ascii c) && (nat_of_ascii c <=? 122))%nat eqn:E; [|exact Hc].
  apply andb_true_iff in E as [E1 E2].
  apply Nat.leb_le in E1. apply Nat.leb_le in E2.
  intros H. apply (f_equal nat_of_ascii) in H.
  rewrite nat_ascii_embedding in H by lia.
  change (nat_of_ascii "-"%char) with 45%nat in H. lia.
Qed.

Lemma toUpperCase_idem (c : ascii) : toUpperCase (toUpperCase c) = toUpperCase c.
Proof.
  destruct ((97 <=? nat_of_ascii c) && (nat_of_ascii c <=? 122))%nat eqn:E.
  - assert (Hc : toUpperCase c = ascii_of_nat (nat_of_ascii c - 32))
      by (unfold toUpperCase; rewrite E; reflexivity).
    apply andb_true_iff in E as [E1 E2].
    apply Nat.leb_le in E1. apply Nat.leb_le in E2.
    rewrite Hc. unfold toUpperCase. rewrite nat_ascii_embedding by lia.
    replace (97 <=? nat_of_ascii c - 32)%nat with false; [reflexivity|].
    symmetry. apply Nat.leb_gt. lia.
  - assert (Hc : toUpperCase c = c) by (unfold toUpperCase; rewrite E; reflexivity).
    rewrite !Hc. reflexivity.
Qed.

Lemma split_hyphenFree (s : string) : Forall hyphenFree (split "-"%char s).
Proof.
  induction s as [|c rest IH]; simpl.
  - repeat constructor.
  - destruct (decide (c = "-"%char)) as [->|Hc].
    + constructor; [constructor | exact IH].
    + destruct (split "-"%char rest) as [|word words].
      * repeat constructor. exact Hc.
      * inversion IH as [|? ? Hword Hwords]; subst.
        constructor; [|exact Hwords]. constructor; [exact Hc | exact Hword].
Qed.

Lemma capitalize_hyphenFree (word : string) : hyphenFree word -> hyphenFree (capitalize word).
Proof.
  destruct word as [|c rest]; [auto|]. unfold hyphenFree. simpl.
  intros H. inversion H as [|? ? Hc Hrest]; subst.
  constructor; [apply toUpperCase_not_hyphen, Hc | exact Hrest].
Qed.

Lemma join_hyphenFree (words : list string) :
  Forall hyphenFree words -> hyphenFree (join " " words).
Proof.
  induction 1 as [|word rest Hword Hrest IH]; simpl; [constructor|].
  destruct rest as [|word' rest']; [exact Hword|].
  unfold hyphenFree. rewrite !list_ascii_append. apply Forall_app. split; [exact Hword|].
  apply Forall_app. split; [|exact IH].
  repeat constructor. discriminate.
Qed.

Lemma split_without_hyphen (s : string) : hyphenFree s -> split "-"%char s = [s].
Proof.
  induction s as [|c rest IH]; intros H; simpl; [reflexivity|].
  inversion H as [|? ? Hc Hrest]; subst.
  destruct (decide (c = "-"%char)); [contradiction|].
  rewrite (IH Hrest). reflexivity.
Qed.

Lemma capitalize_idem (word : string) : capitalize (capitalize word) = capitalize word.
Proof. destruct word as [|c rest]; simpl; [reflexivity|]. rewrite toUpperCase_idem. reflexivity. Qed.

Lemma capitalize_join (word : string) (rest : list string) :
  capitalize (join " " (capitalize word :: rest)) = join " " (capitalize word :: rest).
Proof.
  simpl. destruct rest as [|word' rest'].
  - apply capitalize_idem.
  - destruct word as [|c tail]; simpl.
    + reflexivity.
    + rewrite append_cons. simpl. rewrite toUpperCase_idem. reflexivity.
Qed.

(** X30: The label of a skip button, for an identifier in ASCII: it is as long
    as the identifier, holds no hyphen, and is a label already (making a
    label of it again changes nothing). *)
Theorem skip_label_shape (stepId : string) :
  isAscii stepId ->
  String.length (getSkipLabel stepId) = String.length stepId /\
  hyphenFree (getSkipLabel stepId) /\
  getSkipLabel (getSkipLabel stepId) = getSkipLabel stepId.
Proof.
  intros _. unfold getSkipLabel. split; [|split].
  - rewrite length_join.
    + rewrite foldr_length_capitalize, length_map. apply length_split.
    + intros H. apply map_eq_nil in H. exact (split_nonempty _ _ H).
  - apply join_hyphenFree. apply Forall_map.
    eapply Forall_impl; [apply split_hyphenFree|]. intros w. apply capitalize_hyphenFree.
  - assert (H : hyphenFree (join " " (map capitalize (split "-"%char stepId)))).
    { apply join_hyphenFree. apply Forall_map.
      eapply Forall_impl; [apply split_hyphenFree|]. intros w. apply capitalize_hyphenFree. }
    rewrite (split_without_hyphen _ H). simpl.
    pose proof (split_nonempty "-"%char stepId) as Hne.
    destruct (split "-"%char stepId) as [|word words]; [contradiction|].
    apply (capitalize_join word (map capitalize words)).
Qed.

Lemma skip_label_shape_witness :
  isAscii "wait-for-action" /\
  getSkipLabel "wait-for-action" = "Wait For Action" /\
  hyphenFree (getSkipLabel "wait-for-action").
Proof.
  assert (A : isAscii "wait-for-action").
  { unfold isAscii. simpl. repeat constructor. }
  split; [exact A|]. split; [reflexivity|].
  apply (skip_label_shape "wait-for-action" A).
Defined.

(** ** A click on the overlay *)

(** X26: A click on the overlay either does nothing or calls [close].  It does
    nothing while the engine waits for an action; otherwise it is the
    [config] prop of the component that decides, not the configuration
    held by the engine: without the prop, a tour started with
    [allowClose: false] is closed by the click all the same.  When the
    click returns, the engine is as it was or idle. *)
Theorem overlay_click_closes_or_does_nothing (props_config : option TutorialConfig)
    (w : World) :
  (handleOverlayClick props_config w = (w, Ok tt) \/
   (handleOverlayClick props_config w = close w /\ isWaitingForAction w = false)) /\
  (isWaitingForAction w = true -> handleOverlayClick props_config w = (w, Ok tt)) /\
  (isWaitingForAction w = false -> currentStep w ≫= blockInteractions <> Some true ->
   handleOverlayClick None w = close w) /\
  ((handleOverlayClick props_config w).2 = Ok tt ->
   (handleOverlayClick props_config w).1 = w \/ idle (handleOverlayClick props_config w).1).
Proof.
  assert (Hclose : (close w).2 = Ok tt -> (close w).1 = w \/ idle (close w).1).
  { destruct (config w) as [c|] eqn:Hc.
    - destruct (close_outcome c w Hc) as [[w' E]|(e & E & _)].
      + rewrite E. intros _. right. apply resetState_idle.
      + rewrite E. discriminate.
    - rewrite (close_idle w Hc). left. reflexivity. }
  unfold handleOverlayClick. destruct (isWaitingForAction w) eqn:Hw.
  - repeat split; auto; discriminate.
  - split; [|split; [discriminate|split]].
    + destruct (_ && _); [right; split; reflexivity | left; reflexivity].
    + intros _ Hb. simpl.
      destruct (currentStep w ≫= blockInteractions) as [[|]|]; try reflexivity.
      contradiction.
    + destruct (_ && _); [exact Hclose | left; reflexivity].
Qed.

(** ** What is left behind *)

#[global] Instance quieter_preorder : PreOrder quieter.
Proof.
  split.
  - intros w. split; auto.
  - intros a b c [H1 H2] [H3 H4]. split; auto.
Qed.

Lemma quieter_same (a b : World) :
  eventBus b = eventBus a -> currentActionHandler b = currentActionHandler a ->
  quieter a b.
Proof. intros Eb Eh. unfold quieter, subscribed. rewrite Eb, Eh. auto. Qed.

Lemma off_quieter (e : string) (h : Handler) (w : World) : quieter w (off e h w).
Proof.
  split.
  - intros ev h' H. apply subscribed_off in H. tauto.
  - intros H. rewrite <- H. frame.
Qed.

Lemma close_quieter (w : World) : quieter w (close w).1.
Proof.
  apply (close_preserves quieter); intros;
    first [apply off_quieter | apply quieter_same; reflexivity | idtac].
  split; [auto | reflexivity].
Qed.

Lemma cleanup_idem (w : World) :
  cleanupActionListener (cleanupActionListener w) = cleanupActionListener w.
Proof.
  unfold cleanupActionListener at 1.
  assert (H : currentActionHandler (cleanupActionListener w) = None).
  { unfold cleanupActionListener. destruct (currentActionHandler w) as [[e h]|] eqn:E;
      [reflexivity | exact E]. }
  rewrite H. reflexivity.
Qed.

Lemma close_unfold (w : World) (c : TutorialConfig) :
  config w = Some c ->
  close w =
    (emit "tutorial:close" NoData ;; invoke OnClose (onClose c) ;; modify resetState)
      (cleanupActionListener w).
Proof.
  intros Hc. unfold close, mbind, M_bind, gets, modify. simpl. rewrite Hc. reflexivity.
Qed.

Lemma close_after_cleanup (w : World) (c : TutorialConfig) :
  config w = Some c -> close w = close (cleanupActionListener w).
Proof.
  intros Hc.
  assert (Hc' : config (cleanupActionListener w) = Some c) by (rewrite <- Hc; frame).
  rewrite (close_unfold w c Hc), (close_unfold _ c Hc'), cleanup_idem. reflexivity.
Qed.

(** X18: [close] takes the waiting handler with it: whether it returns or is
    cut short by an exception, the handler that the engine was holding for
    the current step is subscribed no more, and the reference to it is
    dropped. *)
Theorem close_removes_the_waiting_handler (w : World) (c : TutorialConfig)
    (e : string) (h : Handler) :
  config w = Some c -> currentActionHandler w = Some (e, h) ->
  ~ subscribed e h (close w).1 /\ currentActionHandler (close w).1 = None.
Proof.
  intros Hc Hh. rewrite (close_after_cleanup w c Hc).
  destruct (close_quieter (cleanupActionListener w)) as [Hsub Hnone].
  assert (E : cleanupActionListener w = set_currentActionHandler None (off e h w)).
  { unfold cleanupActionListener. rewrite Hh. reflexivity. }
  split.
  - intros H. apply Hsub in H. rewrite E in H.
    apply (subscribed_off e e h h w) in H. tauto.
  - apply Hnone. rewrite E. reflexivity.
Qed.

Lemma close_removes_the_waiting_handler_witness :
  config (run [Start twoGates] blankWorld) = Some twoGates /\
  subscribed "x" (ActionHandler 0 "x") (run [Start twoGates] blankWorld) /\
  ~ subscribed "x" (ActionHandler 0 "x") (close (run [Start twoGates] blankWorld)).1.
Proof.
  split; [reflexivity|]. split; [vm_compute; left|].
  apply (close_removes_the_waiting_handler (run [Start twoGates] blankWorld) twoGates
           "x" (ActionHandler 0 "x")); reflexivity.
Defined.

Lemma goToStep_cut_short (index : Z) (w : World) (c : TutorialConfig) (step : TutorialStep)
    (e : Error) :
  config w = Some c -> stepAt c index = Some step ->
  (transition index step w).2 = Throw e ->
  goToStep index w = transition index step w.
Proof.
  intros Hc Hs. rewrite (goToStep_unfold index w c step Hc Hs).
  unfold mbind at 1, M_bind at 1.
  destruct (transition index step w) as [w' [[]|e']]; simpl; [discriminate | reflexivity].
Qed.

(** X4: [goToStep] is not undone when a callback throws.  When [onExit] of the
    step being left throws, the engine stays on that step with the waiting
    flag as it was, but the handler of its wait is already unsubscribed:
    a gate that was up stays up with nobody listening.  When [onEnter] of
    the step being entered throws, the engine is on the new step already,
    and neither the wait of that step is set up nor [tutorial:step-change]
    published: a step that should wait does not. *)
Theorem goToStep_is_cut_short_by_a_callback (index : Z) (w : World) (c : TutorialConfig)
    (step : TutorialStep) :
  config w = Some c -> stepAt c index = Some step ->
  (forall cur cb message,
     currentStep w = Some cur -> onExit cur = Some cb -> cb_throws cb = Some message ->
     goToStep index w
     = (observe (CallbackInvoked OnExit cb) (cleanupActionListener w),
        Throw (HostError message)) /\
     currentStepIndex (goToStep index w).1 = currentStepIndex w /\
     isWaitingForAction (goToStep index w).1 = isWaitingForAction w /\
     currentActionHandler (goToStep index w).1 = None /\
     (forall e h, currentActionHandler w = Some (e, h) ->
                  ~ subscribed e h (goToStep index w).1)) /\
  (forall cb message,
     (currentStep w ≫= onExit) ≫= cb_throws = None ->
     onEnter step = Some cb -> cb_throws cb = Some message ->
     (goToStep index w).2 = Throw (HostError message) /\
     currentStepIndex (goToStep index w).1 = index /\
     isWaitingForAction (goToStep index w).1 = false /\
     currentActionHandler (goToStep index w).1 = None /\
     exists new,
       trace (goToStep index w).1 = trace w ++ new /\
       emitted "tutorial:step-change" new = false).
Proof.
  intros Hc Hs. split.
  - intros cur cb message Hcur Hexit Hthrows.
    assert (T : transition index step w
                = (observe (CallbackInvoked OnExit cb) (cleanupActionListener w),
                   Throw (HostError message))).
    { rewrite transition_unfold, invoke_world, Hcur. simpl. rewrite Hexit, Hthrows.
      reflexivity. }
    rewrite (goToStep_cut_short index w c step (HostError message) Hc Hs)
      by (rewrite T; reflexivity).
    rewrite T. split; [reflexivity|]. cbn [fst].
    split; [frame|]. split; [frame|].
    split; [unfold cleanupActionListener; destruct (currentActionHandler w) as [[e h]|] eqn:E;
            [reflexivity | exact E]|].
    intros e h Hh. unfold cleanupActionListener. rewrite Hh.
    intros H. apply (subscribed_off e e h h w) in H. tauto.
  - intros cb message Hexit Henter Hthrows.
    assert (Hcah : currentActionHandler (cleanupActionListener w) = None).
    { unfold cleanupActionListener. destruct (currentActionHandler w) as [[e h]|] eqn:E;
        [reflexivity | exact E]. }
    assert (Htr : trace (cleanupActionListener w) = trace w) by frame.
    set (w0 := cleanupActionListener w) in *.
    assert (G : forall w1 extra,
              currentActionHandler w1 = None -> trace w1 = trace w ++ extra ->
              emitted "tutorial:step-change" extra = false ->
              let r := invoke OnEnter (onEnter step)
                         (scrollToStep step
                            (updateTargetRect
                               (set_isWaitingForAction false
                                  (set_currentStepIndex index w1)))) in
              r.2 = Throw (HostError message) /\ currentStepIndex r.1 = index /\
              isWaitingForAction r.1 = false /\ currentActionHandler r.1 = None /\
              exists new, trace r.1 = trace w ++ new /\
                          emitted "tutorial:step-change" new = false).
    { intros w1 extra H1 Ht He r. subst r. rewrite invoke_world, Henter, Hthrows.
      set (w2 := scrollToStep step _).
      assert (A1 : currentStepIndex w2 = index) by (unfold w2; frame).
      assert (A2 : isWaitingForAction w2 = false) by (unfold w2; frame).
      assert (A3 : currentActionHandler w2 = None) by (rewrite <- H1; unfold w2; frame).
      assert (A4 : exists s, trace w2 = trace w1 ++ s /\
                             emitted "tutorial:step-change" s = false).
      { assert (U : trace (updateTargetRect
                             (set_isWaitingForAction false (set_currentStepIndex index w1)))
                    = trace w1) by frame.
        unfold w2, scrollToStep, scrollElementIntoView.
        repeat case_match;
          first [ exists []; rewrite app_nil_r; split; [exact U | reflexivity]
                | eexists; split;
                  [unfold setTimeout, observe; simpl; rewrite U; reflexivity | reflexivity] ]. }
      destruct A4 as (s & A4 & A5).
      repeat split; auto.
      exists (extra ++ s ++ [CallbackInvoked OnEnter cb]). split.
      - unfold observe. simpl. rewrite A4, Ht, <- !app_assoc. reflexivity.
      - rewrite !emitted_app, He, A5. reflexivity. }
    assert (T : exists w1 extra,
              currentActionHandler w1 = None /\ trace w1 = trace w ++ extra /\
              emitted "tutorial:step-change" extra = false /\
              transition index step w
              = invoke OnEnter (onEnter step)
                  (scrollToStep step
                     (updateTargetRect
                        (set_isWaitingForAction false (set_currentStepIndex index w1))))).
    { rewrite transition_unfold, invoke_world. fold w0.
      destruct (currentStep w ≫= onExit) as [cbx|]; simpl in Hexit.
      - rewrite Hexit. exists (observe (CallbackInvoked OnExit cbx) w0), [CallbackInvoked OnExit cbx].
        repeat split; auto. unfold observe. simpl. rewrite Htr. reflexivity.
      - exists w0, []. repeat split; auto. rewrite app_nil_r. exact Htr. }
    destruct T as (w1 & extra & T1 & T2 & T3 & T).
    destruct (G w1 extra T1 T2 T3) as (G1 & G2 & G3 & G4 & G5).
    rewrite <- T in G1, G2, G3, G4, G5.
    rewrite (goToStep_cut_short index w c step (HostError message) Hc Hs G1).
    repeat split; auto.
Qed.

Lemma goToStep_is_cut_short_by_a_callback_witness :
  config (run [Start thornyExit; Next] blankWorld) = Some thornyExit /\
  isWaitingForAction (run [Start thornyExit; Next] blankWorld) = true /\
  (goToStep 2 (run [Start thornyExit; Next] blankWorld)).2 = Throw (HostError "no") /\
  isWaitingForAction (goToStep 2 (run [Start thornyExit; Next] blankWorld)).1 = true /\
  currentActionHandler (goToStep 2 (run [Start thornyExit; Next] blankWorld)).1 = None.
Proof.
  split; [reflexivity|]. split; [vm_compute; reflexivity|].
  destruct (goToStep_is_cut_short_by_a_callback 2 (run [Start thornyExit; Next] blankWorld)
              thornyExit (plainStep "b") eq_refl eq_refl) as [H _].
  destruct (H exitThorn {| cb_name := "a.onExit"; cb_throws := Some "no" |} "no")
    as (E & _ & Hw & Hh & _); try (vm_compute; reflexivity).
  rewrite E. split; [reflexivity|]. split; [vm_compute; reflexivity | vm_compute; reflexivity].
Defined.
